(** * asyncLocalClient: an interleaving model of the concurrent ABCI client

    The Go file [server/concurrent] wraps an ABCI application with two
    ordered pipelines (CheckTx and DeliverTx), a pre-validation pool per
    pipeline, a WaitGroup counting in-flight items and a set of locks
    shared by every method.

    The embedding is a small-step interleaving semantics.  Every method
    body, the body of the two worker loops and the closure handed to the
    pool are transcribed statement by statement into a list of atomic
    instructions; a goroutine is an agent holding the instructions it
    still has to run; a schedule picks which agent moves next.  Blocking
    operations (Lock on a held mutex, send on a full channel, receive on
    an empty one, Wait on a positive counter) return [Blocked]; Go run
    time failures (Unlock of an unlocked mutex, negative WaitGroup
    counter, call through a nil func) return [Panic].

    Logging calls ([app.log.Debug]) and the hash computed only for them
    have no effect on the shared state and are left out.  The model
    covers one started client ([OnStart] has launched both workers) that
    has not been stopped, with the locks and the counter of its creator
    to itself. *)

From Stdlib Require Import ZArith Lia String.
From stdpp Require Import base tactics option list numbers functions.

Set Implicit Arguments.
Set Warnings "-clear-no-such-hyp".
Local Open Scope Z_scope.

(** ** ABCI values *)

Definition Tx := list Byte.byte.
Definition Payload := list Byte.byte.

(** ResponseCheckTx / ResponseDeliverTx: the result code and its data. *)
Record ResponseTx := { Code : N; Data : Payload }.

Definition CodeTypeOK : N := 0%N.
Definition IsOK (r : ResponseTx) : bool := (Code r =? CodeTypeOK)%N.

Inductive types_Request :=
| ReqEcho (msg : string)
| ReqFlush
| ReqInfo (req : Payload)
| ReqSetOption (req : Payload)
| ReqDeliverTx (tx : Tx)
| ReqCheckTx (tx : Tx)
| ReqQuery (req : Payload)
| ReqCommit
| ReqInitChain (req : Payload)
| ReqBeginBlock (req : Payload)
| ReqEndBlock (req : Payload).

Inductive types_Response :=
| RspEcho (msg : string)
| RspFlush
| RspInfo (res : Payload)
| RspSetOption (res : Payload)
| RspDeliverTx (res : ResponseTx)
| RspCheckTx (res : ResponseTx)
| RspQuery (res : Payload)
| RspCommit (res : Payload)
| RspInitChain (res : Payload)
| RspBeginBlock (res : Payload)
| RspEndBlock (res : Payload).

(** The two pipelines. *)
Inductive kind := Check | Deliver.

Global Instance kind_eq_dec : EqDecision kind.
Proof. solve_decision. Defined.

Definition ToRequestTx (k : kind) (tx : Tx) : types_Request :=
  match k with Check => ReqCheckTx tx | Deliver => ReqDeliverTx tx end.

Definition ToResponseTx (k : kind) (r : ResponseTx) : types_Response :=
  match k with Check => RspCheckTx r | Deliver => RspDeliverTx r end.

(** [Request.GetCheckTx().GetTx()] and [Request.GetDeliverTx().GetTx()]:
    the protobuf getters give the empty slice on another variant. *)
Definition GetTx (k : kind) (r : types_Request) : Tx :=
  match k, r with
  | Check, ReqCheckTx tx => tx
  | Deliver, ReqDeliverTx tx => tx
  | _, _ => []
  end.

(** ** The wrapped application *)

(** [types.Application]: every method is a blocking call that may read
    and write the application's own state [A]. *)
Record Application (A : Type) := {
  Info : Payload -> A -> A * Payload;
  SetOption : Payload -> A -> A * Payload;
  Query : Payload -> A -> A * Payload;
  CheckTx : Tx -> A -> A * ResponseTx;
  InitChain : Payload -> A -> A * Payload;
  BeginBlock : Payload -> A -> A * Payload;
  DeliverTx : Tx -> A -> A * ResponseTx;
  EndBlock : Payload -> A -> A * Payload;
  Commit : A -> A * Payload
}.

(** Modelled from the spec: the interface [ApplicationCC] is declared
    outside the given sources; section 3 of the specification lists its
    capability set as the ABCI methods plus pre-validate, pre-apply and
    re-validate. *)
Record ApplicationCC (A : Type) := {
  abci :> Application A;
  PreCheckTx : Tx -> A -> A * ResponseTx;
  PreDeliverTx : Tx -> A -> A * ResponseTx;
  ReCheckTx : Tx -> A -> A * ResponseTx
}.

(** A value of interface type [types.Application]: its dynamic type
    either implements [ApplicationCC] or only the plain interface. *)
Inductive AppValue (A : Type) :=
| PlainApp (app : Application A)
| CCApp (app : ApplicationCC A).

(** The type assertion [app.(ApplicationCC)]. *)
Definition assertApplicationCC {A} (v : AppValue A) : option (ApplicationCC A) :=
  match v with
  | CCApp app => Some app
  | PlainApp _ => None
  end.

(** ** Constants *)

Definition WorkerPoolSize : nat := 16.
Definition WorkerPoolSpawn : nat := 4.
Definition WorkerPoolQueue : nat := 16.

(** [make(chan WorkItem, WorkerPoolQueue*2)] for both queues. *)
Definition queue_cap (k : kind) : nat := (WorkerPoolQueue * 2)%nat.

(** Modelled from the spec: package [pool] is outside the given sources;
    the specification describes the pool as a bounded set of worker
    threads plus a bounded task queue, so [Schedule] accepts a task while
    fewer than size + queue tasks are outstanding and blocks otherwise.
    The sizes are the arguments of the two [pool.NewPool] calls. *)
Definition pool_cap (k : kind) : nat :=
  match k with
  | Check => (WorkerPoolSize / 2 + WorkerPoolQueue / 2)%nat
  | Deliver => (WorkerPoolSize + WorkerPoolQueue)%nat
  end.

(** ** Instructions *)

Inductive mutex := commitLock | checkTxLowLock | checkTxMidLock.

Global Instance mutex_eq_dec : EqDecision mutex.
Proof. solve_decision. Defined.

(** Direct application calls made by the pass-through methods. *)
Inductive call :=
| CInfo (req : Payload)
| CSetOption (req : Payload)
| CQuery (req : Payload)
| CCommit
| CInitChain (req : Payload)
| CBeginBlock (req : Payload)
| CEndBlock (req : Payload)
| CReCheckTx (tx : Tx)
| CDeliverTx (tx : Tx)
| CCheckTx (tx : Tx).

(** What a method hands back to its caller. *)
Inductive retkind :=
| RkHandle                       (* return reqres *)
| RkLocal (req : types_Request)  (* newLocalReqRes(req, res) *)
| RkSync                         (* return &res, nil *)
| RkNil.                         (* return nil *)

Inductive instr :=
| ILock (m : mutex)              (* m.Lock() *)
| IUnlock (m : mutex)            (* m.Unlock() *)
| IRLock                         (* app.rwLock.RLock() *)
| IRUnlock                       (* app.rwLock.RUnlock() *)
| IWLock                         (* app.rwLock.Lock() *)
| IWUnlock                       (* app.rwLock.Unlock() *)
| IWait                          (* app.wgCommit.Wait() *)
| IAdd                           (* app.wgCommit.Add(1) *)
| IWgDone                        (* app.wgCommit.Done() *)
| INewItem (k : kind) (tx : Tx)  (* reqres := NewReqRes(..); mtx := new(sync.Mutex); mtx.Lock() *)
| ISend (k : kind)               (* queue <- WorkItem{reqRes: reqres, mtx: mtx} *)
| ISchedule (k : kind) (tx : Tx) (* pool.Schedule(func() {...}) *)
| IRecv (k : kind)               (* for i := range queue *)
| IGateLock                      (* i.mtx.Lock() *)
| IGateUnlock                    (* i.mtx.Unlock() *)
| IReal (k : kind)               (* if i.reqRes.Response == nil { res := app.XTx(tx); i.reqRes.Response = .. } *)
| IReqResDone                    (* i.reqRes.Done() *)
| IReqCb                         (* if cb := i.reqRes.GetCallback(); cb != nil { cb(i.reqRes.Response) } *)
| IItemCallback                  (* app.Callback(i.reqRes.Request, i.reqRes.Response) *)
| IPre (k : kind) (tx : Tx)      (* res := app.PreXTx(tx); if !res.IsOK() { reqres.Response = .. } *)
| IDeferUnlock                   (* defer mtx.Unlock(), run when the closure exits *)
| ITaskEnd (k : kind)            (* the pool slot is free again *)
| ICall (c : call)               (* res := app.Application.X(req) *)
| IEval (r : types_Response)     (* a response built without the application *)
| ISetCallback (cb : option nat) (* app.Callback = cb *)
| ICallback (req : types_Request)(* app.Callback(req, res), inside app.callback *)
| IReturn (rk : retkind).

(** ** Method bodies *)

Inductive Op :=
| SetResponseCallback (cb : option nat)
| Error
| FlushAsync
| EchoAsync (msg : string)
| InfoAsync (req : Payload)
| SetOptionAsync (req : Payload)
| DeliverTxAsync (tx : Tx)
| CheckTxAsync (tx : Tx)
| ReCheckTxAsync (tx : Tx)
| QueryAsync (req : Payload)
| CommitAsync
| InitChainAsync (req : Payload)
| BeginBlockAsync (req : Payload)
| EndBlockAsync (req : Payload)
| FlushSync
| EchoSync (msg : string)
| InfoSync (req : Payload)
| SetOptionSync (req : Payload)
| DeliverTxSync (tx : Tx)
| CheckTxSync (tx : Tx)
| QuerySync (req : Payload)
| CommitSync
| InitChainSync (req : Payload)
| BeginBlockSync (req : Payload)
| EndBlockSync (req : Payload).

(** Deferred calls are listed where they run: after the return
    expression has been evaluated, last deferred first. *)
Definition body (op : Op) : list instr :=
  match op with
  | SetResponseCallback cb =>
      [IWLock; ISetCallback cb; IWUnlock; IReturn RkNil]
  | Error => [IReturn RkNil]
  | FlushAsync => [IReturn (RkLocal ReqFlush)]
  | EchoAsync msg =>
      [IEval (RspEcho msg); ICallback (ReqEcho msg); IReturn (RkLocal (ReqEcho msg))]
  | InfoAsync req =>
      [IRLock; ICall (CInfo req); IRUnlock;
       ICallback (ReqInfo req); IReturn (RkLocal (ReqInfo req))]
  | SetOptionAsync req =>
      [IWLock; ICall (CSetOption req); ICallback (ReqSetOption req);
       IWUnlock; IReturn (RkLocal (ReqSetOption req))]
  | DeliverTxAsync tx =>
      [INewItem Deliver tx; ISend Deliver; IAdd; ISchedule Deliver tx;
       IReturn RkHandle]
  | CheckTxAsync tx =>
      [INewItem Check tx;
       ILock checkTxLowLock; ILock checkTxMidLock; ILock commitLock;
       IUnlock checkTxMidLock;
       ISend Check; IAdd;
       IUnlock commitLock; IUnlock checkTxLowLock;
       ISchedule Check tx;
       IReturn RkHandle]
  | ReCheckTxAsync tx =>
      [IWLock; ICall (CReCheckTx tx); ICallback (ReqCheckTx tx);
       IWUnlock; IReturn (RkLocal (ReqCheckTx tx))]
  | QueryAsync req =>
      [IRLock; ICall (CQuery req); IRUnlock;
       ICallback (ReqQuery req); IReturn (RkLocal (ReqQuery req))]
  | CommitAsync =>
      [ILock checkTxMidLock; ILock commitLock; IUnlock checkTxMidLock;
       IWait; IWLock; ICall CCommit; ICallback ReqCommit;
       IWUnlock; IUnlock commitLock; IReturn (RkLocal ReqCommit)]
  | InitChainAsync req =>
      [IWLock; ICall (CInitChain req); ICallback (ReqInitChain req);
       IWUnlock; IReturn (RkLocal (ReqInitChain req))]
  | BeginBlockAsync req =>
      [IWLock; ICall (CBeginBlock req); ICallback (ReqBeginBlock req);
       IWUnlock; IReturn (RkLocal (ReqBeginBlock req))]
  | EndBlockAsync req =>
      [ILock checkTxMidLock; ILock commitLock; IUnlock checkTxMidLock;
       IWait; IWLock; ICall (CEndBlock req); ICallback (ReqEndBlock req);
       IWUnlock; IUnlock commitLock; IReturn (RkLocal (ReqEndBlock req))]
  | FlushSync => [IReturn RkNil]
  | EchoSync msg => [IEval (RspEcho msg); IReturn RkSync]
  | InfoSync req => [IRLock; ICall (CInfo req); IRUnlock; IReturn RkSync]
  | SetOptionSync req => [IWLock; ICall (CSetOption req); IWUnlock; IReturn RkSync]
  | DeliverTxSync tx => [IWLock; ICall (CDeliverTx tx); IWUnlock; IReturn RkSync]
  | CheckTxSync tx => [IWLock; ICall (CCheckTx tx); IWUnlock; IReturn RkSync]
  | QuerySync req => [IRLock; ICall (CQuery req); IRUnlock; IReturn RkSync]
  | CommitSync =>
      [ILock checkTxMidLock; ILock commitLock; IUnlock checkTxMidLock;
       IWLock; ICall CCommit;
       IWUnlock; IUnlock commitLock; IReturn RkSync]
  | InitChainSync req => [IWLock; ICall (CInitChain req); IWUnlock; IReturn RkSync]
  | BeginBlockSync req => [IWLock; ICall (CBeginBlock req); IWUnlock; IReturn RkSync]
  | EndBlockSync req =>
      [ILock checkTxMidLock; ILock commitLock; IUnlock checkTxMidLock;
       IWait; IWLock; ICall (CEndBlock req);
       IWUnlock; IUnlock commitLock; IReturn RkSync]
  end.

(** One iteration of [checkTxWorker] / [deliverTxWorker]. *)
Definition worker_body (k : kind) : list instr :=
  [IRecv k; IGateLock; IGateUnlock;
   IWLock; IReal k; IReqResDone; IWgDone; IReqCb; IItemCallback; IWUnlock].

(** The closure passed to [checkTxPool.Schedule] / [deliverTxPool.Schedule]. *)
Definition task_body (k : kind) (tx : Tx) : list instr :=
  [IPre k tx; IDeferUnlock; ITaskEnd k].

(** ** Goroutines, heap objects and the shared state *)

(** The goroutines: a caller of the client's methods, one of the two
    ordered workers, or the pool closure of work item [i]. *)
Inductive agent :=
| Caller (t : nat)
| Worker (k : kind)
| Task (i : nat).

Global Instance agent_eq_dec : EqDecision agent.
Proof. solve_decision. Defined.

(** [abcicli.ReqRes]: request, response slot (nil until set), the
    embedded WaitGroup (one pending at creation), the done flag and the
    per-request callback. *)
Record ReqRes := {
  Request : types_Request;
  Response : option types_Response;
  rr_wg : Z;
  rr_done : bool;
  rr_cb : option nat
}.

(** [abcicli.NewReqRes(req)]. *)
Definition NewReqRes (req : types_Request) : ReqRes :=
  {| Request := req; Response := None; rr_wg := 1; rr_done := false; rr_cb := None |}.

(** [newLocalReqRes(req, res)]. *)
Definition newLocalReqRes (req : types_Request) (res : option types_Response) : ReqRes :=
  {| Request := req; Response := res; rr_wg := 1; rr_done := true; rr_cb := None |}.

(** [WorkItem]: both pointers are allocated by one submission, the store
    keeps the two objects under the submission's index; [mtx] is [true]
    while the gate is locked. *)
Record WorkItem := { reqRes : ReqRes; mtx : bool }.

Definition set_Response (r : option types_Response) (w : WorkItem) : WorkItem :=
  {| reqRes := {| Request := Request (reqRes w); Response := r;
                  rr_wg := rr_wg (reqRes w); rr_done := rr_done (reqRes w);
                  rr_cb := rr_cb (reqRes w) |};
     mtx := mtx w |}.

Definition set_rr_wg (n : Z) (w : WorkItem) : WorkItem :=
  {| reqRes := {| Request := Request (reqRes w); Response := Response (reqRes w);
                  rr_wg := n; rr_done := rr_done (reqRes w);
                  rr_cb := rr_cb (reqRes w) |};
     mtx := mtx w |}.

Definition set_rr_cb (c : option nat) (w : WorkItem) : WorkItem :=
  {| reqRes := {| Request := Request (reqRes w); Response := Response (reqRes w);
                  rr_wg := rr_wg (reqRes w); rr_done := rr_done (reqRes w);
                  rr_cb := c |};
     mtx := mtx w |}.

Definition set_mtx (b : bool) (w : WorkItem) : WorkItem :=
  {| reqRes := reqRes w; mtx := b |}.

Inductive RetVal :=
| RetReqRes (i : option nat)                 (* the pipeline's *ReqRes *)
| RetLocalReqRes (r : ReqRes)                (* a finished, local *ReqRes *)
| RetResponse (r : option types_Response)    (* (&res, nil) *)
| RetNil.

(** What a goroutine keeps to itself: the statements left to run, the
    work item it handles, the last application result. *)
Record Local := {
  code : list instr;
  item : option nat;
  res : option types_Response
}.

Definition idle : Local := {| code := []; item := None; res := None |}.

(** Observable actions, one per executed step. *)
Inductive Action :=
| ACall (op : Op)
| ARet (rv : RetVal)
| ALock (m : mutex)
| AUnlock (m : mutex)
| ARLock | ARUnlock | AWLock | AWUnlock
| AWait | AAdd | AWgDone
| ANew (k : kind)
| ASend (k : kind)
| ASchedule (k : kind)
| ARecv (k : kind)
| AGateLock | AGateUnlock
| AReal (k : kind) (r : ResponseTx)          (* the real CheckTx / DeliverTx ran *)
| ASkip (k : kind)                           (* response already set: no call *)
| AReqResDone
| ACb (cb : nat) (r : option types_Response) (* per-request callback *)
| ANoCb
| AGcb (cb : nat) (req : types_Request) (r : option types_Response)
| APre (k : kind) (r : ResponseTx)           (* PreCheckTx / PreDeliverTx ran *)
| ADeferUnlock
| ATaskEnd
| AApp (c : call) (r : types_Response)
| AEval
| ASetCallback (cb : option nat)
| AAttach (cb : nat)
| ALoop.

Record Event := { actor : agent; work : option nat; act : Action }.

(** The result of trying one step. *)
Inductive outcome (S : Type) :=
| Next (s : S)
| Blocked
| Panic.
Arguments Blocked {S}.
Arguments Panic {S}.

(** What the scheduler and the environment can do: let a caller enter a
    method, let a goroutine run one statement, or let the holder of a
    pipeline [*ReqRes] attach its callback. *)
Inductive SchedEv :=
| Invoke (t : nat) (op : Op)
| Step (a : agent)
| Attach (t : nat) (i : nat) (cb : nat).

Section Client.

Context {A : Type} (app : ApplicationCC A).

(** Everything the goroutines share: the application, the global
    callback, the lock set, the in-flight counter, the two ordered
    queues, the load of the two pools and the store of work items. *)
Record Shared := {
  app_state : A;
  Callback : option nat;
  mutexes : mutex -> bool;
  rw_writer : bool;
  rw_readers : list agent;
  wgCommit : Z;
  queues : kind -> list nat;
  pool_load : kind -> nat;
  items : nat -> WorkItem;
  next : nat
}.

Record State := {
  sh : Shared;
  agents : agent -> Local;
  trace : list Event
}.

Definition checkTxQueue (s : State) := queues (sh s) Check.
Definition deliverTxQueue (s : State) := queues (sh s) Deliver.

Definition fresh_item : WorkItem := {| reqRes := NewReqRes ReqFlush; mtx := false |}.

(** The client right after construction and [OnStart]. *)
Definition init (a0 : A) : State :=
  {| sh := {| app_state := a0; Callback := None; mutexes := fun _ => false;
              rw_writer := false; rw_readers := []; wgCommit := 0;
              queues := fun _ => []; pool_load := fun _ => 0%nat;
              items := fun _ => fresh_item; next := 0%nat |};
     agents := fun _ => idle; trace := [] |}.

Definition set_app_state (x : A) (s : Shared) : Shared :=
  {| app_state := x; Callback := Callback s; mutexes := mutexes s;
     rw_writer := rw_writer s; rw_readers := rw_readers s; wgCommit := wgCommit s;
     queues := queues s; pool_load := pool_load s; items := items s; next := next s |}.

Definition set_Callback (x : option nat) (s : Shared) : Shared :=
  {| app_state := app_state s; Callback := x; mutexes := mutexes s;
     rw_writer := rw_writer s; rw_readers := rw_readers s; wgCommit := wgCommit s;
     queues := queues s; pool_load := pool_load s; items := items s; next := next s |}.

Definition set_mutex (m : mutex) (b : bool) (s : Shared) : Shared :=
  {| app_state := app_state s; Callback := Callback s; mutexes := <[m := b]> (mutexes s);
     rw_writer := rw_writer s; rw_readers := rw_readers s; wgCommit := wgCommit s;
     queues := queues s; pool_load := pool_load s; items := items s; next := next s |}.

Definition set_rw (w : bool) (r : list agent) (s : Shared) : Shared :=
  {| app_state := app_state s; Callback := Callback s; mutexes := mutexes s;
     rw_writer := w; rw_readers := r; wgCommit := wgCommit s;
     queues := queues s; pool_load := pool_load s; items := items s; next := next s |}.

Definition set_wgCommit (n : Z) (s : Shared) : Shared :=
  {| app_state := app_state s; Callback := Callback s; mutexes := mutexes s;
     rw_writer := rw_writer s; rw_readers := rw_readers s; wgCommit := n;
     queues := queues s; pool_load := pool_load s; items := items s; next := next s |}.

Definition set_queue (k : kind) (q : list nat) (s : Shared) : Shared :=
  {| app_state := app_state s; Callback := Callback s; mutexes := mutexes s;
     rw_writer := rw_writer s; rw_readers := rw_readers s; wgCommit := wgCommit s;
     queues := <[k := q]> (queues s); pool_load := pool_load s; items := items s;
     next := next s |}.

Definition set_pool_load (k : kind) (n : nat) (s : Shared) : Shared :=
  {| app_state := app_state s; Callback := Callback s; mutexes := mutexes s;
     rw_writer := rw_writer s; rw_readers := rw_readers s; wgCommit := wgCommit s;
     queues := queues s; pool_load := <[k := n]> (pool_load s); items := items s;
     next := next s |}.

Definition set_item (i : nat) (w : WorkItem) (s : Shared) : Shared :=
  {| app_state := app_state s; Callback := Callback s; mutexes := mutexes s;
     rw_writer := rw_writer s; rw_readers := rw_readers s; wgCommit := wgCommit s;
     queues := queues s; pool_load := pool_load s; items := <[i := w]> (items s);
     next := next s |}.

Definition set_next (n : nat) (s : Shared) : Shared :=
  {| app_state := app_state s; Callback := Callback s; mutexes := mutexes s;
     rw_writer := rw_writer s; rw_readers := rw_readers s; wgCommit := wgCommit s;
     queues := queues s; pool_load := pool_load s; items := items s; next := n |}.

(** ** Application calls *)

Definition wrap {R} (f : R -> types_Response) (p : A * R) : A * types_Response :=
  (fst p, f (snd p)).

Definition run_call (c : call) (x : A) : A * types_Response :=
  match c with
  | CInfo req => wrap RspInfo (Info app req x)
  | CSetOption req => wrap RspSetOption (SetOption app req x)
  | CQuery req => wrap RspQuery (Query app req x)
  | CCommit => wrap RspCommit (Commit app x)
  | CInitChain req => wrap RspInitChain (InitChain app req x)
  | CBeginBlock req => wrap RspBeginBlock (BeginBlock app req x)
  | CEndBlock req => wrap RspEndBlock (EndBlock app req x)
  | CReCheckTx tx => wrap RspCheckTx (ReCheckTx app tx x)
  | CDeliverTx tx => wrap RspDeliverTx (DeliverTx app tx x)
  | CCheckTx tx => wrap RspCheckTx (CheckTx app tx x)
  end.

(** The real call of a pipeline and its pre-validation. *)
Definition real_call (k : kind) (tx : Tx) (x : A) : A * ResponseTx :=
  match k with Check => CheckTx app tx x | Deliver => DeliverTx app tx x end.

Definition pre_call (k : kind) (tx : Tx) (x : A) : A * ResponseTx :=
  match k with Check => PreCheckTx app tx x | Deliver => PreDeliverTx app tx x end.

(** The read side of [rwLock] is kept as the list of goroutines holding
    a read lock, Go's reader count being its length.  [RUnlock] takes the
    caller's own entry out, or any entry when it has none. *)
Fixpoint drop_first (a : agent) (l : list agent) : list agent :=
  match l with
  | [] => []
  | b :: l' => if decide (a = b) then l' else b :: drop_first a l'
  end.

Definition drop_reader (a : agent) (l : list agent) : list agent :=
  if decide (a ∈ l) then drop_first a l else tail l.

Definition return_value (rk : retkind) (l : Local) : RetVal :=
  match rk with
  | RkHandle => RetReqRes (item l)
  | RkLocal req => RetLocalReqRes (newLocalReqRes req (res l))
  | RkSync => RetResponse (res l)
  | RkNil => RetNil
  end.

(** ** One statement *)

(** What running a statement does: the shared state after it, the
    goroutine's own item and result, a goroutine it may have started and
    the action it is observed as. *)
Record Effect := {
  e_shared : Shared;
  e_item : option nat;
  e_res : option types_Response;
  e_spawn : option (agent * Local);
  e_act : Action
}.

(** [exec_instr a l i s]: the goroutine [a], with locals [l], runs
    statement [i] on the shared state [s]. *)
Definition exec_instr (a : agent) (l : Local) (i : instr) (s : Shared) : outcome Effect :=
  let eff s' x :=
    {| e_shared := s'; e_item := item l; e_res := res l; e_spawn := None; e_act := x |} in
  let wi := default 0%nat (item l) in
  match i with
  | ILock m =>
      if mutexes s m then Blocked else Next (eff (set_mutex m true s) (ALock m))
  | IUnlock m =>
      if mutexes s m then Next (eff (set_mutex m false s) (AUnlock m)) else Panic
  | IRLock =>
      if rw_writer s then Blocked
      else Next (eff (set_rw false (a :: rw_readers s) s) ARLock)
  | IRUnlock =>
      match rw_readers s with
      | [] => Panic
      | _ :: _ => Next (eff (set_rw (rw_writer s) (drop_reader a (rw_readers s)) s) ARUnlock)
      end
  | IWLock =>
      if rw_writer s then Blocked
      else match rw_readers s with
           | [] => Next (eff (set_rw true [] s) AWLock)
           | _ :: _ => Blocked
           end
  | IWUnlock =>
      if rw_writer s then Next (eff (set_rw false (rw_readers s) s) AWUnlock) else Panic
  | IWait =>
      if decide (wgCommit s = 0) then Next (eff s AWait) else Blocked
  | IAdd => Next (eff (set_wgCommit (wgCommit s + 1) s) AAdd)
  | IWgDone =>
      if decide (wgCommit s <= 0) then Panic
      else Next (eff (set_wgCommit (wgCommit s - 1) s) AWgDone)
  | INewItem kd tx =>
      let n := next s in
      Next {| e_shared :=
                set_next (S n)
                  (set_item n {| reqRes := NewReqRes (ToRequestTx kd tx); mtx := true |} s);
              e_item := Some n; e_res := res l; e_spawn := None; e_act := ANew kd |}
  | ISend kd =>
      if decide (length (queues s kd) < queue_cap kd)%nat
      then Next (eff (set_queue kd (queues s kd ++ [wi]) s) (ASend kd))
      else Blocked
  | ISchedule kd tx =>
      if decide (pool_load s kd < pool_cap kd)%nat
      then Next {| e_shared := set_pool_load kd (S (pool_load s kd)) s;
                   e_item := item l; e_res := res l;
                   e_spawn := Some (Task wi, {| code := task_body kd tx; item := Some wi;
                                               res := None |});
                   e_act := ASchedule kd |}
      else Blocked
  | IRecv kd =>
      match queues s kd with
      | [] => Blocked
      | n :: q =>
          Next {| e_shared := set_queue kd q s; e_item := Some n; e_res := res l;
                  e_spawn := None; e_act := ARecv kd |}
      end
  | IGateLock =>
      if mtx (items s wi) then Blocked
      else Next (eff (set_item wi (set_mtx true (items s wi)) s) AGateLock)
  | IGateUnlock =>
      if mtx (items s wi)
      then Next (eff (set_item wi (set_mtx false (items s wi)) s) AGateUnlock)
      else Panic
  | IReal kd =>
      match Response (reqRes (items s wi)) with
      | None =>
          let tx := GetTx kd (Request (reqRes (items s wi))) in
          let p := real_call kd tx (app_state s) in
          Next (eff (set_item wi (set_Response (Some (ToResponseTx kd (snd p))) (items s wi))
                       (set_app_state (fst p) s))
                  (AReal kd (snd p)))
      | Some _ => Next (eff s (ASkip kd))
      end
  | IReqResDone =>
      if decide (rr_wg (reqRes (items s wi)) <= 0) then Panic
      else Next (eff (set_item wi (set_rr_wg (rr_wg (reqRes (items s wi)) - 1) (items s wi)) s)
                   AReqResDone)
  | IReqCb =>
      match rr_cb (reqRes (items s wi)) with
      | Some cb => Next (eff s (ACb cb (Response (reqRes (items s wi)))))
      | None => Next (eff s ANoCb)
      end
  | IItemCallback =>
      match Callback s with
      | Some g =>
          Next (eff s (AGcb g (Request (reqRes (items s wi))) (Response (reqRes (items s wi)))))
      | None => Panic
      end
  | IPre kd tx =>
      let p := pre_call kd tx (app_state s) in
      let s1 := set_app_state (fst p) s in
      Next (eff (if IsOK (snd p) then s1
                 else set_item wi
                        (set_Response (Some (ToResponseTx kd (snd p))) (items s wi)) s1)
              (APre kd (snd p)))
  | IDeferUnlock =>
      if mtx (items s wi)
      then Next (eff (set_item wi (set_mtx false (items s wi)) s) ADeferUnlock)
      else Panic
  | ITaskEnd kd => Next (eff (set_pool_load kd (pred (pool_load s kd)) s) ATaskEnd)
  | ICall c =>
      let p := run_call c (app_state s) in
      Next {| e_shared := set_app_state (fst p) s; e_item := item l; e_res := Some (snd p);
              e_spawn := None; e_act := AApp c (snd p) |}
  | IEval r =>
      Next {| e_shared := s; e_item := item l; e_res := Some r; e_spawn := None;
              e_act := AEval |}
  | ISetCallback cb => Next (eff (set_Callback cb s) (ASetCallback cb))
  | ICallback req =>
      match Callback s with
      | Some g => Next (eff s (AGcb g req (res l)))
      | None => Panic
      end
  | IReturn rk => Next (eff s (ARet (return_value rk l)))
  end.

(** ** Scheduling *)

(** The goroutine [a] has run a statement with effect [f] and goes on
    with [k]; the step is logged under the work item it now holds. *)
Definition apply_effect (a : agent) (k : list instr) (f : Effect) (s : State) : State :=
  {| sh := e_shared f;
     agents := <[a := {| code := k; item := e_item f; res := e_res f |}]>
                 (match e_spawn f with
                  | Some (b, lb) => <[b := lb]> (agents s)
                  | None => agents s
                  end);
     trace := trace s ++ [ {| actor := a; work := e_item f; act := e_act f |} ] |}.

Definition enter (a : agent) (k : list instr) (x : Action) (s : State) : State :=
  {| sh := sh s;
     agents := <[a := {| code := k; item := None; res := None |}]> (agents s);
     trace := trace s ++ [ {| actor := a; work := None; act := x |} ] |}.

Definition exec (e : SchedEv) (s : State) : outcome State :=
  match e with
  | Invoke t op =>
      match code (agents s (Caller t)) with
      | [] => Next (enter (Caller t) (body op) (ACall op) s)
      | _ :: _ => Blocked
      end
  | Step a =>
      match code (agents s a) with
      | i :: k =>
          match exec_instr a (agents s a) i (sh s) with
          | Next f => Next (apply_effect a k f s)
          | Blocked => Blocked
          | Panic => Panic
          end
      | [] =>
          match a with
          | Worker kd => Next (enter a (worker_body kd) ALoop s)
          | _ => Blocked
          end
      end
  | Attach t i cb =>
      if decide (i < next (sh s))%nat
      then Next {| sh := set_item i (set_rr_cb (Some cb) (items (sh s) i)) (sh s);
                   agents := agents s;
                   trace := trace s ++ [ {| actor := Caller t; work := Some i;
                                            act := AAttach cb |} ] |}
      else Blocked
  end.

Fixpoint run (sched : list SchedEv) (s : State) : outcome State :=
  match sched with
  | [] => Next s
  | e :: rest =>
      match exec e s with
      | Next s' => run rest s'
      | Blocked => Blocked
      | Panic => Panic
      end
  end.

(** The states the client can be in. *)
Inductive reachable (a0 : A) : State -> Prop :=
| reach_init : reachable a0 (init a0)
| reach_step s e s' : reachable a0 s -> exec e s = Next s' -> reachable a0 s'.

End Client.

(** ** Construction *)

Record asyncLocalClient (A : Type) := {
  Application_ : ApplicationCC A;
  client_state : @State A
}.

(** [NewAsyncLocalClient]: [None] is the nil pointer returned when the
    type assertion fails. *)
Definition NewAsyncLocalClient {A} (v : AppValue A) (a0 : A) : option (asyncLocalClient A) :=
  match assertApplicationCC v with
  | None => None
  | Some appcc => Some {| Application_ := appcc; client_state := init a0 |}
  end.

Record localAsyncClientCreator (A : Type) := {
  creator_app : AppValue A;
  creator_app_state : A
}.

(** A value of the interface type [abcicli.Client]: the nil interface, or
    an [*asyncLocalClient] pointer, itself possibly nil. *)
Inductive Client (A : Type) :=
| NilClient
| ClientPtr (p : option (asyncLocalClient A)).
Arguments NilClient {A}.

(** [NewABCIClient]: the pair (client, error); the error is an optional
    message. *)
Definition NewABCIClient {A} (l : localAsyncClientCreator A) : Client A * option string :=
  (ClientPtr (NewAsyncLocalClient (creator_app l) (creator_app_state l)), None).

(** ** Code positions *)

(** All the continuations of a statement list. *)
Fixpoint tails {X} (l : list X) : list (list X) :=
  l :: match l with [] => [] | _ :: l' => tails l' end.

(** What an agent may still have to run. *)
Definition valid_code (a : agent) (k : list instr) : Prop :=
  match a with
  | Caller _ => exists op, k ∈ tails (body op)
  | Worker kd => k ∈ tails (worker_body kd)
  | Task _ => exists kd tx, k ∈ tails (task_body kd tx)
  end.

(** A region of code: from a statement satisfying [acq] up to one
    satisfying [rel]. *)
Record region := { acq : instr -> bool; rel : instr -> bool }.

(** The continuation [k] lies inside the region: the next boundary it
    meets closes it. *)
Fixpoint inside (R : region) (k : list instr) : bool :=
  match k with
  | [] => false
  | i :: k' => if rel R i then true else if acq R i then false else inside R k'
  end.

(** Statically checked shape of a continuation w.r.t. a region: an
    opening statement is followed by the region, a closing one leaves
    it, and a statement of [need] only occurs inside. *)
Definition sound_at (R : region) (need : instr -> bool) (k : list instr) : bool :=
  match k with
  | [] => true
  | i :: k' =>
      (if acq R i then negb (rel R i) && inside R k' else true)
      && (if rel R i then negb (inside R k') else true)
      && (if need i then inside R k else true)
  end.

Definition is_write_call (c : call) : bool :=
  match c with
  | CInfo _ | CQuery _ => false
  | _ => true
  end.

Definition is_read_call (c : call) : bool :=
  match c with
  | CInfo _ | CQuery _ => true
  | _ => false
  end.

(** Statements that touch the application or the shared callback in
    write mode. *)
Definition write_instr (i : instr) : bool :=
  match i with
  | ICall c => is_write_call c
  | IReal _ | ISetCallback _ => true
  | _ => false
  end.

(** The part of a worker iteration that settles an item. *)
Definition settle_instr (i : instr) : bool :=
  match i with
  | IReal _ | IReqResDone | IWgDone | IReqCb | IItemCallback => true
  | _ => false
  end.

Definition read_instr (i : instr) : bool :=
  match i with
  | ICall c => is_read_call c
  | _ => false
  end.

Definition RW : region :=
  {| acq := fun i => match i with IWLock => true | _ => false end;
     rel := fun i => match i with IWUnlock => true | _ => false end |}.

Definition RR : region :=
  {| acq := fun i => match i with IRLock => true | _ => false end;
     rel := fun i => match i with IRUnlock => true | _ => false end |}.

Definition RM (m : mutex) : region :=
  {| acq := fun i => match i with ILock m' => bool_decide (m' = m) | _ => false end;
     rel := fun i => match i with IUnlock m' => bool_decide (m' = m) | _ => false end |}.

Definition no_need (i : instr) : bool := false.

(** The application call of a commit-class method. *)
Definition is_commit_call (i : instr) : bool :=
  match i with
  | ICall CCommit | ICall (CEndBlock _) => true
  | _ => false
  end.

(** Regions of a submission: from the creation of the work item to its
    enqueueing, to the counter increment, to the scheduling of its
    closure; from the increment to the scheduling; from passing the
    admission mutex to the enqueueing. *)
Definition is_new (i : instr) : bool := match i with INewItem _ _ => true | _ => false end.
Definition is_send_i (i : instr) : bool := match i with ISend _ => true | _ => false end.
Definition is_add_i (i : instr) : bool := match i with IAdd => true | _ => false end.
Definition is_sched_i (i : instr) : bool := match i with ISchedule _ _ => true | _ => false end.
Definition is_recv_i (i : instr) : bool := match i with IRecv _ => true | _ => false end.
Definition is_wgdone_i (i : instr) : bool := match i with IWgDone => true | _ => false end.
Definition is_open_i (i : instr) : bool := match i with IDeferUnlock => true | _ => false end.
Definition is_pre_i (i : instr) : bool := match i with IPre _ _ => true | _ => false end.
Definition is_real_i (i : instr) : bool := match i with IReal _ => true | _ => false end.
Definition is_rrdone_i (i : instr) : bool := match i with IReqResDone => true | _ => false end.
Definition is_reqcb_i (i : instr) : bool := match i with IReqCb => true | _ => false end.
Definition is_itemcb_i (i : instr) : bool := match i with IItemCallback => true | _ => false end.
Definition is_send_to_i (kd : kind) (i : instr) : bool :=
  match i with ISend kd' => bool_decide (kd' = kd) | _ => false end.
Definition is_admit_i (i : instr) : bool :=
  match i with ILock checkTxLowLock => true | _ => false end.
Definition never (i : instr) : bool := false.

Definition RSub : region := {| acq := is_new; rel := is_sched_i |}.
Definition RSend : region := {| acq := is_new; rel := is_send_i |}.
Definition RAdd : region := {| acq := is_new; rel := is_add_i |}.
Definition RAdded : region := {| acq := is_add_i; rel := is_sched_i |}.
Definition RAdm : region :=
  {| acq := fun i => match i with ILock checkTxLowLock => true | _ => false end;
     rel := fun i => match i with ISend Check => true | _ => false end |}.

(** Statements that only occur inside a submission, resp. past the gate
    of a worker iteration. *)
Definition need_sub (i : instr) : bool := is_send_i i || is_add_i i || is_sched_i i.

Definition need_pass (i : instr) : bool :=
  match i with IGateUnlock => true | _ => settle_instr i end.

(** What the code looks like while a submission is being admitted: the
    admission mutex is held, the work item exists and is not replaced. *)
Definition adm_shape (k : list instr) : bool :=
  if inside RAdm k
  then inside (RM checkTxLowLock) k && inside RSub k &&
       match k with
       | i :: _ => negb (is_new i || is_recv_i i || is_sched_i i)
       | [] => true
       end
  else true.

(** Regions of a worker iteration, all opened by the receive: up to the
    gate, the real call, the done-marking, the counter decrement, the
    per-request callback, the global callback; and from the gate to the
    global callback. *)
Definition WGate : region :=
  {| acq := is_recv_i; rel := fun i => match i with IGateLock => true | _ => false end |}.
Definition WReal : region :=
  {| acq := is_recv_i; rel := fun i => match i with IReal _ => true | _ => false end |}.
Definition WRRD : region :=
  {| acq := is_recv_i; rel := fun i => match i with IReqResDone => true | _ => false end |}.
Definition WDone : region :=
  {| acq := is_recv_i; rel := fun i => match i with IWgDone => true | _ => false end |}.
Definition WCb : region :=
  {| acq := is_recv_i; rel := fun i => match i with IReqCb => true | _ => false end |}.
Definition WGcb : region := {| acq := is_recv_i; rel := is_itemcb_i |}.
Definition WPass : region :=
  {| acq := fun i => match i with IGateLock => true | _ => false end;
     rel := is_itemcb_i |}.

(** Regions of a pool closure, open from its start: up to the
    pre-validation, up to the release of the gate. *)
Definition TPre : region :=
  {| acq := never; rel := fun i => match i with IPre _ _ => true | _ => false end |}.
Definition TOpen : region :=
  {| acq := never; rel := fun i => match i with IDeferUnlock => true | _ => false end |}.

(** Statements of the three kinds of goroutine. *)
Definition worker_instr (kd : kind) (i : instr) : bool :=
  match i with
  | IRecv kd' => bool_decide (kd' = kd)
  | IReal kd' => bool_decide (kd' = kd)
  | IGateLock | IGateUnlock | IWLock | IReqResDone | IWgDone | IReqCb
  | IItemCallback | IWUnlock => true
  | _ => false
  end.

Definition task_instr (i : instr) : bool :=
  match i with
  | IPre _ _ | IDeferUnlock | ITaskEnd _ => true
  | _ => false
  end.

Definition caller_instr (i : instr) : bool :=
  match i with
  | IRecv _ | IReal _ | IGateLock | IGateUnlock | IReqResDone | IWgDone | IReqCb
  | IItemCallback | IPre _ _ | IDeferUnlock | ITaskEnd _ => false
  | _ => true
  end.

Definition agent_instr (a : agent) (i : instr) : bool :=
  match a with
  | Caller _ => caller_instr i
  | Worker kd => worker_instr kd i
  | Task _ => task_instr i
  end.

(** ** Projections of the trace *)

(** The work items of the events satisfying [P], in order. *)
Definition ids (P : Event -> bool) (tr : list Event) : list nat :=
  omap (fun e => if P e then work e else None) tr.

Definition is_add (e : Event) : bool := match act e with AAdd => true | _ => false end.
Definition is_done (e : Event) : bool := match act e with AWgDone => true | _ => false end.
Definition is_send (e : Event) : bool := match act e with ASend _ => true | _ => false end.
Definition is_send_to (kd : kind) (e : Event) : bool :=
  match act e with ASend kd' => bool_decide (kd' = kd) | _ => false end.
Definition is_sched (e : Event) : bool := match act e with ASchedule _ => true | _ => false end.
Definition is_open (e : Event) : bool := match act e with ADeferUnlock => true | _ => false end.
Definition is_pre (e : Event) : bool := match act e with APre _ _ => true | _ => false end.
Definition is_real_of (kd : kind) (e : Event) : bool :=
  match act e with AReal _ _ => bool_decide (actor e = Worker kd) | _ => false end.
Definition is_attempt (e : Event) : bool :=
  match act e with AReal _ _ | ASkip _ => true | _ => false end.
Definition is_rrdone (e : Event) : bool := match act e with AReqResDone => true | _ => false end.
Definition is_cb_of (kd : kind) (e : Event) : bool :=
  match act e with ACb _ _ => bool_decide (actor e = Worker kd) | _ => false end.
Definition is_gcb (e : Event) : bool :=
  match act e, actor e with AGcb _ _ _, Worker _ => true | _, _ => false end.
Definition is_gcb_of (kd : kind) (e : Event) : bool :=
  match act e with AGcb _ _ _ => bool_decide (actor e = Worker kd) | _ => false end.
Definition is_cbstep (e : Event) : bool :=
  match act e with ACb _ _ | ANoCb => true | _ => false end.
Definition is_admit (e : Event) : bool :=
  match act e with ALock checkTxLowLock => true | _ => false end.

(** ** Predicates on states *)

Section Predicates.

Context {A : Type}.

Abbreviation State := (@State A).
Abbreviation Shared := (@Shared A).

Definition code_of (s : State) (a : agent) : list instr := code (agents s a).
Definition item_of (s : State) (a : agent) : option nat := item (agents s a).

(** The next statement of [a] satisfies [P]. *)
Definition at_instr (P : instr -> bool) (s : State) (a : agent) : bool :=
  match code_of s a with
  | i :: _ => P i
  | [] => false
  end.

Definition starts_outside (R : region) : Prop :=
  (forall op, inside R (body op) = false) /\
  (forall kd, inside R (worker_body kd) = false) /\
  (forall kd tx, inside R (task_body kd tx) = false).

(** A lock whose state is [held] protects the region [R]: a goroutine is
    inside [R] only while the lock is held, and at most one is. *)
Definition mutex_inv (R : region) (held : Shared -> bool) (s : State) : Prop :=
  (forall a, inside R (code_of s a) = true -> held (sh s) = true) /\
  (forall a b, inside R (code_of s a) = true -> inside R (code_of s b) = true -> a = b).

(** The readers are exactly the goroutines inside a read section, each
    once, and there is none while the lock is write-held. *)
Definition readers_inv (s : State) : Prop :=
  (forall a, inside RR (code_of s a) = true <-> a ∈ rw_readers (sh s)) /\
  NoDup (rw_readers (sh s)) /\
  (rw_writer (sh s) = true -> rw_readers (sh s) = []).

(** Every index in use is below the allocation counter. *)
Definition bound_inv (s : State) : Prop :=
  (forall a i, item_of s a = Some i -> (i < next (sh s))%nat) /\
  (forall kd i, i ∈ queues (sh s) kd -> (i < next (sh s))%nat) /\
  (forall e i, e ∈ trace s -> work e = Some i -> (i < next (sh s))%nat).

(** Two goroutines between the creation of a work item and the
    scheduling of its closure hold different items. *)
Definition unique_inv (s : State) : Prop :=
  forall a b, a <> b ->
    inside RSub (code_of s a) = true -> inside RSub (code_of s b) = true ->
    item_of s a <> item_of s b.

(** While a goroutine is inside [R] the item it holds has no event
    satisfying [P] yet. *)
Definition fresh_inv (R : region) (P : Event -> bool) (s : State) : Prop :=
  forall a j, inside R (code_of s a) = true -> item_of s a = Some j ->
    j ∉ ids P (trace s).

(** A running pool closure works on the item it was scheduled for. *)
Definition task_inv (s : State) : Prop :=
  forall j, code_of s (Task j) <> [] ->
    item_of s (Task j) = Some j /\ j ∈ ids is_sched (trace s).

(** How an item gets to the counter decrement: its gate is opened only
    by its closure, its closure is scheduled only after the increment,
    and the worker passes the gate only once it is open. *)
Definition chain_inv (s : State) : Prop :=
  (forall a j, inside RAdded (code_of s a) = true -> item_of s a = Some j ->
     j ∈ ids is_add (trace s)) /\
  (forall j, j ∈ ids is_sched (trace s) -> j ∈ ids is_add (trace s)) /\
  (forall j, j ∈ ids is_open (trace s) -> j ∈ ids is_sched (trace s)) /\
  (forall j, (j < next (sh s))%nat -> mtx (items (sh s) j) = false ->
     j ∈ ids is_open (trace s)) /\
  (forall a j, inside WPass (code_of s a) = true -> item_of s a = Some j ->
     j ∈ ids is_open (trace s)) /\
  (forall j, j ∈ ids is_done (trace s) -> j ∈ ids is_add (trace s)) /\
  (forall j, j ∈ ids is_done (trace s) -> j ∈ ids is_open (trace s)).

(** The item a worker has received and not yet counted down. *)
Definition cur_of (s : State) (kd : kind) : list nat :=
  if inside WDone (code_of s (Worker kd)) then option_list (item_of s (Worker kd)) else [].

(** The items enqueued and not yet counted down. *)
Definition pending_of (s : State) (kd : kind) : list nat :=
  cur_of s kd ++ queues (sh s) kd.

Definition pending (s : State) : list nat := pending_of s Check ++ pending_of s Deliver.

(** The in-flight counter is the number of increments minus the number of
    decrements, each item is incremented and decremented at most once,
    and an enqueued item is in one place only. *)
Definition counter_inv (s : State) : Prop :=
  NoDup (pending s) /\
  (forall j, j ∈ pending s -> j ∈ ids is_send (trace s) /\ j ∉ ids is_done (trace s)) /\
  NoDup (ids is_add (trace s)) /\
  NoDup (ids is_done (trace s)) /\
  wgCommit (sh s) =
    Z.of_nat (length (ids is_add (trace s))) - Z.of_nat (length (ids is_done (trace s))).

(** Every event satisfying [Q] comes after an event satisfying [P] for
    the same item. *)
Definition precedes (P Q : Event -> bool) (tr : list Event) : Prop :=
  forall tr1 e tr2 j, tr = tr1 ++ e :: tr2 -> Q e = true -> work e = Some j ->
    j ∈ ids P tr1.

(** Every increment and every decrement of the counter is made for an
    item, the decrements by a worker. *)
Definition counted_inv (s : State) : Prop :=
  forall e, e ∈ trace s ->
    (is_add e = true -> is_Some (work e)) /\
    (is_done e = true -> is_Some (work e) /\ exists kd, actor e = Worker kd).

(** A worker past statement X of its iteration has logged X for its
    item, and so has every item whose global callback has run. *)
Definition progress_inv (WX : region) (PX : Event -> bool) (s : State) : Prop :=
  (forall a j, inside WGcb (code_of s a) = true -> inside WX (code_of s a) = false ->
     item_of s a = Some j -> j ∈ ids PX (trace s)) /\
  (forall j, j ∈ ids is_gcb (trace s) -> j ∈ ids PX (trace s)).

(** An item counted down has had its global callback, unless its worker
    is still between the decrement and the callback. *)
Definition settling_inv (s : State) : Prop :=
  forall j, j ∈ ids is_done (trace s) ->
    j ∈ ids is_gcb (trace s) \/
    exists kd, inside WGcb (code_of s (Worker kd)) = true /\
               inside WDone (code_of s (Worker kd)) = false /\
               item_of s (Worker kd) = Some j.

(** An item the worker has been through has a response. *)
Definition response_inv (s : State) : Prop :=
  forall j, j ∈ ids is_attempt (trace s) -> Response (reqRes (items (sh s) j)) <> None.

(** The item a worker is delivering: received, global callback not yet
    run. *)
Definition curG (s : State) (kd : kind) : list nat :=
  if inside WGcb (code_of s (Worker kd)) then option_list (item_of s (Worker kd)) else [].

(** Order of a pipeline: what was enqueued is what has been delivered,
    then the item being delivered, then the queue; the real calls and
    the per-request callbacks are subsequences of the deliveries. *)
Definition order_inv (kd : kind) (s : State) : Prop :=
  ids (is_send_to kd) (trace s) =
    ids (is_gcb_of kd) (trace s) ++ curG s kd ++ queues (sh s) kd /\
  ids (is_real_of kd) (trace s) `sublist_of`
    ids (is_gcb_of kd) (trace s) ++
    (if inside WReal (code_of s (Worker kd)) then [] else curG s kd) /\
  ids (is_cb_of kd) (trace s) `sublist_of`
    ids (is_gcb_of kd) (trace s) ++
    (if inside WCb (code_of s (Worker kd)) then [] else curG s kd).

(** Admission: the submissions that passed the admission mutex are the
    ones enqueued, plus the one that holds the mutex and has not
    enqueued yet. *)
Definition admission_inv (s : State) : Prop :=
  (forall a j, inside RAdm (code_of s a) = true -> item_of s a = Some j ->
     ids is_admit (trace s) = ids (is_send_to Check) (trace s) ++ [j]) /\
  ((forall a, inside RAdm (code_of s a) = false) ->
     ids is_admit (trace s) = ids (is_send_to Check) (trace s)).




(** A closure that has not pre-validated, resp. not opened the gate,
    has logged neither for its item; a pre-validation is run by a
    scheduled closure. *)
Definition task_fresh_inv (s : State) : Prop :=
  (forall j, inside TPre (code_of s (Task j)) = true -> j ∉ ids is_pre (trace s)) /\
  (forall j, inside TOpen (code_of s (Task j)) = true -> j ∉ ids is_open (trace s)) /\
  (forall j, j ∈ ids is_pre (trace s) -> j ∈ ids is_sched (trace s)).


(** The events of caller [t] since it last entered a method, the entry
    first; an attached callback is the environment's doing, not part of
    the call. *)
Definition call_upd (t : nat) (acc : list Event) (e : Event) : list Event :=
  if decide (actor e = Caller t) then
    match act e with
    | ACall _ => [e]
    | AAttach _ => acc
    | _ => acc ++ [e]
    end
  else acc.

Definition cur_call (t : nat) (tr : list Event) : list Event :=
  fold_left (call_upd t) tr [].

(** The action a statement is observed as, [w] being the item at hand. *)
Definition instr_act (w : option nat) (i : instr) (x : Action) : Prop :=
  match i with
  | ILock m => x = ALock m
  | IUnlock m => x = AUnlock m
  | IRLock => x = ARLock
  | IRUnlock => x = ARUnlock
  | IWLock => x = AWLock
  | IWUnlock => x = AWUnlock
  | IWait => x = AWait
  | IAdd => x = AAdd
  | IWgDone => x = AWgDone
  | INewItem kd _ => x = ANew kd
  | ISend kd => x = ASend kd
  | ISchedule kd _ => x = ASchedule kd
  | IRecv kd => x = ARecv kd
  | IGateLock => x = AGateLock
  | IGateUnlock => x = AGateUnlock
  | IReal kd => (exists r, x = AReal kd r) \/ x = ASkip kd
  | IReqResDone => x = AReqResDone
  | IReqCb => (exists cb r, x = ACb cb r) \/ x = ANoCb
  | IItemCallback => exists g req r, x = AGcb g req r
  | IPre kd _ => exists r, x = APre kd r
  | IDeferUnlock => x = ADeferUnlock
  | ITaskEnd _ => x = ATaskEnd
  | ICall c => exists r, x = AApp c r
  | IEval _ => x = AEval
  | ISetCallback cb => x = ASetCallback cb
  | ICallback req => exists g r, x = AGcb g req r
  | IReturn RkHandle => x = ARet (RetReqRes w)
  | IReturn _ => exists rv, x = ARet rv
  end.

(** The event [e] is what statement [i] gives with the item [w] at
    hand: the action is that of the statement, and the event is logged
    under [w], or under the new item if the statement makes one. *)
Definition step_ok (w : option nat) (i : instr) (e : Event) : Prop :=
  instr_act w i (act e) /\
  (is_new i = false -> is_recv_i i = false -> work e = w) /\
  (is_new i = true -> is_Some (work e)).

(** The events [evs] are what the statements [done] give, one each, in
    order, starting with the item [w] at hand. *)
Fixpoint follows (w : option nat) (done : list instr) (evs : list Event) : Prop :=
  match done, evs with
  | [], [] => True
  | i :: done', e :: evs' => step_ok w i e /\ follows (work e) done' evs'
  | _, _ => False
  end.

Fixpoint last_work (w : option nat) (evs : list Event) : option nat :=
  match evs with
  | [] => w
  | e :: evs' => last_work (work e) evs'
  end.

(** A caller inside a method has run a prefix of the method's body, and
    the events of the call are those of that prefix. *)
Definition call_inv (s : State) : Prop :=
  forall t,
    match cur_call t (trace s) with
    | [] => code_of s (Caller t) = []
    | e0 :: evs =>
        exists op done,
          act e0 = ACall op /\ body op = done ++ code_of s (Caller t) /\
          follows None done evs /\ last_work None evs = item_of s (Caller t)
    end.

End Predicates.

(** A small application used to run the model on concrete schedules: the
    state counts the real calls, pre-validation rejects a transaction by
    its length. *)
Definition toy_ok : ResponseTx := {| Code := 0%N; Data := [] |}.

Definition toy_pre (tx : Tx) : ResponseTx := {| Code := N.of_nat (length tx); Data := tx |}.

Definition toy_app : ApplicationCC nat :=
  {| abci := {| Info := fun _ n => (n, []); SetOption := fun _ n => (n, []);
                Query := fun _ n => (n, []); CheckTx := fun _ n => (S n, toy_ok);
                InitChain := fun _ n => (n, []); BeginBlock := fun _ n => (n, []);
                DeliverTx := fun _ n => (S n, toy_ok); EndBlock := fun _ n => (n, []);
                Commit := fun n => (n, []) |};
     PreCheckTx := fun tx n => (n, toy_pre tx);
     PreDeliverTx := fun tx n => (n, toy_pre tx);
     ReCheckTx := fun _ n => (n, toy_ok) |}.

Definition steps (a : agent) (n : nat) : list SchedEv := repeat (Step a) n.

(** The state a schedule leads to from the initial state, the initial
    state itself if the schedule cannot be run to its end. *)
Definition final {A} (app : ApplicationCC A) (a0 : A) (sched : list SchedEv) : @State A :=
  match run app sched (init a0) with
  | Next s => s
  | _ => init a0
  end.

(** As many [DeliverTxAsync] submissions as the queue holds, the worker
    not started, then one more submission up to its enqueueing. *)
Definition full_queue_schedule : list SchedEv :=
  flat_map (fun _ => Invoke 0 (DeliverTxAsync []) :: steps (Caller 0) 5)
    (seq 0 (queue_cap Deliver))
  ++ Invoke 0 (DeliverTxAsync []) :: steps (Caller 0) 1.

(** Three [CheckTxAsync] submissions by one caller, the second of which
    fails pre-validation; the worker takes the first item, then the three
    closures run last submitted first, then the worker goes through the
    three items. *)
Definition fifo_schedule : list SchedEv :=
  Invoke 0 (SetResponseCallback (Some 7%nat)) :: steps (Caller 0) 4
  ++ Invoke 0 (CheckTxAsync []) :: steps (Caller 0) 11
  ++ Invoke 0 (CheckTxAsync [Byte.x01]) :: steps (Caller 0) 11
  ++ Invoke 0 (CheckTxAsync []) :: steps (Caller 0) 11
  ++ Attach 0 1 9 :: steps (Worker Check) 2
  ++ steps (Task 2) 3 ++ steps (Task 1) 3 ++ steps (Task 0) 3
  ++ steps (Worker Check) 31.

Unset Implicit Arguments.

(** ** Further code positions, predicates and schedules *)

Definition WHold : region :=
  {| acq := fun i => match i with IGateLock => true | _ => false end;
     rel := fun i => match i with IGateUnlock => true | _ => false end |}.

Definition is_callback_i (i : instr) : bool :=
  match i with IItemCallback | ICallback _ => true | _ => false end.


(** The methods that wait for the in-flight counter. *)
Definition is_wait_i (i : instr) : bool := match i with IWait => true | _ => false end.
Definition waits (op : Op) : bool := existsb is_wait_i (body op).

(** What is left of such a method between its [Wait] and its
    application call, and of [CheckTxAsync] between its enqueueing and
    its counter increment. *)
Definition barrier_code (k : list instr) : bool :=
  match k with
  | IWLock :: ICall CCommit :: ICallback _ :: _ => true
  | ICall CCommit :: ICallback _ :: _ => true
  | IWLock :: ICall (CEndBlock _) :: _ => true
  | ICall (CEndBlock _) :: _ => true
  | _ => false
  end.

Definition check_sent_code (k : list instr) : bool :=
  match k with IAdd :: IUnlock commitLock :: _ => true | _ => false end.


(** The application result a caller has at hand after statement [i]
    was observed as [e], and what the statements that use it are
    observed as. *)
Definition next_res (r : option types_Response) (i : instr) (e : Event)
    : option types_Response :=
  match i, act e with
  | ICall _, AApp _ r' => Some r'
  | IEval r', _ => Some r'
  | _, _ => r
  end.

Definition step_res (r : option types_Response) (i : instr) (e : Event) : Prop :=
  match i with
  | ICallback req => exists g, act e = AGcb g req r
  | IReturn (RkLocal req) => act e = ARet (RetLocalReqRes (newLocalReqRes req r))
  | IReturn RkSync => act e = ARet (RetResponse r)
  | IReturn RkNil => act e = ARet RetNil
  | _ => True
  end.

Fixpoint follows_res (r : option types_Response) (ran : list instr) (evs : list Event)
    : Prop :=
  match ran, evs with
  | [], [] => True
  | i :: ran', e :: evs' => step_res r i e /\ follows_res (next_res r i e) ran' evs'
  | _, _ => False
  end.

Fixpoint last_res (r : option types_Response) (ran : list instr) (evs : list Event)
    : option types_Response :=
  match ran, evs with
  | i :: ran', e :: evs' => last_res (next_res r i e) ran' evs'
  | _, _ => r
  end.

(** The application method and the request kind of the asynchronous and
    of the synchronous pass-through methods. *)
Definition async_call (op : Op) : option (call * types_Request) :=
  match op with
  | InfoAsync req => Some (CInfo req, ReqInfo req)
  | SetOptionAsync req => Some (CSetOption req, ReqSetOption req)
  | ReCheckTxAsync tx => Some (CReCheckTx tx, ReqCheckTx tx)
  | QueryAsync req => Some (CQuery req, ReqQuery req)
  | CommitAsync => Some (CCommit, ReqCommit)
  | InitChainAsync req => Some (CInitChain req, ReqInitChain req)
  | BeginBlockAsync req => Some (CBeginBlock req, ReqBeginBlock req)
  | EndBlockAsync req => Some (CEndBlock req, ReqEndBlock req)
  | _ => None
  end.

Definition sync_call (op : Op) : option call :=
  match op with
  | InfoSync req => Some (CInfo req)
  | SetOptionSync req => Some (CSetOption req)
  | DeliverTxSync tx => Some (CDeliverTx tx)
  | CheckTxSync tx => Some (CCheckTx tx)
  | QuerySync req => Some (CQuery req)
  | CommitSync => Some CCommit
  | InitChainSync req => Some (CInitChain req)
  | BeginBlockSync req => Some (CBeginBlock req)
  | EndBlockSync req => Some (CEndBlock req)
  | _ => None
  end.

Definition is_lock_act (x : Action) : bool :=
  match x with
  | ALock _ | AUnlock _ | ARLock | ARUnlock | AWLock | AWUnlock | AWait => true
  | _ => false
  end.

(** The actions of a call other than those on locks and on the counter. *)
Definition visible (evs : list Event) : list Action :=
  List.filter (fun x => negb (is_lock_act x)) (map act evs).

(** The number of statements up to and including the release of the
    write lock, and whether the global callback is called before it. *)
Fixpoint to_release (k : list instr) : nat :=
  match k with
  | [] => 0
  | IWUnlock :: _ => 1
  | _ :: k' => S (to_release k')
  end.

Fixpoint cb_ahead (k : list instr) : bool :=
  match k with
  | [] => false
  | IWUnlock :: _ => false
  | i :: k' => is_callback_i i || cb_ahead k'
  end.

(** Statements that can wait. *)
Definition may_block (i : instr) : bool :=
  match i with
  | ILock _ | IRLock | IWLock | IWait | ISend _ | ISchedule _ _ | IRecv _ | IGateLock => true
  | _ => false
  end.

(** The locks, in the order in which they are taken. *)
Inductive lock := Mx (m : mutex) | Rw.

Definition rank (L : lock) : nat :=
  match L with
  | Mx checkTxLowLock => 0
  | Mx checkTxMidLock => 1
  | Mx commitLock => 2
  | Rw => 3
  end.

Definition acquires (i : instr) : option lock :=
  match i with
  | ILock m => Some (Mx m)
  | IRLock | IWLock => Some Rw
  | _ => None
  end.

Definition holds (L : lock) (k : list instr) : bool :=
  match L with
  | Mx m => inside (RM m) k
  | Rw => inside RW k || inside RR k
  end.

Section MorePredicates.
Context {A : Type}.
Abbreviation State := (@State A).

Definition gate_inv (s : State) : Prop :=
  forall a j, inside WHold (code_of s a) = true -> item_of s a = Some j ->
    mtx (items (sh s) j) = true.

Definition marking_inv (s : State) : Prop :=
  forall j, j ∈ ids is_rrdone (trace s) ->
    j ∈ ids is_done (trace s) \/
    exists kd, inside WDone (code_of s (Worker kd)) = true /\
               inside WRRD (code_of s (Worker kd)) = false /\
               item_of s (Worker kd) = Some j.

Definition wg_inv (s : State) : Prop :=
  forall j, (j < next (sh s))%nat ->
    rr_wg (reqRes (items (sh s) j)) =
      if decide (j ∈ ids is_rrdone (trace s)) then 0 else 1.

(** A validate-class item enqueued is counted, but for the one whose
    submitter is between the enqueueing and the increment. *)
Definition sent_added_inv (s : State) : Prop :=
  forall j, j ∈ ids (is_send_to Check) (trace s) ->
    j ∈ ids is_add (trace s) \/
    exists a, check_sent_code (code_of s a) = true /\ item_of s a = Some j.

(** Past the [Wait] of a commit-class method every validate-class item
    enqueued has been counted down. *)
Definition barrier_inv (s : State) : Prop :=
  forall a, barrier_code (code_of s a) = true ->
    forall j, j ∈ ids (is_send_to Check) (trace s) -> j ∈ ids is_done (trace s).

(** As [call_inv], with the application result the caller has at hand. *)
Definition call_res_inv (s : State) : Prop :=
  forall t,
    match cur_call t (trace s) with
    | [] => True
    | e0 :: evs =>
        exists op ran,
          act e0 = ACall op /\ body op = ran ++ code_of s (Caller t) /\
          follows_res None ran evs /\
          last_res None ran evs = res (agents s (Caller t))
    end.

(** A closure past its pre-validation has logged it, and the gate of an
    item opens after its pre-validation. *)
Definition pre_done_inv (s : State) : Prop :=
  (forall j, code_of s (Task j) <> [] -> inside TPre (code_of s (Task j)) = false ->
     j ∈ ids is_pre (trace s)) /\
  (forall j, j ∈ ids is_open (trace s) -> j ∈ ids is_pre (trace s)).
End MorePredicates.

(** One [CheckTxAsync] handled to the end, then a [CommitAsync] up to
    its application call. *)
Definition commit_schedule : list SchedEv :=
  Invoke 0 (SetResponseCallback (Some 7%nat)) :: steps (Caller 0) 4
  ++ Invoke 0 (CheckTxAsync []) :: steps (Caller 0) 11 ++ steps (Task 0) 3
  ++ steps (Worker Check) 11
  ++ Invoke 1 CommitAsync :: steps (Caller 1) 5.

(** What the methods that neither lock nor call the application are
    observed as, [g] being the global callback. *)
Definition local_acts (op : Op) (g : nat) : option (list Action) :=
  match op with
  | Error | FlushSync => Some [ARet RetNil]
  | FlushAsync => Some [ARet (RetLocalReqRes (newLocalReqRes ReqFlush None))]
  | EchoAsync msg =>
      Some [AEval; AGcb g (ReqEcho msg) (Some (RspEcho msg));
            ARet (RetLocalReqRes (newLocalReqRes (ReqEcho msg) (Some (RspEcho msg))))]
  | EchoSync msg => Some [AEval; ARet (RetResponse (Some (RspEcho msg)))]
  | _ => None
  end.

(** A callback is installed, then one caller goes through [op]. *)
Definition call_schedule (op : Op) (n : nat) : list SchedEv :=
  Invoke 0 (SetResponseCallback (Some 7%nat)) :: steps (Caller 0) 4
  ++ Invoke 0 op :: steps (Caller 0) n.

(** A [CheckTxAsync] up to the acquisition of the commit mutex. *)
Definition admission_schedule : list SchedEv :=
  Invoke 0 (CheckTxAsync []) :: steps (Caller 0) 3.

(** The pipeline and the transaction of a submission method. *)
Definition sub_of (op : Op) : option (kind * Tx) :=
  match op with
  | DeliverTxAsync tx => Some (Deliver, tx)
  | CheckTxAsync tx => Some (Check, tx)
  | _ => None
  end.

(** The pipeline and the transaction captured by the closure that the
    code is going to schedule. *)
Fixpoint sub_code (k : list instr) : option (kind * Tx) :=
  match k with
  | [] => None
  | ISchedule kd tx :: _ => Some (kd, tx)
  | _ :: k' => sub_code k'
  end.

Definition sends_own (k : list instr) : bool :=
  match k with
  | ISend kd :: _ =>
      match sub_code k with
      | Some (kd', _) => bool_decide (kd' = kd)
      | None => false
      end
  | _ => true
  end.

Section RequestPredicates.
Context {A : Type}.
Abbreviation State := (@State A).

Definition request_of (s : State) (j : nat) : types_Request :=
  Request (reqRes (items (sh s) j)).

(** The request of a work item is the one built from the transaction of
    its submission: as seen by the submitter, in the queue of its
    pipeline, by the worker of that pipeline and by its closure. *)
Definition request_inv (s : State) : Prop :=
  (forall a j kd tx, inside RSub (code_of s a) = true -> item_of s a = Some j ->
     sub_code (code_of s a) = Some (kd, tx) -> request_of s j = ToRequestTx kd tx) /\
  (forall kd j, j ∈ queues (sh s) kd -> exists tx, request_of s j = ToRequestTx kd tx) /\
  (forall kd j, inside WGcb (code_of s (Worker kd)) = true ->
     item_of s (Worker kd) = Some j -> exists tx, request_of s j = ToRequestTx kd tx) /\
  (forall j kd tx k, code_of s (Task j) = IPre kd tx :: k ->
     request_of s j = ToRequestTx kd tx).
End RequestPredicates.

(** A [DeliverTxAsync] up to its enqueueing. *)
Definition submission_schedule : list SchedEv :=
  Invoke 0 (DeliverTxAsync [Byte.x2a]) :: steps (Caller 0) 1.

(** The event [e], logged after the events [tr1], was made by a step of
    its actor from the state [s0] to the state [s1] of the run of
    [sched] that ends in [s]. *)
Definition made_by {A} (app : ApplicationCC A) (a0 : A) (sched : list SchedEv)
    (s : @State A) (tr1 : list Event) (e : Event) (s0 s1 : @State A) : Prop :=
  exists sched0 rest,
    sched = sched0 ++ Step (actor e) :: rest /\
    run app sched0 (init a0) = Next s0 /\
    exec app (Step (actor e)) s0 = Next s1 /\
    run app rest s1 = Next s /\
    trace s0 = tr1 /\ trace s1 = tr1 ++ [e].

(** The caller [t] enters no method in [tr]. *)
Definition no_call_by (t : nat) (tr : list Event) : Prop :=
  forall e, e ∈ tr -> actor e = Caller t -> forall op, act e <> ACall op.

(** What a pass-through method obtains from the application in the
    state [x]: the application's state after the call and the response,
    wrapped as the method wraps it. *)
Definition passes_to {A} (app : ApplicationCC A) (op : Op) (x : A)
    : option (A * types_Response) :=
  match op with
  | InfoAsync req | InfoSync req =>
      Some (fst (Info app req x), RspInfo (snd (Info app req x)))
  | SetOptionAsync req | SetOptionSync req =>
      Some (fst (SetOption app req x), RspSetOption (snd (SetOption app req x)))
  | ReCheckTxAsync tx =>
      Some (fst (ReCheckTx app tx x), RspCheckTx (snd (ReCheckTx app tx x)))
  | DeliverTxSync tx =>
      Some (fst (DeliverTx app tx x), RspDeliverTx (snd (DeliverTx app tx x)))
  | CheckTxSync tx =>
      Some (fst (CheckTx app tx x), RspCheckTx (snd (CheckTx app tx x)))
  | QueryAsync req | QuerySync req =>
      Some (fst (Query app req x), RspQuery (snd (Query app req x)))
  | CommitAsync | CommitSync =>
      Some (fst (Commit app x), RspCommit (snd (Commit app x)))
  | InitChainAsync req | InitChainSync req =>
      Some (fst (InitChain app req x), RspInitChain (snd (InitChain app req x)))
  | BeginBlockAsync req | BeginBlockSync req =>
      Some (fst (BeginBlock app req x), RspBeginBlock (snd (BeginBlock app req x)))
  | EndBlockAsync req | EndBlockSync req =>
      Some (fst (EndBlock app req x), RspEndBlock (snd (EndBlock app req x)))
  | _ => None
  end.
(** What a statement that releases a lock or counts a wait group down
    needs to find: the mutex locked, the goroutine among the readers,
    the write lock held, the counter positive, the gate of the item at
    hand locked. *)
Definition release_ok {A} (s : @State A) (a : agent) (i : instr) : Prop :=
  match i with
  | IUnlock m => mutexes (sh s) m = true
  | IRUnlock => a ∈ rw_readers (sh s)
  | IWUnlock => rw_writer (sh s) = true
  | IWgDone => 0 < wgCommit (sh s)
  | IReqResDone =>
      exists j, item_of s a = Some j /\ rr_wg (reqRes (items (sh s) j)) = 1
  | IGateUnlock | IDeferUnlock =>
      exists j, item_of s a = Some j /\ mtx (items (sh s) j) = true
  | _ => True
  end.
(** The assignment [app.Callback = cb], the methods that call the global
    callback after they have released [rwLock] or without taking it, and
    a schedule on which such a call meets the assignment. *)
Definition is_setcb_i (i : instr) : bool :=
  match i with ISetCallback _ => true | _ => false end.

Definition reads_unlocked (op : Op) : bool :=
  match op with
  | EchoAsync _ | InfoAsync _ | QueryAsync _ => true
  | _ => false
  end.

Definition race_schedule : list SchedEv :=
  [Invoke 1 (QueryAsync []); Step (Caller 1); Step (Caller 1); Step (Caller 1);
   Invoke 0 (SetResponseCallback (Some 7%nat)); Step (Caller 0)].
(** A [CheckTxAsync] up to the release of the arbitration mutex. *)
Definition release_schedule : list SchedEv :=
  Invoke 0 (CheckTxAsync []) :: steps (Caller 0) 4.

(** ** Basic facts *)

Lemma tails_self {X} (l : list X) : l ∈ tails l.
Proof. destruct l; simpl; apply list_elem_of_here. Qed.

Lemma tails_tail {X} (x : X) k l : (x :: k) ∈ tails l -> k ∈ tails l.
Proof.
  induction l as [|y l IH]; simpl; intros H.
  - apply list_elem_of_singleton in H. discriminate.
  - apply elem_of_cons in H as [H|H].
    + simplify_eq. apply list_elem_of_further, tails_self.
    + apply list_elem_of_further, IH, H.
Qed.

Lemma tails_app {X} (ran k : list X) : k ∈ tails (ran ++ k).
Proof.
  induction ran as [|x ran IH]; simpl; [apply tails_self|].
  by apply list_elem_of_further.
Qed.

Lemma forallb_tails (P : list instr -> bool) l k :
  forallb P (tails l) = true -> k ∈ tails l -> P k = true.
Proof.
  intros H Hk. rewrite forallb_forall in H. apply H.
  by apply list_elem_of_In.
Qed.

(** A property checked on every continuation of every body holds of
    whatever an agent still has to run. *)
Lemma static_fact (P : list instr -> bool) :
  (forall op, forallb P (tails (body op)) = true) ->
  (forall kd, forallb P (tails (worker_body kd)) = true) ->
  (forall kd tx, forallb P (tails (task_body kd tx)) = true) ->
  forall a k, valid_code a k -> P k = true.
Proof.
  intros Hb Hw Ht [t|kd|i] k; simpl.
  - intros [op H]. exact (forallb_tails P _ _ (Hb op) H).
  - intros H. exact (forallb_tails P _ _ (Hw kd) H).
  - intros (kd & tx & H). exact (forallb_tails P _ _ (Ht kd tx) H).
Qed.

Lemma valid_code_tail a i k : valid_code a (i :: k) -> valid_code a k.
Proof.
  destruct a; unfold valid_code.
  - intros [op H]. exists op. eapply tails_tail, H.
  - apply tails_tail.
  - intros (kd & tx & H). exists kd, tx. eapply tails_tail, H.
Qed.

Ltac static_check :=
  apply static_fact;
  [ intros []; reflexivity | intros []; reflexivity | intros [] ?; reflexivity ].

Lemma sound_RW a k : valid_code a k -> sound_at RW (fun i => write_instr i || settle_instr i) k = true.
Proof. revert a k. static_check. Qed.

Lemma sound_RR a k : valid_code a k -> sound_at RR read_instr k = true.
Proof. revert a k. static_check. Qed.

(** ** Invariants of the reachable states *)

Arguments valid_code : simpl never.

Section Invariants.

Context {A : Type} (app : ApplicationCC A) (a0 : A).

Abbreviation State := (@State A).
Abbreviation Shared := (@Shared A).
Abbreviation reachable := (reachable app a0).

Lemma fn_insert_eq {K V} `{EqDecision K} (f : K -> V) x b v :
  x = b -> <[x := v]> f b = v.
Proof. intros ->. apply fn_lookup_insert. Qed.

Ltac upds :=
  repeat match goal with
  | |- context [ (<[?x := ?v]> ?f) ?b ] =>
      let Heq := fresh "Heq" in
      let Hne := fresh "Hne" in
      destruct (decide (x = b)) as [Heq|Hne];
      [ first [ discriminate Heq
              | exfalso; congruence
              | rewrite (fn_insert_eq f x b v Heq); try (injection Heq as Heq); try subst ]
      | first [ by destruct Hne | rewrite (fn_lookup_insert_ne f x b v Hne) ] ]
  end; cbn [code item res].

(** The four ways a scheduling step succeeds. *)
Lemma exec_cases e s s' :
  exec app e s = Next s' ->
  (exists t op, e = Invoke t op /\ code_of s (Caller t) = [] /\
                s' = enter (Caller t) (body op) (ACall op) s) \/
  (exists kd, e = Step (Worker kd) /\ code_of s (Worker kd) = [] /\
              s' = enter (Worker kd) (worker_body kd) ALoop s) \/
  (exists a i k f, e = Step a /\ code_of s a = i :: k /\
                   exec_instr app a (agents s a) i (sh s) = Next f /\
                   s' = apply_effect a k f s) \/
  (exists t i cb, e = Attach t i cb /\ (i < next (sh s))%nat /\
                  s' = {| sh := set_item i (set_rr_cb (Some cb) (items (sh s) i)) (sh s);
                          agents := agents s;
                          trace := trace s ++ [ {| actor := Caller t; work := Some i;
                                                   act := AAttach cb |} ] |}).
Proof.
  unfold code_of. destruct e as [t op|a|t i cb]; simpl; intros H.
  - left. destruct (code (agents s (Caller t))) eqn:E; simplify_eq. eauto.
  - destruct (code (agents s a)) as [|i k] eqn:E.
    + destruct a; simplify_eq. right; left. eauto.
    + destruct (exec_instr app a (agents s a) i (sh s)) eqn:E2; simplify_eq.
      right; right; left. eauto 10.
  - case_decide; simplify_eq. right; right; right. eauto 10.
Qed.

(** Only [Schedule] starts a goroutine: the closure of the item at hand. *)
Lemma exec_instr_spawn a l i (s : Shared) f :
  exec_instr app a l i s = Next f ->
  e_spawn f = None \/
  exists kd tx, i = ISchedule kd tx /\
    e_spawn f = Some (Task (default 0%nat (item l)),
                      {| code := task_body kd tx; item := Some (default 0%nat (item l));
                         res := None |}).
Proof.
  destruct i; simpl; intros H; repeat case_match; simplify_eq; simpl; eauto.
Qed.

Lemma valid_idle a : valid_code a [].
Proof.
  destruct a as [t|kd|i]; unfold valid_code; simpl.
  - exists Error. simpl. apply list_elem_of_further, list_elem_of_here.
  - repeat first [apply list_elem_of_here | apply list_elem_of_further].
  - exists Check, []. simpl. repeat first [apply list_elem_of_here | apply list_elem_of_further].
Qed.

Lemma reachable_valid s : reachable s -> forall b, valid_code b (code_of s b).
Proof.
  induction 1 as [|s e s' Hr IH Hex]; intros b.
  - apply valid_idle.
  - unfold code_of in *.
    destruct (exec_cases _ _ _ Hex) as
      [(t & op & -> & E & ->)|[(kd & -> & E & ->)|[(a & i & k & f & -> & E & Hi & ->)
       |(t & i & cb & -> & Hlt & ->)]]]; simpl.
    + upds; [|apply IH]. exists op. apply tails_self.
    + upds; [|apply IH]. apply tails_self.
    + upds.
      * eapply valid_code_tail. unfold code_of in E. rewrite <- E. apply IH.
      * destruct (exec_instr_spawn _ _ _ _ _ Hi) as [->|(kd & tx & -> & ->)]; [apply IH|].
        upds; [|apply IH]. exists kd, tx. apply tails_self.
    + apply IH.
Qed.

(** What the next statement does to membership in a region. *)
Lemma inside_next R need i k :
  sound_at R need (i :: k) = true ->
  inside R k = (if rel R i then false else if acq R i then true else inside R (i :: k)).
Proof.
  simpl. by destruct (rel R i), (acq R i), (inside R k), (need i).
Qed.

Lemma inside_acq R need i k :
  sound_at R need (i :: k) = true -> acq R i = true -> inside R (i :: k) = false.
Proof.
  simpl. intros H Ha. rewrite Ha in H |- *. by destruct (rel R i).
Qed.

Lemma inside_need R need i k :
  sound_at R need (i :: k) = true -> need i = true -> inside R (i :: k) = true.
Proof.
  simpl. intros H Hn. rewrite Hn in H. rewrite !andb_true_iff in H. by destruct H.
Qed.

(** *** Locks held over a region of code *)

Section Mutex.

Variables (R : region) (need : instr -> bool) (held : Shared -> bool).

Hypothesis R_sound : forall a k, valid_code a k -> sound_at R need k = true.
Hypothesis R_start : starts_outside R.
Hypothesis R_effect : forall a l i (s : Shared) f,
  exec_instr app a l i s = Next f ->
  (acq R i = true -> held s = false /\ held (e_shared f) = true) /\
  (rel R i = true -> held (e_shared f) = false) /\
  (acq R i = false -> rel R i = false -> held (e_shared f) = held s).
Hypothesis R_attach : forall i w (s : Shared), held (set_item i w s) = held s.

Lemma reachable_mutex_inv s : reachable s -> mutex_inv R held s.
Proof.
  induction 1 as [|s e s' Hr IH Hex].
  - split; intros; simpl in *; done.
  - pose proof (reachable_valid _ Hr) as Hv.
    destruct IH as [I1 I2]. destruct R_start as (Sb & Sw & St).
    unfold mutex_inv, code_of in *.
    destruct (exec_cases _ _ _ Hex) as
      [(t & op & -> & E & ->)|[(kd & -> & E & ->)|[(a & i & k & f & -> & E & Hi & ->)
       |(t & i & cb & -> & Hlt & ->)]]]; simpl.
    + split.
      * intros b. upds; [by rewrite Sb | apply I1].
      * intros b c. upds; rewrite ?Sb; try done. apply I2.
    + split.
      * intros b. upds; [by rewrite Sw | apply I1].
      * intros b c. upds; rewrite ?Sw; try done. apply I2.
    + pose proof (Hv a) as Hva. unfold code_of in *. rewrite E in Hva.
      pose proof (inside_next R need i k (R_sound _ _ Hva)) as Hn.
      destruct (R_effect _ _ _ _ _ Hi) as (Ea & Er & En).
      pose proof (I1 a) as I1a. rewrite E in I1a.
      assert (Hoth : forall b, b <> a ->
                inside R (code ((match e_spawn f with
                                 | Some (b0, lb) => <[b0:=lb]> (agents s)
                                 | None => agents s end) b)) = true ->
                inside R (code (agents s b)) = true).
      { intros b Hb. destruct (exec_instr_spawn _ _ _ _ _ Hi) as [->|(kd & tx & -> & ->)]; [done|].
        upds; [by rewrite St | done]. }
      assert (Hheld : forall b, b <> a -> inside R (code (agents s b)) = true ->
                held (e_shared f) = true).
      { intros b Hb Hin. pose proof (I1 b Hin) as Hh.
        destruct (rel R i) eqn:Hr'.
        - exfalso. apply Hb. symmetry. apply I2; [|done]. rewrite E. simpl. by rewrite Hr'.
        - destruct (acq R i) eqn:Ha'; [by apply Ea|]. by rewrite En. }
      split.
      * intros b. upds.
        -- rewrite Hn. destruct (rel R i) eqn:Hr'; [done|].
           destruct (acq R i) eqn:Ha'; [intros _; by apply Ea|].
           intros Hin. rewrite En by done. by apply I1a.
        -- intros Hin. apply (Hheld b); [done|]. by apply Hoth.
      * assert (Hac : forall c, c <> a -> inside R k = true ->
                  inside R (code (agents s c)) = true -> False).
        { intros c Hc Hk Hin. rewrite Hn in Hk.
          destruct (rel R i) eqn:Hr'; [done|].
          destruct (acq R i) eqn:Ha'.
          - destruct (Ea eq_refl) as [Hf _]. rewrite (I1 c Hin) in Hf. done.
          - apply Hc. symmetry. apply I2; [|done]. by rewrite E. }
        intros b c. upds; try done.
        -- intros Hk Hin. exfalso. eapply (Hac c); eauto.
        -- intros Hin Hk. exfalso. eapply (Hac b); eauto.
        -- intros H1 H2. apply I2; by apply Hoth.
    + rewrite R_attach. done.
Qed.

End Mutex.

(** *** The exclusivity lock, write side *)

Lemma RW_start : starts_outside RW.
Proof. repeat split; intros; try done. by destruct op. Qed.

Lemma RW_effect a l i (s : Shared) f :
  exec_instr app a l i s = Next f ->
  (acq RW i = true -> rw_writer s = false /\ rw_writer (e_shared f) = true) /\
  (rel RW i = true -> rw_writer (e_shared f) = false) /\
  (acq RW i = false -> rel RW i = false -> rw_writer (e_shared f) = rw_writer s).
Proof.
  destruct i; simpl; intros H; repeat case_match; simplify_eq; simpl; done.
Qed.

Lemma reachable_RW s : reachable s -> mutex_inv RW rw_writer s.
Proof.
  apply reachable_mutex_inv with (need := fun i => write_instr i || settle_instr i).
  - apply sound_RW.
  - apply RW_start.
  - apply RW_effect.
  - done.
Qed.

(** *** The three mutexes *)

Lemma sound_RM m a k : valid_code a k -> sound_at (RM m) no_need k = true.
Proof. revert a k. destruct m; static_check. Qed.

Lemma RM_start m : starts_outside (RM m).
Proof. repeat split; intros; try done. by destruct op, m. Qed.

Lemma RM_effect m a l i (s : Shared) f :
  exec_instr app a l i s = Next f ->
  (acq (RM m) i = true -> mutexes s m = false /\ mutexes (e_shared f) m = true) /\
  (rel (RM m) i = true -> mutexes (e_shared f) m = false) /\
  (acq (RM m) i = false -> rel (RM m) i = false -> mutexes (e_shared f) m = mutexes s m).
Proof.
  destruct i; simpl; intros H; repeat case_match; simplify_eq; simpl;
    rewrite ?bool_decide_eq_true, ?bool_decide_eq_false;
    repeat split; intros; subst; rewrite ?fn_lookup_insert; try done;
    try (rewrite fn_lookup_insert_ne by done; done).
Qed.

Lemma reachable_RM m s : reachable s -> mutex_inv (RM m) (fun s => mutexes s m) s.
Proof.
  apply reachable_mutex_inv with (need := no_need).
  - apply sound_RM.
  - apply RM_start.
  - apply RM_effect.
  - done.
Qed.

(** *** The exclusivity lock, read side *)

Lemma elem_of_drop_first a b l :
  NoDup l -> b ∈ drop_first a l <-> b ∈ l /\ b <> a.
Proof.
  induction 1 as [|x l Hx Hl IH]; simpl.
  - split; [intros H; inversion H | intros [H _]; inversion H].
  - case_decide; subst.
    + split.
      * intros H. split; [by apply list_elem_of_further | intros ->; done].
      * intros [H Hne]. apply elem_of_cons in H as [H|H]; done.
    + rewrite !elem_of_cons, IH. naive_solver.
Qed.

Lemma NoDup_drop_first a l : NoDup l -> NoDup (drop_first a l).
Proof.
  induction 1 as [|x l Hx Hl IH]; simpl; [constructor|].
  case_decide; [done|]. constructor; [|done].
  rewrite elem_of_drop_first by done. naive_solver.
Qed.

Lemma sound_RR_task i k : valid_code (Task i) k -> inside RR k = false.
Proof.
  intros (kd & tx & H). simpl in H.
  repeat (apply elem_of_cons in H as [->|H]; [done|]). inversion H.
Qed.

Lemma RR_start : starts_outside RR.
Proof. repeat split; intros; try done. by destruct op. Qed.

Lemma RR_effect a l i (s : Shared) f :
  exec_instr app a l i s = Next f ->
  rw_readers (e_shared f) =
    (if acq RR i then a :: rw_readers s
     else if rel RR i then drop_reader a (rw_readers s) else rw_readers s) /\
  ((rw_writer s = true -> rw_readers s = []) ->
   rw_writer (e_shared f) = true -> rw_readers (e_shared f) = []).
Proof.
  destruct i; simpl; intros H; repeat case_match; simplify_eq; simpl; split; try done.
  all: intros Hw Hw'; specialize (Hw Hw'); congruence.
Qed.

Lemma reachable_readers s : reachable s -> readers_inv s.
Proof.
  induction 1 as [|s e s' Hr IH Hex].
  - repeat split; simpl; try done; [intros H; inversion H | constructor].
  - pose proof (reachable_valid _ Hr) as Hv.
    destruct IH as (I1 & I2 & I3). destruct RR_start as (Sb & Sw & St).
    unfold readers_inv, code_of in *.
    destruct (exec_cases _ _ _ Hex) as
      [(t & op & -> & E & ->)|[(kd & -> & E & ->)|[(a & i & k & f & -> & E & Hi & ->)
       |(t & i & cb & -> & Hlt & ->)]]]; simpl.
    + repeat split; try done.
      * upds; [by rewrite Sb | apply I1].
      * upds; [|apply I1]. intros Hin. apply I1 in Hin. unfold code_of in E.
        rewrite E in Hin. done.
    + repeat split; try done.
      * upds; [by rewrite Sw | apply I1].
      * upds; [|apply I1]. intros Hin. apply I1 in Hin. unfold code_of in E.
        rewrite E in Hin. done.
    + pose proof (Hv a) as Hva. unfold code_of in *. rewrite E in Hva.
      pose proof (inside_next RR read_instr i k (sound_RR _ _ Hva)) as Hn.
      pose proof (inside_acq RR read_instr i k (sound_RR _ _ Hva)) as Hq.
      destruct (RR_effect _ _ _ _ _ Hi) as (Er & Ew).
      pose proof (I1 a) as I1a. rewrite E in I1a.
      assert (Hoth : forall b, b <> a ->
                inside RR (code ((match e_spawn f with
                                  | Some (b0, lb) => <[b0:=lb]> (agents s)
                                  | None => agents s end) b)) =
                inside RR (code (agents s b))).
      { intros b Hb. destruct (exec_instr_spawn _ _ _ _ _ Hi) as [->|(kd & tx & -> & ->)]; [done|].
        upds; [|done]. rewrite St. symmetry. eapply sound_RR_task, Hv. }
      split; [|split].
      * intros b. rewrite Er. upds.
        -- rewrite Hn. destruct (rel RR i) eqn:Hr'.
           ++ destruct (acq RR i) eqn:Ha'; [by destruct i|].
              assert (Hcur : inside RR (i :: k) = true) by (cbn [inside]; by rewrite Hr').
              unfold drop_reader.
              destruct (decide (b ∈ rw_readers (sh s))) as [Hin|Hnin]; [|by destruct Hnin; apply I1a].
              rewrite elem_of_drop_first by done. naive_solver.
           ++ destruct (acq RR i) eqn:Ha'.
              ** split; [intros _; apply list_elem_of_here | done].
              ** done.
        -- rewrite Hoth by done. rewrite I1.
           destruct (acq RR i) eqn:Ha'; [rewrite elem_of_cons; naive_solver|].
           destruct (rel RR i) eqn:Hr'; [|done].
           assert (Hcur : inside RR (i :: k) = true) by (cbn [inside]; by rewrite Hr').
           unfold drop_reader.
           destruct (decide (a ∈ rw_readers (sh s))) as [Hin|Hnin]; [|by destruct Hnin; apply I1a].
           rewrite elem_of_drop_first by done. naive_solver.
      * rewrite Er. destruct (acq RR i) eqn:Ha'.
        -- constructor; [|done]. rewrite <- I1a. by rewrite Hq.
        -- destruct (rel RR i) eqn:Hr'; [|done].
           unfold drop_reader. case_decide; [by apply NoDup_drop_first|].
           destruct (rw_readers (sh s)); [constructor|]. simpl. by inversion I2.
      * by apply Ew.
    + done.
Qed.

(** *** Work items *)

Lemma static_caller (P : list instr -> bool) :
  (forall op, forallb P (tails (body op)) = true) ->
  forall t k, valid_code (Caller t) k -> P k = true.
Proof. intros Hb t k [op H]. exact (forallb_tails P _ _ (Hb op) H). Qed.

Lemma static_worker (P : kind -> list instr -> bool) :
  (forall kd, forallb (P kd) (tails (worker_body kd)) = true) ->
  forall kd k, valid_code (Worker kd) k -> P kd k = true.
Proof. intros Hb kd k H. exact (forallb_tails (P kd) _ _ (Hb kd) H). Qed.

Lemma static_task (P : list instr -> bool) :
  (forall kd tx, forallb P (tails (task_body kd tx)) = true) ->
  forall j k, valid_code (Task j) k -> P k = true.
Proof. intros Hb j k (kd & tx & H). exact (forallb_tails P _ _ (Hb kd tx) H). Qed.

(** Each kind of goroutine only runs its own statements. *)
Lemma agent_instr_ok a i k : valid_code a (i :: k) -> agent_instr a i = true.
Proof.
  destruct a as [t|kd|j]; intros H.
  - exact (static_caller (fun k => match k with i :: _ => caller_instr i | [] => true end)
             ltac:(intros []; reflexivity) t _ H).
  - exact (static_worker (fun kd k => match k with i :: _ => worker_instr kd i | [] => true end)
             ltac:(intros []; reflexivity) kd _ H).
  - exact (static_task (fun k => match k with i :: _ => task_instr i | [] => true end)
             ltac:(intros [] ?; reflexivity) j _ H).
Qed.

(** A statement keeps the item at hand, except the two that fetch one. *)
Lemma exec_instr_item a l i (s : Shared) f :
  exec_instr app a l i s = Next f ->
  (is_new i = false /\ is_recv_i i = false /\ e_item f = item l /\
   next (e_shared f) = next s) \/
  (is_new i = true /\ e_item f = Some (next s) /\ next (e_shared f) = S (next s)) \/
  (exists kd n q, i = IRecv kd /\ queues s kd = n :: q /\ e_item f = Some n /\
                  e_shared f = set_queue kd q s).
Proof.
  destruct i; simpl; intros H; repeat case_match; simplify_eq; simpl;
    first [ left; done | right; left; done | right; right; by eexists _, _, _ ].
Qed.

Lemma exec_instr_next a l i (s : Shared) f :
  exec_instr app a l i s = Next f ->
  next (e_shared f) = if is_new i then S (next s) else next s.
Proof. destruct i; simpl; intros H; repeat case_match; simplify_eq; done. Qed.

(** The queues change by a send (at the back) and a receive (at the
    front) only. *)
Lemma exec_instr_queues a l i (s : Shared) f kd :
  exec_instr app a l i s = Next f ->
  queues (e_shared f) kd =
    match i with
    | ISend kd' =>
        if decide (kd' = kd) then queues s kd ++ [default 0%nat (item l)] else queues s kd
    | IRecv kd' => if decide (kd' = kd) then tail (queues s kd) else queues s kd
    | _ => queues s kd
    end.
Proof.
  destruct i; simpl; intros H; repeat case_match; simplify_eq; simpl; try done.
  all: unfold insert, fn_insert; repeat case_decide; simplify_eq; try done.
  all: by match goal with H : queues _ _ = _ |- _ => rewrite H end.
Qed.

Lemma exec_instr_item_Some a l i (s : Shared) f :
  exec_instr app a l i s = Next f -> is_Some (item l) -> is_Some (e_item f).
Proof.
  intros H Hs. destruct (exec_instr_item _ _ _ _ _ H) as
    [(_ & _ & -> & _)|[(_ & -> & _)|(kd & n & q & _ & _ & -> & _)]]; eauto.
Qed.

Section HasItem.

Variables (R : region) (need : instr -> bool).
Hypothesis R_sound : forall a k, valid_code a k -> sound_at R need k = true.
Hypothesis R_start : starts_outside R.
Hypothesis R_acq : forall i, acq R i = true -> is_new i || is_recv_i i = true.

(** A goroutine inside a region opened by fetching an item has one. *)
Lemma reachable_has_item s :
  reachable s -> forall a, inside R (code_of s a) = true -> is_Some (item_of s a).
Proof.
  induction 1 as [|s e s' Hr IH Hex]; [done|].
  pose proof (reachable_valid _ Hr) as Hv. destruct R_start as (Sb & Sw & St).
  unfold code_of, item_of in *.
  destruct (exec_cases _ _ _ Hex) as
    [(t & op & -> & E & ->)|[(kd & -> & E & ->)|[(a & i & k & f & -> & E & Hi & ->)
     |(t & i & cb & -> & Hlt & ->)]]]; simpl; intros b.
  - upds; [by rewrite Sb | apply IH].
  - upds; [by rewrite Sw | apply IH].
  - pose proof (Hv a) as Hva. unfold code_of in *. rewrite E in Hva.
    pose proof (inside_next R need i k (R_sound _ _ Hva)) as Hn.
    upds.
    + rewrite Hn. destruct (rel R i); [done|]. destruct (acq R i) eqn:Ha.
      * intros _. apply R_acq in Ha.
        destruct (exec_instr_item _ _ _ _ _ Hi) as
          [(H1 & H2 & _)|[(_ & -> & _)|(kd & n & q & _ & _ & -> & _)]]; eauto.
        rewrite H1, H2 in Ha. done.
      * intros Hin. eapply exec_instr_item_Some; [done|]. apply IH. by rewrite E.
    + destruct (exec_instr_spawn _ _ _ _ _ Hi) as [->|(kd & tx & -> & ->)]; [apply IH|].
      upds; [by rewrite St | apply IH].
  - apply IH.
Qed.

End HasItem.

Lemma sound_RSub a k : valid_code a k -> sound_at RSub need_sub k = true.
Proof. revert a k. static_check. Qed.

Lemma RSub_start : starts_outside RSub.
Proof. repeat split; intros; try done. by destruct op. Qed.

Lemma reachable_RSub_item s a :
  reachable s -> inside RSub (code_of s a) = true -> is_Some (item_of s a).
Proof.
  intros Hr. revert a. apply reachable_has_item with (need := need_sub); try done.
  - apply sound_RSub.
  - apply RSub_start.
  - intros i Hi. simpl in Hi. by rewrite Hi.
Qed.

Lemma reachable_bound s : reachable s -> bound_inv s.
Proof.
  induction 1 as [|s e s' Hr IH Hex].
  - repeat split; simpl; intros; try done;
      match goal with H : _ ∈ [] |- _ => by apply elem_of_nil in H end.
  - pose proof (reachable_valid _ Hr) as Hv.
    pose proof (fun a => reachable_RSub_item s a Hr) as Hh.
    destruct IH as (I1 & I2 & I3).
    unfold bound_inv, code_of, item_of in *.
    destruct (exec_cases _ _ _ Hex) as
      [(t & op & -> & E & ->)|[(kd & -> & E & ->)|[(a & i & k & f & -> & E & Hi & ->)
       |(t & i & cb & -> & Hlt & ->)]]]; simpl.
    + split; [|split]; try done.
      * intros b j. upds; [done|apply I1].
      * intros ev j Hev. apply elem_of_app in Hev as [Hev|Hev]; [by eapply I3|].
        apply list_elem_of_singleton in Hev. by subst.
    + split; [|split]; try done.
      * intros b j. upds; [done|apply I1].
      * intros ev j Hev. apply elem_of_app in Hev as [Hev|Hev]; [by eapply I3|].
        apply list_elem_of_singleton in Hev. by subst.
    + pose proof (Hv a) as Hva. unfold code_of in *. rewrite E in Hva.
      pose proof (sound_RSub _ _ Hva) as Hs.
      pose proof (Hh a) as Hha. rewrite E in Hha.
      pose proof (exec_instr_next _ _ _ _ _ Hi) as Hnx.
      assert (Hmono : (next (sh s) <= next (e_shared f))%nat).
      { rewrite Hnx. destruct (is_new i); lia. }
      assert (Hwi : need_sub i = true ->
                (default 0%nat (item (agents s a)) < next (sh s))%nat).
      { intros Hn. destruct Hha as [j Hj]; [by eapply inside_need|].
        rewrite Hj. simpl. by eapply I1. }
      assert (J1a : forall j, e_item f = Some j -> (j < next (e_shared f))%nat).
      { intros j Hj. destruct (exec_instr_item _ _ _ _ _ Hi) as
          [(_ & _ & Hit & _)|[(Hnw & Hit & Hn)|(kd & n & q & _ & Hq & Hit & _)]].
        - rewrite Hit in Hj. apply I1 in Hj. lia.
        - rewrite Hit in Hj. simplify_eq. lia.
        - rewrite Hit in Hj. simplify_eq. eapply Nat.lt_le_trans; [|exact Hmono].
          apply (I2 kd). rewrite Hq. apply list_elem_of_here. }
      split; [|split].
      * intros b j. upds; [apply J1a|].
        destruct (exec_instr_spawn _ _ _ _ _ Hi) as [->|(kd & tx & -> & ->)].
        -- intros Hj. apply I1 in Hj. lia.
        -- upds; [|intros Hj; apply I1 in Hj; lia].
           intros [= <-]. eapply Nat.lt_le_trans; [|exact Hmono]. by apply Hwi.
      * intros kd j. rewrite (exec_instr_queues _ _ _ _ _ kd Hi).
        destruct i; try (intros Hj; apply I2 in Hj; lia).
        -- case_decide; [|intros Hj; apply I2 in Hj; lia].
           intros Hj. apply elem_of_app in Hj as [Hj|Hj]; [apply I2 in Hj; lia|].
           apply list_elem_of_singleton in Hj. subst j.
           eapply Nat.lt_le_trans; [|exact Hmono]. by apply Hwi.
        -- case_decide; [|intros Hj; apply I2 in Hj; lia].
           intros Hj. eapply Nat.lt_le_trans; [|exact Hmono]. apply (I2 kd).
           destruct (queues (sh s) kd); [done|]. by apply list_elem_of_further.
      * intros ev j Hev Hw. apply elem_of_app in Hev as [Hev|Hev].
        -- eapply Nat.lt_le_trans; [|exact Hmono]. by eapply I3.
        -- apply list_elem_of_singleton in Hev. subst ev. simpl in Hw. by apply J1a.
    + split; [|split]; try done.
      intros ev j Hev. apply elem_of_app in Hev as [Hev|Hev]; [by eapply I3|].
      apply list_elem_of_singleton in Hev. subst. simpl. by intros [= ->].
Qed.

(** *** Events of an item *)

Lemma ids_snoc P tr e :
  ids P (tr ++ [e]) = ids P tr ++ (if P e then option_list (work e) else []).
Proof.
  unfold ids. rewrite omap_app. f_equal. simpl. destruct (P e); [|done].
  by destruct (work e).
Qed.

Lemma ids_work P tr j : j ∈ ids P tr -> exists e, e ∈ tr /\ work e = Some j.
Proof.
  unfold ids. rewrite list_elem_of_omap. intros (e & He & H).
  destruct (P e); [|done]. eauto.
Qed.

Lemma ids_mono P tr e j : j ∈ ids P tr -> j ∈ ids P (tr ++ [e]).
Proof. rewrite ids_snoc. intros H. apply elem_of_app. by left. Qed.

Lemma ids_snoc_elem P tr e j :
  j ∈ ids P (tr ++ [e]) <-> j ∈ ids P tr \/ (P e = true /\ work e = Some j).
Proof.
  rewrite ids_snoc, elem_of_app. destruct (P e).
  - destruct (work e) as [w|]; simpl.
    + rewrite list_elem_of_singleton. naive_solver.
    + rewrite elem_of_nil. naive_solver.
  - rewrite elem_of_nil. naive_solver.
Qed.

(** Which statement an observed action comes from. *)
Lemma exec_instr_act a l i (s : Shared) f w :
  exec_instr app a l i s = Next f ->
  let ev := {| actor := a; work := w; act := e_act f |} in
  is_add ev = is_add_i i /\ is_done ev = is_wgdone_i i /\ is_send ev = is_send_i i /\
  is_sched ev = is_sched_i i /\ is_open ev = is_open_i i /\ is_pre ev = is_pre_i i /\
  is_attempt ev = is_real_i i /\ is_rrdone ev = is_rrdone_i i /\
  is_cbstep ev = is_reqcb_i i.
Proof.
  destruct i; simpl; intros H; repeat case_match; simplify_eq; done.
Qed.

Lemma fresh_below P (s : State) j :
  bound_inv s -> (next (sh s) <= j)%nat -> j ∉ ids P (trace s).
Proof.
  intros (_ & _ & I3) Hj Hin. apply ids_work in Hin as (e & He & Hw).
  specialize (I3 _ _ He Hw). lia.
Qed.

(** A worker does not run inside a submission, nor a submitter inside a
    worker iteration. *)
Lemma recv_outside_RSub a i k :
  valid_code a (i :: k) -> is_recv_i i = true -> inside RSub (i :: k) = false.
Proof.
  intros H. revert a H.
  assert (Hs : forall a k, valid_code a k ->
            match k with
            | i :: _ => implb (is_recv_i i) (negb (inside RSub k))
            | [] => true
            end = true) by static_check.
  intros a H Hi. specialize (Hs _ _ H). simpl in Hs. rewrite Hi in Hs. simpl in Hs.
  by apply negb_true_iff in Hs.
Qed.

Lemma reachable_unique s : reachable s -> unique_inv s.
Proof.
  induction 1 as [|s e s' Hr IH Hex]; [done|].
  pose proof (reachable_valid _ Hr) as Hv.
  pose proof (reachable_bound _ Hr) as (B1 & B2 & B3).
  destruct RSub_start as (Sb & Sw & St).
  unfold unique_inv, code_of, item_of in *.
  destruct (exec_cases _ _ _ Hex) as
    [(t & op & -> & E & ->)|[(kd & -> & E & ->)|[(a & i & k & f & -> & E & Hi & ->)
     |(t & i & cb & -> & Hlt & ->)]]]; simpl; [| | |done].
  - intros b c. upds; rewrite ?Sb; try done. apply IH.
  - intros b c. upds; rewrite ?Sw; try done. apply IH.
  - pose proof (Hv a) as Hva. unfold code_of in *. rewrite E in Hva.
    pose proof (inside_next RSub need_sub i k (sound_RSub _ _ Hva)) as Hn.
    assert (Hoth : forall b, b <> a ->
              inside RSub (code ((match e_spawn f with
                                  | Some (b0, lb) => <[b0:=lb]> (agents s)
                                  | None => agents s end) b)) = true ->
              inside RSub (code (agents s b)) = true /\
              item ((match e_spawn f with
                     | Some (b0, lb) => <[b0:=lb]> (agents s)
                     | None => agents s end) b) = item (agents s b)).
    { intros b Hb. destruct (exec_instr_spawn _ _ _ _ _ Hi) as [->|(kd & tx & -> & ->)]; [done|].
      upds; [by rewrite St | done]. }
    assert (Ha : forall c, c <> a -> inside RSub k = true ->
              inside RSub (code (agents s c)) = true ->
              e_item f <> item (agents s c)).
    { intros c Hc Hk Hin. rewrite Hn in Hk.
      destruct (rel RSub i) eqn:Hr'; [done|].
      destruct (exec_instr_item _ _ _ _ _ Hi) as
        [(Hnw & _ & Hit & _)|[(Hnw & Hit & _)|(kd & n & q & -> & _)]].
      - change (acq RSub i) with (is_new i) in Hk. rewrite Hnw in Hk.
        rewrite Hit. apply IH; [done| |done]. by rewrite E.
      - rewrite Hit. intros Heq. symmetry in Heq. apply B1 in Heq. lia.
      - pose proof (recv_outside_RSub _ _ _ Hva eq_refl) as Hx.
        simpl in Hx, Hk. congruence. }
    intros b c. upds; try done.
    + intros _ Hk Hin. apply Hoth in Hin as [Hin ->]; [|done]. by apply Ha.
    + intros _ Hin Hk. apply Hoth in Hin as [Hin ->]; [|done].
      intros Heq. symmetry in Heq. revert Heq. by apply Ha.
    + intros Hbc H1 H2. apply Hoth in H1 as [H1 ->]; [|done].
      apply Hoth in H2 as [H2 ->]; [|done]. by apply IH.
Qed.

Section Fresh.

Variables (R : region) (need : instr -> bool) (P : Event -> bool).
Hypothesis R_sound : forall a k, valid_code a k -> sound_at R need k = true.
Hypothesis R_start : starts_outside R.
Hypothesis R_acq : forall i, acq R i = is_new i.
Hypothesis R_sub : forall a k, valid_code a k -> inside R k = true -> inside RSub k = true.
Hypothesis P_rel : forall a l i (s : Shared) f w,
  exec_instr app a l i s = Next f ->
  P {| actor := a; work := w; act := e_act f |} = rel R i.
Hypothesis P_call : forall a w op, P {| actor := a; work := w; act := ACall op |} = false.
Hypothesis P_loop : forall a w, P {| actor := a; work := w; act := ALoop |} = false.
Hypothesis P_attach : forall a w cb, P {| actor := a; work := w; act := AAttach cb |} = false.

Lemma reachable_fresh s : reachable s -> fresh_inv R P s.
Proof.
  induction 1 as [|s e s' Hr IH Hex]; [done|].
  pose proof (reachable_valid _ Hr) as Hv.
  pose proof (reachable_bound _ Hr) as HB.
  pose proof (reachable_unique _ Hr) as HU.
  destruct R_start as (Sb & Sw & St).
  unfold fresh_inv, unique_inv, code_of, item_of in *.
  destruct (exec_cases _ _ _ Hex) as
    [(t & op & -> & E & ->)|[(kd & -> & E & ->)|[(a & i & k & f & -> & E & Hi & ->)
     |(t & i & cb & -> & Hlt & ->)]]]; simpl.
  - intros b j. rewrite ids_snoc, P_call, app_nil_r. upds; [by rewrite Sb | apply IH].
  - intros b j. rewrite ids_snoc, P_loop, app_nil_r. upds; [by rewrite Sw | apply IH].
  - pose proof (Hv a) as Hva. unfold code_of in *. rewrite E in Hva.
    pose proof (inside_next R need i k (R_sound _ _ Hva)) as Hn.
    intros b j. rewrite ids_snoc, (P_rel _ _ _ _ _ _ Hi). simpl. upds.
    + rewrite Hn. destruct (rel R i) eqn:Hr'; [done|]. rewrite app_nil_r, R_acq.
      destruct (exec_instr_item _ _ _ _ _ Hi) as
        [(Hnw & _ & Hit & _)|[(Hnw & Hit & _)|(kd & ? & ? & -> & _)]].
      * rewrite Hnw, Hit. intros Hin Hj. eapply IH; [|done]. by rewrite E.
      * rewrite Hit. intros _ [= <-]. by apply fresh_below.
      * change (is_new (IRecv kd)) with false. cbv iota. intros Hk _.
        pose proof (recv_outside_RSub _ _ _ Hva eq_refl) as Hx.
        rewrite (R_sub _ _ Hva Hk) in Hx. done.
    + intros Hin Hj.
      assert (inside R (code (agents s b)) = true /\ item (agents s b) = Some j) as [Hin' Hj'].
      { destruct (exec_instr_spawn _ _ _ _ _ Hi) as [Hsp|(kd & tx & -> & Hsp)];
          rewrite Hsp in Hin, Hj; [done|].
        revert Hin Hj. upds; [by rewrite St | done]. }
      rewrite elem_of_app. intros [Hx|Hx]; [by eapply IH|].
      destruct (rel R i) eqn:Hr'; [|by apply elem_of_nil in Hx].
      assert (His : inside R (i :: k) = true) by (simpl; by rewrite Hr').
      destruct (exec_instr_item _ _ _ _ _ Hi) as
        [(Hnw & _ & Hit & _)|[(Hnw & Hit & _)|(kd & ? & ? & -> & _)]].
      * rewrite Hit in Hx. apply (HU a b); [done| | |].
        -- rewrite E. by apply (R_sub a).
        -- apply (R_sub b); [apply Hv|done].
        -- rewrite Hj'. destruct (item (agents s a)); simpl in Hx; [|by apply elem_of_nil in Hx].
           apply list_elem_of_singleton in Hx. by subst.
      * pose proof (inside_acq R need i k (R_sound _ _ Hva)) as Hq.
        rewrite R_acq in Hq. rewrite Hq in His; done.
      * pose proof (recv_outside_RSub _ _ _ Hva eq_refl) as Hz.
        rewrite (R_sub _ _ Hva His) in Hz. done.
  - intros b j. rewrite ids_snoc, P_attach, app_nil_r. apply IH.
Qed.

End Fresh.

Lemma sound_RSend a k : valid_code a k -> sound_at RSend never k = true.
Proof. revert a k. static_check. Qed.

Lemma sound_RAdd a k : valid_code a k -> sound_at RAdd is_send_i k = true.
Proof. revert a k. static_check. Qed.

Lemma RSend_sub a k : valid_code a k -> inside RSend k = true -> inside RSub k = true.
Proof.
  intros H. apply implb_true_iff. revert a k H.
  apply (static_fact (fun k => implb (inside RSend k) (inside RSub k)));
    [ intros []; reflexivity | intros []; reflexivity | intros [] ?; reflexivity ].
Qed.

Lemma RAdd_sub a k : valid_code a k -> inside RAdd k = true -> inside RSub k = true.
Proof.
  intros H. apply implb_true_iff. revert a k H.
  apply (static_fact (fun k => implb (inside RAdd k) (inside RSub k)));
    [ intros []; reflexivity | intros []; reflexivity | intros [] ?; reflexivity ].
Qed.

Lemma reachable_fresh_send s : reachable s -> fresh_inv RSend is_send s.
Proof.
  apply reachable_fresh with (need := never); try done.
  - apply sound_RSend.
  - repeat split; intros; try done. by destruct op.
  - apply RSend_sub.
  - intros a l i sh f w Hi. by destruct (exec_instr_act a l i sh f w Hi) as (_ & _ & -> & _).
Qed.

Lemma reachable_fresh_add s : reachable s -> fresh_inv RAdd is_add s.
Proof.
  apply reachable_fresh with (need := is_send_i); try done.
  - apply sound_RAdd.
  - repeat split; intros; try done. by destruct op.
  - apply RAdd_sub.
  - intros a l i sh f w Hi. by destruct (exec_instr_act a l i sh f w Hi) as (-> & _).
Qed.

Lemma reachable_fresh_sched s : reachable s -> fresh_inv RSub is_sched s.
Proof.
  apply reachable_fresh with (need := need_sub); try done.
  - apply sound_RSub.
  - apply RSub_start.
  - intros a l i sh f w Hi. by destruct (exec_instr_act a l i sh f w Hi) as (_ & _ & _ & -> & _).
Qed.

(** *** Worker iterations and pool closures *)

Lemma sound_WGcb a k : valid_code a k -> sound_at WGcb need_pass k = true.
Proof. revert a k. static_check. Qed.

Lemma sound_WPass a k : valid_code a k -> sound_at WPass need_pass k = true.
Proof. revert a k. static_check. Qed.

Lemma WPass_cur a k : valid_code a k -> inside WPass k = true -> inside WGcb k = true.
Proof.
  intros H. apply implb_true_iff. revert a k H.
  apply (static_fact (fun k => implb (inside WPass k) (inside WGcb k)));
    [ intros []; reflexivity | intros []; reflexivity | intros [] ?; reflexivity ].
Qed.

Lemma reachable_WGcb_item s a :
  reachable s -> inside WGcb (code_of s a) = true -> is_Some (item_of s a).
Proof.
  intros Hr. revert a. apply reachable_has_item with (need := need_pass); try done.
  - apply sound_WGcb.
  - repeat split; intros; try done. by destruct op.
  - intros i Hi. simpl in Hi. rewrite Hi. by destruct (is_new i).
Qed.

(** Fetching statements open the regions of an item; they never occur
    inside one. *)
Lemma fetch_outside a i k :
  valid_code a (i :: k) -> is_new i || is_recv_i i = true ->
  inside RAdded (i :: k) = false /\ inside WPass (i :: k) = false.
Proof.
  intros H. revert a H.
  assert (Hs : forall a k, valid_code a k ->
            match k with
            | i :: _ => implb (is_new i || is_recv_i i)
                          (negb (inside RAdded k) && negb (inside WPass k))
            | [] => true
            end = true) by static_check.
  intros a H Hi. specialize (Hs _ _ H). simpl in Hs. rewrite Hi in Hs. simpl in Hs.
  apply andb_true_iff in Hs as [H1 H2]. by rewrite negb_true_iff in H1, H2.
Qed.

Lemma task_only a i k :
  valid_code a (i :: k) -> task_instr i = true -> exists j, a = Task j.
Proof.
  intros H Hi. apply agent_instr_ok in H. destruct a as [t|kd|j]; [| |eauto].
  - by destruct i.
  - by destruct i.
Qed.

Lemma reachable_task s : reachable s -> task_inv s.
Proof.
  induction 1 as [|s e s' Hr IH Hex]; [done|].
  pose proof (reachable_valid _ Hr) as Hv.
  pose proof (fun a => reachable_RSub_item s a Hr) as Hh.
  unfold task_inv, code_of, item_of in *.
  destruct (exec_cases _ _ _ Hex) as
    [(t & op & -> & E & ->)|[(kd & -> & E & ->)|[(a & i & k & f & -> & E & Hi & ->)
     |(t & i & cb & -> & Hlt & ->)]]]; simpl.
  - intros j. upds. intros Hj. destruct (IH j Hj). split; [done|]. by apply ids_mono.
  - intros j. upds. intros Hj. destruct (IH j Hj). split; [done|]. by apply ids_mono.
  - pose proof (Hv a) as Hva. unfold code_of in *. rewrite E in Hva.
    intros j. upds.
    + intros Hk. destruct (IH j) as [Hit Hs]; [by rewrite E|].
      split; [|by apply ids_mono].
      pose proof (agent_instr_ok _ _ _ Hva) as Hai.
      destruct (exec_instr_item _ _ _ _ _ Hi) as
        [(_ & _ & -> & _)|[(Hnw & _)|(kd & ? & ? & -> & _)]]; [done| |done].
      by destruct i.
    + destruct (exec_instr_spawn _ _ _ _ _ Hi) as [->|(kd & tx & -> & ->)].
      * intros Hj. destruct (IH j Hj). split; [done|]. by apply ids_mono.
      * pose proof (Hh a) as Hha. rewrite E in Hha. destruct Hha as [w Hw]; [done|].
        simpl in Hi. case_decide; [|done]. simplify_eq. cbn [e_item e_act].
        rewrite Hw. cbn [default]. upds.
        -- intros _. split; [done|]. rewrite ids_snoc. apply elem_of_app. right.
           simpl. apply list_elem_of_here.
        -- intros Hj. destruct (IH j Hj). split; [done|]. by apply ids_mono.
  - intros j Hj. destruct (IH j Hj). split; [done|]. by apply ids_mono.
Qed.

(** *** From the gate back to the counter increment *)

(** Only the worker's and the closure's unlock open a gate. *)
Lemma exec_instr_mtx a l i (s : Shared) f j :
  exec_instr app a l i s = Next f ->
  mtx (items (e_shared f) j) = false ->
  (mtx (items s j) = false /\ (is_new i = true -> j <> next s)) \/
  (j = default 0%nat (item l) /\ (i = IGateUnlock \/ i = IDeferUnlock)).
Proof.
  destruct i; simpl; intros H; repeat case_match; simplify_eq; simpl; auto.
  all: unfold insert, fn_insert; repeat case_decide; subst; simpl; auto.
  done.
Qed.

Lemma exec_instr_gate_open a l (s : Shared) f :
  exec_instr app a l IGateLock s = Next f ->
  mtx (items s (default 0%nat (item l))) = false.
Proof. simpl. by case_match. Qed.

Lemma sound_RAdded a k : valid_code a k -> sound_at RAdded never k = true.
Proof. revert a k. static_check. Qed.

Lemma reachable_chain s : reachable s -> chain_inv s.
Proof.
  induction 1 as [|s e s' Hr IH Hex].
  - repeat split; simpl; intros; try done;
      try match goal with H : _ ∈ [] |- _ => by apply elem_of_nil in H end. lia.
  - pose proof (reachable_valid _ Hr) as Hv.
    pose proof (reachable_bound _ Hr) as (B1 & B2 & B3).
    pose proof (reachable_task _ Hr) as HT.
    pose proof (fun a => reachable_WGcb_item s a Hr) as Hw.
    destruct IH as (K1 & K2 & K3 & K4 & K5 & K6 & K7).
    unfold chain_inv, task_inv, code_of, item_of in *.
    destruct (exec_cases _ _ _ Hex) as
      [(t & op & -> & E & ->)|[(kd & -> & E & ->)|[(a & i & k & f & -> & E & Hi & ->)
       |(t & i & cb & -> & Hlt & ->)]]]; simpl.
    + rewrite !ids_snoc, !app_nil_r. repeat split; try done.
      * intros b j. upds; [by destruct op | apply K1].
      * intros b j. upds; [by destruct op | apply K5].
    + rewrite !ids_snoc, !app_nil_r. repeat split; try done.
      * intros b j. upds; [done | apply K1].
      * intros b j. upds; [done | apply K5].
    + pose proof (Hv a) as Hva. unfold code_of in *. rewrite E in Hva.
      set (ev := {| actor := a; work := e_item f; act := e_act f |}).
      destruct (exec_instr_act _ _ _ _ _ (e_item f) Hi) as
        (Ea & Ed & _ & Es & Eo & _). fold ev in Ea, Ed, Es, Eo.
      assert (Hit : is_new i || is_recv_i i = false -> e_item f = item (agents s a)).
      { intros Hf. destruct (exec_instr_item _ _ _ _ _ Hi) as
          [(_ & _ & -> & _)|[(Hnw & _)|(kd & ? & ? & -> & _)]]; [done| |done].
        by rewrite Hnw in Hf. }
      assert (Hfo := fetch_outside _ _ _ Hva).
      assert (Hoth : forall (R : region) b, b <> a ->
                (forall kd tx, inside R (task_body kd tx) = false) ->
                inside R (code ((match e_spawn f with
                                 | Some (b0, lb) => <[b0:=lb]> (agents s)
                                 | None => agents s end) b)) = true ->
                inside R (code (agents s b)) = true /\
                item ((match e_spawn f with
                       | Some (b0, lb) => <[b0:=lb]> (agents s)
                       | None => agents s end) b) = item (agents s b)).
      { intros R b Hb St. destruct (exec_instr_spawn _ _ _ _ _ Hi) as [->|(kd & tx & -> & ->)];
          [done|]. upds; [by rewrite St | done]. }
      (* K1 *)
      assert (K1' : forall b j,
                inside RAdded (code (<[a:={| code := k; item := e_item f; res := e_res f |}]>
                   (match e_spawn f with
                    | Some (b0, lb) => <[b0:=lb]> (agents s)
                    | None => agents s end) b)) = true ->
                item (<[a:={| code := k; item := e_item f; res := e_res f |}]>
                   (match e_spawn f with
                    | Some (b0, lb) => <[b0:=lb]> (agents s)
                    | None => agents s end) b) = Some j ->
                j ∈ ids is_add (trace s ++ [ev])).
      { intros b j. upds.
        - rewrite (inside_next RAdded never i k (sound_RAdded _ _ Hva)).
          destruct (rel RAdded i) eqn:Hr'; [done|].
          destruct (acq RAdded i) eqn:Ha'.
          + intros _ Hj. apply ids_snoc_elem. right. split; [|done].
            rewrite Ea. exact Ha'.
          + intros Hin Hj. apply ids_mono. apply (K1 b); [by rewrite E|].
            rewrite <- Hit; [done|].
            destruct (is_new i || is_recv_i i) eqn:Hf; [|done].
            destruct (Hfo eq_refl) as [Hx _]. by rewrite Hx in Hin.
        - intros Hin Hj. apply Hoth in Hin as [Hin Hit']; [|done|done].
          apply ids_mono. apply (K1 b); [done|]. by rewrite <- Hit'. }
      (* K5 *)
      assert (K5' : forall b j,
                inside WPass (code (<[a:={| code := k; item := e_item f; res := e_res f |}]>
                   (match e_spawn f with
                    | Some (b0, lb) => <[b0:=lb]> (agents s)
                    | None => agents s end) b)) = true ->
                item (<[a:={| code := k; item := e_item f; res := e_res f |}]>
                   (match e_spawn f with
                    | Some (b0, lb) => <[b0:=lb]> (agents s)
                    | None => agents s end) b) = Some j ->
                j ∈ ids is_open (trace s ++ [ev])).
      { intros b j. upds.
        - rewrite (inside_next WPass need_pass i k (sound_WPass _ _ Hva)).
          destruct (rel WPass i) eqn:Hr'; [done|].
          destruct (acq WPass i) eqn:Ha'.
          + intros _ Hj. apply ids_mono. destruct i; try done.
            rewrite Hit in Hj by done. apply K4.
            * by eapply B1.
            * apply exec_instr_gate_open in Hi. by rewrite Hj in Hi.
          + intros Hin Hj. apply ids_mono. apply (K5 b); [by rewrite E|].
            rewrite <- Hit; [done|].
            destruct (is_new i || is_recv_i i) eqn:Hf; [|done].
            destruct (Hfo eq_refl) as [_ Hx]. by rewrite Hx in Hin.
        - intros Hin Hj. apply Hoth in Hin as [Hin Hit']; [|done|done].
          apply ids_mono. apply (K5 b); [done|]. by rewrite <- Hit'. }
      split; [exact K1'|]. split; [|split; [|split; [|split; [exact K5'|split]]]].
      * (* K2 *)
        intros j Hj. apply ids_snoc_elem in Hj as [Hj|[Hp Hwk]]; [by apply ids_mono, K2|].
        apply ids_mono. rewrite Es in Hp. simpl in Hwk.
        apply (K1 a); [rewrite E; simpl; by rewrite Hp|].
        rewrite <- Hit; [done|]. by destruct i.
      * (* K3 *)
        intros j Hj. apply ids_snoc_elem in Hj as [Hj|[Hp Hwk]]; [by apply ids_mono, K3|].
        apply ids_mono. rewrite Eo in Hp. simpl in Hwk.
        destruct (task_only _ _ _ Hva) as [j' ->]; [by destruct i|].
        destruct (HT j') as [Hj' Hs]; [by rewrite E|].
        rewrite Hit in Hwk by (by destruct i). rewrite Hj' in Hwk. by simplify_eq.
      * (* K4 *)
        intros j Hj Hm.
        destruct (exec_instr_mtx _ _ _ _ _ j Hi Hm) as [[Hm' Hnw]|[-> Hcase]].
        -- apply ids_mono, K4; [|done].
           rewrite (exec_instr_next _ _ _ _ _ Hi) in Hj.
           destruct (is_new i); [|done]. specialize (Hnw eq_refl). lia.
        -- destruct Hcase as [->| ->].
           ++ apply ids_mono.
              assert (Hin : inside WPass (IGateUnlock :: k) = true).
              { eapply inside_need; [by apply (sound_WPass a)|done]. }
              destruct (Hw a) as [w Hw']; [rewrite E; by eapply WPass_cur|].
              rewrite Hw'. apply (K5 a); [by rewrite E|done].
           ++ destruct (task_only _ _ _ Hva) as [j' ->]; [done|].
              destruct (HT j') as [Hj' Hs]; [by rewrite E|].
              apply ids_snoc_elem. right. split; [by rewrite Eo|].
              simpl. rewrite Hit by done. by rewrite Hj'.
      * (* K6 *)
        intros j Hj. apply ids_snoc_elem in Hj as [Hj|[Hp Hwk]]; [by apply ids_mono, K6|].
        apply ids_mono. rewrite Ed in Hp. simpl in Hwk.
        rewrite Hit in Hwk by (by destruct i).
        apply K2, K3. apply (K5 a); [|done]. rewrite E.
        eapply inside_need; [by apply (sound_WPass a)|]. by destruct i.
      * (* K7 *)
        intros j Hj. apply ids_snoc_elem in Hj as [Hj|[Hp Hwk]]; [by apply ids_mono, K7|].
        apply ids_mono. rewrite Ed in Hp. simpl in Hwk.
        rewrite Hit in Hwk by (by destruct i).
        apply (K5 a); [|done]. rewrite E.
        eapply inside_need; [by apply (sound_WPass a)|]. by destruct i.
    + rewrite !ids_snoc, !app_nil_r. repeat split; try done.
      intros j Hj. unfold insert, fn_insert. case_decide; [subst; simpl|]; by apply K4.
Qed.

(** *** The in-flight counter *)

Lemma exec_instr_wg a l i (s : Shared) f :
  exec_instr app a l i s = Next f ->
  wgCommit (e_shared f) =
    wgCommit s + (if is_add_i i then 1 else 0) - (if is_wgdone_i i then 1 else 0).
Proof. destruct i; simpl; intros H; repeat case_match; simplify_eq; simpl; lia. Qed.

Lemma sound_WDone a k : valid_code a k -> sound_at WDone is_wgdone_i k = true.
Proof. revert a k. static_check. Qed.

(** What a statement does to the enqueued, uncounted items. *)
Lemma pending_step s a i k f :
  reachable s -> code_of s a = i :: k ->
  exec_instr app a (agents s a) i (sh s) = Next f ->
  match i with
  | ISend _ => pending (apply_effect a k f s) ≡ₚ
                 pending s ++ [default 0%nat (item_of s a)]
  | IWgDone => exists j, item_of s a = Some j /\
                 pending s ≡ₚ j :: pending (apply_effect a k f s)
  | _ => pending (apply_effect a k f s) = pending s
  end.
Proof.
  intros Hr E Hi. pose proof (reachable_valid _ Hr a) as Hva. rewrite E in Hva.
  pose proof (agent_instr_ok _ _ _ Hva) as Hk.
  pose proof (fun kd => exec_instr_queues _ _ _ _ _ kd Hi) as Hq.
  pose proof (reachable_WGcb_item s a Hr) as Hw. rewrite E in Hw.
  unfold pending, pending_of, cur_of, code_of, item_of in *. simpl.
  destruct a as [t|kd|j]; simpl in Hk.
  - assert (Hsame : forall kd,
      agents (apply_effect (Caller t) k f s) (Worker kd) = agents s (Worker kd)).
    { intros kd. simpl. upds.
      destruct (exec_instr_spawn _ _ _ _ _ Hi) as [->|(kd' & tx & -> & ->)]; [done|].
      by upds. }
    simpl in Hsame. rewrite !Hsame, !Hq.
    destruct i as [| | | | | | | | | |[]| | | | | | | | | | | | | | | |]; try done;
      simpl; solve_Permutation.
  - assert (Hsame : forall kd', kd' <> kd ->
      agents (apply_effect (Worker kd) k f s) (Worker kd') = agents s (Worker kd')).
    { intros kd' Hne. simpl. upds.
      destruct (exec_instr_spawn _ _ _ _ _ Hi) as [->|(kd'' & tx & -> & ->)]; [done|].
      by upds. }
    assert (Hme : agents (apply_effect (Worker kd) k f s) (Worker kd)
                  = {| code := k; item := e_item f; res := e_res f |}).
    { simpl. by upds. }
    simpl in Hsame, Hme.
    pose proof (inside_next WDone is_wgdone_i i k (sound_WDone _ _ Hva)) as Hn.
    assert (Hit : is_recv_i i = false -> e_item f = item (agents s (Worker kd))).
    { intros Hf. destruct (exec_instr_item _ _ _ _ _ Hi) as
        [(_ & _ & -> & _)|[(Hnw & _)|(kd' & ? & ? & -> & _)]]; [done| |done].
      by destruct i. }
    destruct kd.
    + rewrite Hme, (Hsame Deliver) by done. cbn [code item]. rewrite !Hq, Hn, E.
      destruct i; try done; try (rewrite Hit by done; done).
      * destruct Hw as [j Hj].
        { eapply inside_need; [by apply (sound_WGcb (Worker Check))|done]. }
        exists j. split; [done|]. cbn. rewrite Hj. done.
      * apply bool_decide_eq_true in Hk as ->. simpl in Hi.
        destruct (queues (sh s) Check) eqn:Hqq; [done|]. simplify_eq. done.
    + rewrite Hme, (Hsame Check) by done. cbn [code item]. rewrite !Hq, Hn, E.
      destruct i; try done; try (rewrite Hit by done; done).
      * destruct Hw as [j Hj].
        { eapply inside_need; [by apply (sound_WGcb (Worker Deliver))|done]. }
        exists j. split; [done|]. cbn. rewrite Hj. solve_Permutation.
      * apply bool_decide_eq_true in Hk as ->. simpl in Hi.
        destruct (queues (sh s) Deliver) eqn:Hqq; [done|]. simplify_eq. done.
  - assert (Hsame : forall kd,
      agents (apply_effect (Task j) k f s) (Worker kd) = agents s (Worker kd)).
    { intros kd. simpl. upds.
      destruct (exec_instr_spawn _ _ _ _ _ Hi) as [->|(kd' & tx & -> & ->)]; [done|].
      by upds. }
    simpl in Hsame. rewrite !Hsame, !Hq. by destruct i.
Qed.

Lemma pending_enter (s : State) a body x :
  inside WDone body = false -> inside WDone (code_of s a) = false ->
  pending (enter a body x s) = pending s.
Proof.
  intros Hb Ha. unfold pending, pending_of, cur_of, code_of, item_of in *. simpl.
  f_equal; f_equal; upds; by rewrite ?Hb, ?Ha.
Qed.

Lemma reachable_counter s : reachable s -> counter_inv s.
Proof.
  induction 1 as [|s e s' Hr IH Hex].
  - split; [constructor|]. split; [intros j Hj; by apply elem_of_nil in Hj|].
    split; [constructor|]. split; [constructor|]. done.
  - pose proof (reachable_valid _ Hr) as Hv.
    pose proof (reachable_chain _ Hr) as (K1 & K2 & K3 & K4 & K5 & K6 & K7).
    destruct IH as (Q1 & Q2 & Q3 & Q4 & Q5).
    unfold counter_inv in *.
    destruct (exec_cases _ _ _ Hex) as
      [(t & op & -> & E & ->)|[(kd & -> & E & ->)|[(a & i & k & f & -> & E & Hi & ->)
       |(t & i & cb & -> & Hlt & ->)]]].
    + rewrite pending_enter; [|by destruct op|by rewrite E].
      simpl. rewrite !ids_snoc, !app_nil_r. done.
    + rewrite pending_enter; [|done|by rewrite E].
      simpl. rewrite !ids_snoc, !app_nil_r. done.
    + pose proof (Hv a) as Hva. rewrite E in Hva.
      pose proof (pending_step s a i k f Hr E Hi) as Hp.
      destruct (exec_instr_act _ _ _ _ _ (e_item f) Hi) as (Ea & Ed & Es & _).
      pose proof (exec_instr_wg _ _ _ _ _ Hi) as Hwg.
      assert (Hit : is_new i || is_recv_i i = false -> e_item f = item_of s a).
      { intros Hf. destruct (exec_instr_item _ _ _ _ _ Hi) as
          [(_ & _ & -> & _)|[(Hnw & _)|(kd & ? & ? & -> & _)]]; [done| |done].
        by rewrite Hnw in Hf. }
      cbn [apply_effect sh trace] in *. rewrite !ids_snoc, Ea, Ed, Es, Hwg.
      destruct (is_send_i i) eqn:Hs; [|destruct (is_wgdone_i i) eqn:Hd;
                                       [|destruct (is_add_i i) eqn:Hadd]].
      * (* send *)
        destruct i; try done. cbn [is_add_i is_wgdone_i]. rewrite !app_nil_r.
        rewrite Hit in * by done.
        destruct (reachable_RSub_item s a Hr) as [w Hw].
        { rewrite E. eapply inside_need; [by apply (sound_RSub a)|done]. }
        rewrite Hw in *. cbn in Hp.
        assert (Hfs : w ∉ ids is_send (trace s)).
        { apply (reachable_fresh_send _ Hr a); [by rewrite E|done]. }
        assert (Hfa : w ∉ ids is_add (trace s)).
        { apply (reachable_fresh_add _ Hr a); [|done]. rewrite E.
          eapply inside_need; [by apply (sound_RAdd a)|done]. }
        split; [|split; [|split; [done|split; [done|lia]]]].
        -- rewrite Hp. apply list.NoDup_app. split; [done|]. split; [|apply NoDup_singleton].
           intros x Hx Hx'. apply list_elem_of_singleton in Hx'. subst.
           by apply Q2 in Hx as [Hx _].
        -- intros x. rewrite Hp, !elem_of_app, list_elem_of_singleton.
           intros [Hx| ->].
           ++ apply Q2 in Hx as [Hx Hx']. auto.
           ++ split; [right; apply list_elem_of_here|]. intros Hd'. by apply K6 in Hd'.
      * (* done *)
        destruct i; try done. cbn [is_add_i]. rewrite !app_nil_r.
        rewrite Hit in * by done.
        destruct Hp as (w & Hw & Hp). rewrite Hw in *. cbn.
        assert (Hin : w ∈ pending s) by (rewrite Hp; apply list_elem_of_here).
        rewrite Hp in Q1. apply list.NoDup_cons in Q1 as [Hnin Q1].
        split; [done|]. split; [|split; [done|split]].
        -- intros x Hx. destruct (Q2 x) as [Hx1 Hx2].
           { rewrite Hp. by apply list_elem_of_further. }
           split; [done|]. rewrite elem_of_app, list_elem_of_singleton.
           intros [?| ->]; done.
        -- apply list.NoDup_app. split; [done|]. split; [|apply NoDup_singleton].
           intros x Hx Hx'. apply list_elem_of_singleton in Hx'. subst.
           by apply Q2 in Hin as [_ Hin].
        -- rewrite length_app. simpl. lia.
      * (* add *)
        destruct i; try done. rewrite !app_nil_r.
        rewrite Hit in * by done. rewrite Hp.
        destruct (reachable_RSub_item s a Hr) as [w Hw].
        { rewrite E. eapply inside_need; [by apply (sound_RSub a)|done]. }
        rewrite Hw in *. cbn.
        assert (Hfa : w ∉ ids is_add (trace s)).
        { apply (reachable_fresh_add _ Hr a); [by rewrite E|done]. }
        split; [done|]. split; [done|]. split; [|split; [done|]].
        -- apply list.NoDup_app. split; [done|]. split; [|apply NoDup_singleton].
           intros x Hx Hx'. apply list_elem_of_singleton in Hx'. by subst.
        -- rewrite length_app. simpl. lia.
      * (* any other statement *)
        rewrite !app_nil_r.
        assert (Hp' : pending (apply_effect a k f s) = pending s) by (by destruct i).
        cbn [apply_effect] in Hp'. rewrite Hp'. repeat split; try done.
        -- by apply Q2.
        -- by apply Q2.
        -- lia.
    + assert (Hp : pending {| sh := set_item i (set_rr_cb (Some cb) (items (sh s) i)) (sh s);
                              agents := agents s;
                              trace := trace s ++ [{| actor := Caller t; work := Some i;
                                                      act := AAttach cb |}] |}
                   = pending s) by done.
      rewrite Hp. simpl. rewrite !ids_snoc, !app_nil_r. done.
Qed.

(** The counter is never negative, and [Done] never finds it at zero. *)
Lemma reachable_counter_nonneg s : reachable s -> 0 <= wgCommit (sh s).
Proof.
  intros Hr. destruct (reachable_counter _ Hr) as (_ & _ & Q3 & Q4 & ->).
  destruct (reachable_chain _ Hr) as (_ & _ & _ & _ & _ & K6 & _).
  assert (length (ids is_done (trace s)) <= length (ids is_add (trace s)))%nat; [|lia].
  apply submseteq_length, NoDup_submseteq; done.
Qed.

(** *** Prefixes of the trace *)

Lemma exec_trace e s s' :
  exec app e s = Next s' -> exists ev, trace s' = trace s ++ [ev].
Proof.
  intros Hex. destruct (exec_cases _ _ _ Hex) as
    [(t & op & -> & E & ->)|[(kd & -> & E & ->)|[(a & i & k & f & -> & E & Hi & ->)
     |(t & i & cb & -> & Hlt & ->)]]]; simpl; eauto.
Qed.

Lemma snoc_split {X} (l tr1 tr2 : list X) x e :
  l ++ [x] = tr1 ++ e :: tr2 ->
  (tr2 = [] /\ l = tr1 /\ x = e) \/ (exists tr2', tr2 = tr2' ++ [x] /\ l = tr1 ++ e :: tr2').
Proof.
  induction tr2 as [|y tr2' _] using rev_ind.
  - intros H. apply app_inj_tail in H as [-> ->]. by left.
  - rewrite app_comm_cons, app_assoc. intros H. apply app_inj_tail in H as [-> ->].
    right. by exists tr2'.
Qed.

(** A prefix of the trace of a reachable state is the trace of a
    reachable state. *)
Lemma reachable_prefix s tr1 e tr2 :
  reachable s -> trace s = tr1 ++ e :: tr2 ->
  exists s1, reachable s1 /\ trace s1 = tr1 ++ [e].
Proof.
  intros Hr. revert tr1 e tr2. induction Hr as [|s ev s' Hr IH Hex]; intros tr1 e tr2.
  - simpl. intros H. by destruct tr1.
  - destruct (exec_trace _ _ _ Hex) as [x Hx]. rewrite Hx. intros H.
    apply snoc_split in H as [(-> & Heq & ->)|(tr2' & -> & Heq)].
    + exists s'. split; [by eapply reach_step|]. by rewrite Hx, Heq.
    + by eapply IH.
Qed.

Lemma reachable_counted s : reachable s -> counted_inv s.
Proof.
  induction 1 as [|s e s' Hr IH Hex].
  - intros e He. by apply elem_of_nil in He.
  - pose proof (reachable_valid _ Hr) as Hv. unfold counted_inv in *.
    destruct (exec_cases _ _ _ Hex) as
      [(t & op & -> & E & ->)|[(kd & -> & E & ->)|[(a & i & k & f & -> & E & Hi & ->)
       |(t & i & cb & -> & Hlt & ->)]]]; simpl; intros e He;
      apply elem_of_app in He as [He|He]; try (by apply IH);
      apply list_elem_of_singleton in He; subst e; try done.
    pose proof (Hv a) as Hva. rewrite E in Hva.
    destruct (exec_instr_act _ _ _ _ _ (e_item f) Hi) as (Ea & Ed & _).
    rewrite Ea, Ed. cbn [work actor].
    assert (Hit : is_new i || is_recv_i i = false -> e_item f = item_of s a).
    { intros Hf. destruct (exec_instr_item _ _ _ _ _ Hi) as
        [(_ & _ & -> & _)|[(Hnw & _)|(kd & ? & ? & -> & _)]]; [done| |done].
      by rewrite Hnw in Hf. }
    split.
    + intros Hadd. rewrite Hit by (by destruct i). apply (reachable_RSub_item s a Hr).
      rewrite E. eapply inside_need; [by apply (sound_RSub a)|]. by destruct i.
    + intros Hd. split.
      * rewrite Hit by (by destruct i). apply (reachable_WGcb_item s a Hr).
        rewrite E. eapply inside_need; [by apply (sound_WGcb a)|]. by destruct i.
      * pose proof (agent_instr_ok _ _ _ Hva) as Hk.
        destruct a as [t|kd|j]; [by destruct i|by exists kd|by destruct i].
Qed.

(** A decrement finds the counter positive. *)
Lemma done_counter_pos s a :
  reachable s -> at_instr is_wgdone_i s a = true -> 0 < wgCommit (sh s).
Proof.
  intros Hr Hat. unfold at_instr in Hat.
  destruct (code_of s a) as [|i k] eqn:E; [done|]. destruct i; try done.
  pose proof (reachable_valid _ Hr a) as Hva. rewrite E in Hva.
  destruct (reachable_counter _ Hr) as (Q1 & Q2 & Q3 & Q4 & ->).
  destruct (reachable_chain _ Hr) as (_ & K2 & K3 & _ & K5 & K6 & _).
  destruct (reachable_WGcb_item s a Hr) as [j Hj].
  { rewrite E. eapply inside_need; [by apply (sound_WGcb a)|done]. }
  assert (Hadd : j ∈ ids is_add (trace s)).
  { apply K2, K3, (K5 a); [|done]. rewrite E.
    eapply inside_need; [by apply (sound_WPass a)|done]. }
  assert (Hnd : j ∉ ids is_done (trace s)).
  { apply Q2. pose proof (agent_instr_ok _ _ _ Hva) as Hk.
    destruct a as [t|kd|j']; [done| |done].
    unfold pending, pending_of, cur_of.
    destruct kd; rewrite E, Hj; simpl; [apply list_elem_of_here|].
    apply elem_of_app. right. apply list_elem_of_here. }
  assert (length (j :: ids is_done (trace s)) <= length (ids is_add (trace s)))%nat.
  { apply submseteq_length, NoDup_submseteq.
    - by apply list.NoDup_cons.
    - intros x Hx. apply elem_of_cons in Hx as [->|Hx]; [done|by apply K6]. }
  simpl in *. lia.
Qed.

(** *** Settling an item *)

Lemma exec_instr_gcb a l i k (s : Shared) f w :
  exec_instr app a l i s = Next f -> valid_code a (i :: k) ->
  is_gcb {| actor := a; work := w; act := e_act f |} = is_itemcb_i i /\
  is_cbstep {| actor := a; work := w; act := e_act f |} = is_reqcb_i i.
Proof.
  intros Hi Hv. apply agent_instr_ok in Hv.
  destruct i; simpl in Hi; repeat case_match; simplify_eq; try done.
  all: by destruct a.
Qed.

Lemma WGcb_start : starts_outside WGcb.
Proof. repeat split; intros; try done. by destruct op. Qed.

Lemma new_outside_WGcb a i k :
  valid_code a (i :: k) -> is_new i = true -> inside WGcb (i :: k) = false.
Proof.
  intros H. revert a H.
  assert (Hs : forall a k, valid_code a k ->
            match k with
            | i :: _ => implb (is_new i) (negb (inside WGcb k))
            | [] => true
            end = true) by static_check.
  intros a H Hi. specialize (Hs _ _ H). simpl in Hs. rewrite Hi in Hs. simpl in Hs.
  by apply negb_true_iff in Hs.
Qed.

Section Progress.

Variables (WX : region) (PX : Event -> bool).
Hypothesis X_sound : forall a k, valid_code a k -> sound_at WX never k = true.
Hypothesis X_acq : forall i, acq WX i = is_recv_i i.
Hypothesis X_before : forall a i k, valid_code a (i :: k) ->
  (is_itemcb_i i = true -> inside WX (i :: k) = false) /\
  (rel WX i = true -> inside WGcb (i :: k) = true /\ is_itemcb_i i = false).
Hypothesis P_rel : forall a l i (s : Shared) f w,
  exec_instr app a l i s = Next f ->
  PX {| actor := a; work := w; act := e_act f |} = rel WX i.
Hypothesis P_call : forall a w op, PX {| actor := a; work := w; act := ACall op |} = false.
Hypothesis P_loop : forall a w, PX {| actor := a; work := w; act := ALoop |} = false.
Hypothesis P_attach : forall a w cb, PX {| actor := a; work := w; act := AAttach cb |} = false.

Lemma reachable_progress s : reachable s -> progress_inv WX PX s.
Proof.
  induction 1 as [|s e s' Hr IH Hex].
  - split; [done|]. intros j Hj. by apply elem_of_nil in Hj.
  - pose proof (reachable_valid _ Hr) as Hv.
    destruct IH as [I1 I2]. destruct WGcb_start as (Sb & Sw & St).
    unfold progress_inv, code_of, item_of in *.
    destruct (exec_cases _ _ _ Hex) as
      [(t & op & -> & E & ->)|[(kd & -> & E & ->)|[(a & i & k & f & -> & E & Hi & ->)
       |(t & i & cb & -> & Hlt & ->)]]]; simpl.
    + rewrite !ids_snoc, P_call, !app_nil_r. split; [|done].
      intros b j. upds; [by rewrite Sb | apply I1].
    + rewrite !ids_snoc, P_loop, !app_nil_r. split; [|done].
      intros b j. upds; [by rewrite Sw | apply I1].
    + pose proof (Hv a) as Hva. unfold code_of in *. rewrite E in Hva.
      pose proof (inside_next WGcb need_pass i k (sound_WGcb _ _ Hva)) as Hn.
      pose proof (inside_next WX never i k (X_sound _ _ Hva)) as Hx.
      destruct (X_before _ _ _ Hva) as [Xb Xr].
      destruct (exec_instr_gcb _ _ _ _ _ _ (e_item f) Hi Hva) as [Eg _].
      assert (Hit : is_recv_i i = false -> inside WGcb (i :: k) = true ->
                e_item f = item (agents s a)).
      { intros Hf Hin. destruct (exec_instr_item _ _ _ _ _ Hi) as
          [(_ & _ & -> & _)|[(Hnw & _)|(kd & ? & ? & -> & _)]]; [done| |done].
        by rewrite (new_outside_WGcb _ _ _ Hva Hnw) in Hin. }
      split.
      * intros b j. rewrite ids_snoc, (P_rel _ _ _ _ _ _ Hi). cbn [work]. upds.
        -- rewrite Hn, Hx, X_acq. change (rel WGcb i) with (is_itemcb_i i).
           change (acq WGcb i) with (is_recv_i i).
           destruct (is_itemcb_i i) eqn:Hcb; [done|].
           destruct (rel WX i) eqn:Hr'.
           ++ intros _ _ ->. apply elem_of_app. right. apply list_elem_of_here.
           ++ destruct (is_recv_i i) eqn:Hrc; [done|].
              intros Hin Hout Hj. rewrite app_nil_r. apply (I1 b); [by rewrite E..|].
              rewrite <- Hit; done.
        -- intros Hin Hout Hj. apply elem_of_app. left. apply (I1 b).
           ++ destruct (exec_instr_spawn _ _ _ _ _ Hi) as [Hsp|(kd & tx & -> & Hsp)];
                rewrite Hsp in Hin; [done|]. revert Hin. upds; [by rewrite St|done].
           ++ destruct (exec_instr_spawn _ _ _ _ _ Hi) as [Hsp|(kd & tx & -> & Hsp)];
                rewrite Hsp in Hin, Hout; [done|]. revert Hin Hout. upds; [by rewrite St|done].
           ++ destruct (exec_instr_spawn _ _ _ _ _ Hi) as [Hsp|(kd & tx & -> & Hsp)];
                rewrite Hsp in Hin, Hj; [done|]. revert Hin Hj. upds; [by rewrite St|done].
      * intros j. rewrite !ids_snoc_elem, Eg, (P_rel _ _ _ _ _ _ Hi). cbn [work].
        intros [Hj|[Hcb Hj]]; [left; by apply I2|]. left.
        assert (Hin : inside WGcb (i :: k) = true) by (simpl; by rewrite Hcb).
        apply (I1 a); [by rewrite E|rewrite E; by apply Xb|].
        rewrite <- Hit; [done| by destruct i|done].
    + rewrite !ids_snoc, P_attach, !app_nil_r. done.
Qed.

End Progress.

Lemma before_gcb (WX : region) :
  (forall op, forallb (fun k => match k with
                       | i :: _ => implb (is_itemcb_i i) (negb (inside WX k))
                                   && implb (rel WX i) (inside WGcb k && negb (is_itemcb_i i))
                       | [] => true end) (tails (body op)) = true) ->
  (forall kd, forallb (fun k => match k with
                       | i :: _ => implb (is_itemcb_i i) (negb (inside WX k))
                                   && implb (rel WX i) (inside WGcb k && negb (is_itemcb_i i))
                       | [] => true end) (tails (worker_body kd)) = true) ->
  (forall kd tx, forallb (fun k => match k with
                       | i :: _ => implb (is_itemcb_i i) (negb (inside WX k))
                                   && implb (rel WX i) (inside WGcb k && negb (is_itemcb_i i))
                       | [] => true end) (tails (task_body kd tx)) = true) ->
  forall a i k, valid_code a (i :: k) ->
    (is_itemcb_i i = true -> inside WX (i :: k) = false) /\
    (rel WX i = true -> inside WGcb (i :: k) = true /\ is_itemcb_i i = false).
Proof.
  intros Hb Hw Ht a i k Hv.
  pose proof (static_fact _ Hb Hw Ht a _ Hv) as H. cbv beta iota in H.
  apply andb_true_iff in H as [H1 H2]. split.
  - intros Hi. rewrite Hi in H1. simpl in H1. by apply negb_true_iff in H1.
  - intros Hi. rewrite Hi in H2. simpl in H2. apply andb_true_iff in H2 as [H2 H3].
    by apply negb_true_iff in H3.
Qed.

Lemma sound_WReal a k : valid_code a k -> sound_at WReal never k = true.
Proof. revert a k. static_check. Qed.

Lemma sound_WRRD a k : valid_code a k -> sound_at WRRD never k = true.
Proof. revert a k. static_check. Qed.

Lemma sound_WDone_never a k : valid_code a k -> sound_at WDone never k = true.
Proof. revert a k. static_check. Qed.

Lemma sound_WCb a k : valid_code a k -> sound_at WCb never k = true.
Proof. revert a k. static_check. Qed.

Lemma reachable_attempted s : reachable s -> progress_inv WReal is_attempt s.
Proof.
  apply reachable_progress; try done.
  - apply sound_WReal.
  - apply before_gcb; [intros []; reflexivity | intros []; reflexivity | intros [] ?; reflexivity].
  - intros a l i sh f w Hi.
    by destruct (exec_instr_act a l i sh f w Hi) as (_ & _ & _ & _ & _ & _ & -> & _).
Qed.

Lemma reachable_marked s : reachable s -> progress_inv WRRD is_rrdone s.
Proof.
  apply reachable_progress; try done.
  - apply sound_WRRD.
  - apply before_gcb; [intros []; reflexivity | intros []; reflexivity | intros [] ?; reflexivity].
  - intros a l i sh f w Hi.
    by destruct (exec_instr_act a l i sh f w Hi) as (_ & _ & _ & _ & _ & _ & _ & -> & _).
Qed.

Lemma reachable_counted_down s : reachable s -> progress_inv WDone is_done s.
Proof.
  apply reachable_progress; try done.
  - apply sound_WDone_never.
  - apply before_gcb; [intros []; reflexivity | intros []; reflexivity | intros [] ?; reflexivity].
  - intros a l i sh f w Hi.
    by destruct (exec_instr_act a l i sh f w Hi) as (_ & -> & _).
Qed.

Lemma reachable_called_back s : reachable s -> progress_inv WCb is_cbstep s.
Proof.
  apply reachable_progress; try done.
  - apply sound_WCb.
  - apply before_gcb; [intros []; reflexivity | intros []; reflexivity | intros [] ?; reflexivity].
  - intros a l i sh f w Hi.
    by destruct (exec_instr_act a l i sh f w Hi) as (_ & _ & _ & _ & _ & _ & _ & _ & ->).
Qed.

(** A response, once set, stays set; the worker's real-call statement
    leaves one. *)
Lemma exec_instr_response a l i (s : Shared) f j :
  exec_instr app a l i s = Next f -> (j < next s)%nat ->
  Response (reqRes (items s j)) <> None ->
  Response (reqRes (items (e_shared f) j)) <> None.
Proof.
  destruct i; simpl; intros H; repeat case_match; simplify_eq; simpl; try done.
  all: unfold insert, fn_insert; repeat case_decide; subst; simpl; try done; lia.
Qed.

Lemma exec_instr_real_response a l kd (s : Shared) f :
  exec_instr app a l (IReal kd) s = Next f ->
  Response (reqRes (items (e_shared f) (default 0%nat (item l)))) <> None.
Proof.
  simpl. intros H. repeat case_match; simplify_eq; simpl.
  - congruence.
  - by rewrite fn_lookup_insert.
Qed.

Lemma reachable_response s : reachable s -> response_inv s.
Proof.
  induction 1 as [|s e s' Hr IH Hex].
  - intros j Hj. by apply elem_of_nil in Hj.
  - pose proof (reachable_valid _ Hr) as Hv.
    pose proof (reachable_bound _ Hr) as (B1 & B2 & B3).
    unfold response_inv in *.
    destruct (exec_cases _ _ _ Hex) as
      [(t & op & -> & E & ->)|[(kd & -> & E & ->)|[(a & i & k & f & -> & E & Hi & ->)
       |(t & i & cb & -> & Hlt & ->)]]]; simpl.
    + intros j. rewrite ids_snoc, app_nil_r. apply IH.
    + intros j. rewrite ids_snoc, app_nil_r. apply IH.
    + pose proof (Hv a) as Hva. rewrite E in Hva.
      destruct (exec_instr_act _ _ _ _ _ (e_item f) Hi) as (_ & _ & _ & _ & _ & _ & Ea & _).
      intros j. rewrite ids_snoc_elem, Ea. cbn [work]. intros [Hj|[Hre Hj]].
      * eapply exec_instr_response; [done| |by apply IH].
        apply ids_work in Hj as (ev & Hev & Hw). by eapply B3.
      * destruct i; try done.
        pose proof (exec_instr_real_response _ _ _ _ _ Hi) as Hres.
        destruct (exec_instr_item _ _ _ _ _ Hi) as
          [(_ & _ & Hit & _)|[(Hnw & _)|(kd & ? & ? & ? & _)]]; [|done..].
        rewrite Hit in Hj. by rewrite Hj in Hres.
    + intros j. rewrite ids_snoc, app_nil_r. intros Hj. specialize (IH j Hj).
      unfold insert, fn_insert. by case_decide; subst.
Qed.

(** Between the counter decrement and the global callback the worker is
    inside the write section. *)
Lemma settling_in_RW a k :
  valid_code a k -> inside WGcb k = true -> inside WDone k = false ->
  inside RW k = true.
Proof.
  intros H. revert a k H.
  assert (Hs : forall a k, valid_code a k ->
            implb (inside WGcb k && negb (inside WDone k)) (inside RW k) = true)
    by static_check.
  intros a k H H1 H2. specialize (Hs _ _ H). by rewrite H1, H2 in Hs.
Qed.

Lemma reachable_settling s : reachable s -> settling_inv s.
Proof.
  induction 1 as [|s e s' Hr IH Hex].
  - intros j Hj. by apply elem_of_nil in Hj.
  - pose proof (reachable_valid _ Hr) as Hv.
    unfold settling_inv, code_of, item_of in *.
    destruct (exec_cases _ _ _ Hex) as
      [(t & op & -> & E & ->)|[(kd & -> & E & ->)|[(a & i & k & f & -> & E & Hi & ->)
       |(t & i & cb & -> & Hlt & ->)]]]; simpl.
    + intros j. rewrite !ids_snoc, !app_nil_r. intros Hj.
      destruct (IH j Hj) as [?|(kd & ? & ? & ?)]; [by left|right].
      exists kd. by upds.
    + intros j. rewrite !ids_snoc, !app_nil_r. intros Hj.
      destruct (IH j Hj) as [?|(kd' & H1 & ? & ?)]; [by left|right].
      exists kd'. upds; [|done]. unfold code_of in E. by rewrite E in H1.
    + pose proof (Hv a) as Hva. unfold code_of in *. rewrite E in Hva.
      pose proof (inside_next WGcb need_pass i k (sound_WGcb _ _ Hva)) as Hn.
      pose proof (inside_next WDone is_wgdone_i i k (sound_WDone _ _ Hva)) as Hd.
      destruct (exec_instr_gcb _ _ _ _ _ _ (e_item f) Hi Hva) as [Eg _].
      destruct (exec_instr_act _ _ _ _ _ (e_item f) Hi) as (_ & Ed & _).
      pose proof (agent_instr_ok _ _ _ Hva) as Hk.
      assert (Hit : is_recv_i i = false -> inside WGcb (i :: k) = true ->
                e_item f = item (agents s a)).
      { intros Hf Hin. destruct (exec_instr_item _ _ _ _ _ Hi) as
          [(_ & _ & -> & _)|[(Hnw & _)|(kd & ? & ? & -> & _)]]; [done| |done].
        by rewrite (new_outside_WGcb _ _ _ Hva Hnw) in Hin. }
      assert (Hstay : forall kd j,
                inside WGcb (code (agents s (Worker kd))) = true ->
                inside WDone (code (agents s (Worker kd))) = false ->
                item (agents s (Worker kd)) = Some j ->
                j ∈ ids is_gcb (trace s ++ [{| actor := a; work := e_item f;
                                               act := e_act f |}]) \/
                exists kd0,
                  inside WGcb (code (<[a:={| code := k; item := e_item f; res := e_res f |}]>
                     (match e_spawn f with
                      | Some (b0, lb) => <[b0:=lb]> (agents s)
                      | None => agents s end) (Worker kd0))) = true /\
                  inside WDone (code (<[a:={| code := k; item := e_item f; res := e_res f |}]>
                     (match e_spawn f with
                      | Some (b0, lb) => <[b0:=lb]> (agents s)
                      | None => agents s end) (Worker kd0))) = false /\
                  item (<[a:={| code := k; item := e_item f; res := e_res f |}]>
                     (match e_spawn f with
                      | Some (b0, lb) => <[b0:=lb]> (agents s)
                      | None => agents s end) (Worker kd0)) = Some j).
      { intros kd j H1 H2 H3. destruct (decide (a = Worker kd)) as [->|Hne].
        - rewrite E in H1, H2.
          destruct (is_itemcb_i i) eqn:Hcb.
          + left. apply ids_snoc_elem. right. rewrite Eg. split; [done|]. simpl.
            rewrite Hit; [done|by destruct i|done].
          + right. exists kd. upds. rewrite Hn, Hd.
            change (rel WGcb i) with (is_itemcb_i i). rewrite Hcb.
            change (acq WGcb i) with (is_recv_i i). change (acq WDone i) with (is_recv_i i).
            destruct (is_recv_i i) eqn:Hrc.
            { by destruct i. }
            rewrite H1, H2. split; [done|]. split; [by destruct (rel WDone i)|].
            rewrite Hit; done.
        - right. exists kd. upds.
          destruct (exec_instr_spawn _ _ _ _ _ Hi) as [->|(kd' & tx & -> & ->)]; [done|].
          by upds. }
      intros j. rewrite ids_snoc_elem, Ed. cbn [work]. intros [Hj|[Hdn Hj]].
      * destruct (IH j Hj) as [Hg|(kd & H1 & H2 & H3)].
        -- left. by apply ids_mono.
        -- by eapply Hstay.
      * destruct a as [t|kd|j']; [by destruct i| |by destruct i].
        right. exists kd. upds. rewrite Hn, Hd. destruct i; try done. simpl.
        assert (Hin : inside WGcb (IWgDone :: k) = true).
        { eapply inside_need; [by apply (sound_WGcb (Worker kd))|done]. }
        simpl in Hin. done.
    + intros j. rewrite !ids_snoc, !app_nil_r. apply IH.
Qed.

(** *** Order of delivery *)

Lemma exec_instr_order a l i k (s : Shared) f w kd :
  exec_instr app a l i s = Next f -> valid_code a (i :: k) ->
  let ev := {| actor := a; work := w; act := e_act f |} in
  is_send_to kd ev = is_send_to_i kd i /\
  is_gcb_of kd ev = is_itemcb_i i && bool_decide (a = Worker kd) /\
  (is_real_of kd ev = true -> is_real_i i = true /\ a = Worker kd) /\
  (is_cb_of kd ev = true -> is_reqcb_i i = true /\ a = Worker kd) /\
  is_admit ev = is_admit_i i.
Proof.
  intros Hi Hv. apply agent_instr_ok in Hv.
  destruct i; simpl in Hi; repeat case_match; simplify_eq; cbn; repeat split;
    try done; try (by intros ?%bool_decide_eq_true).
  all: try (by destruct a). 
  all: try (destruct kd; by repeat case_bool_decide).
Qed.

Lemma sublist_snoc_opt (b : bool) (o : option nat) (l m : list nat) :
  l `sublist_of` m ++ [] ->
  l ++ (if b then option_list o else []) `sublist_of` m ++ option_list o.
Proof.
  rewrite app_nil_r. intros H. apply sublist_app; [done|].
  destruct b; [done|apply sublist_nil_l].
Qed.

Lemma reachable_order kd s : reachable s -> order_inv kd s.
Proof.
  induction 1 as [|s e s' Hr IH Hex].
  - repeat split; simpl; apply sublist_nil_l.
  - pose proof (reachable_valid _ Hr) as Hv.
    destruct IH as (O1 & O2 & O3).
    unfold order_inv, curG, code_of, item_of in *.
    destruct (exec_cases _ _ _ Hex) as
      [(t & op & -> & E & ->)|[(kd' & -> & E & ->)|[(a & i & k & f & -> & E & Hi & ->)
       |(t & i & cb & -> & Hlt & ->)]]]; simpl.
    + rewrite !ids_snoc, !app_nil_r. by upds.
    + rewrite !ids_snoc, !app_nil_r. upds; [|done]. unfold code_of in E.
      rewrite E in O1, O2, O3. simpl in O1, O2, O3. done.
    + pose proof (Hv a) as Hva. unfold code_of in *. rewrite E in Hva.
      pose proof (agent_instr_ok _ _ _ Hva) as Hk.
      destruct (exec_instr_order _ _ _ _ _ _ (e_item f) kd Hi Hva) as (Es & Eg & Er & Ec & _).
      pose proof (exec_instr_queues _ _ _ _ _ kd Hi) as Hq.
      rewrite !ids_snoc, Es, Eg, Hq. cbn [work].
      destruct (decide (a = Worker kd)) as [->|Hne].
      * (* the worker of this pipeline *)
        rewrite E in O1, O2, O3. upds.
        assert (Hit : is_recv_i i = false -> e_item f = item (agents s (Worker kd))).
        { intros Hf. destruct (exec_instr_item _ _ _ _ _ Hi) as
            [(_ & _ & -> & _)|[(Hnw & _)|(kd' & ? & ? & -> & _)]]; [done| |done].
          by destruct i. }
        rewrite bool_decide_eq_true_2, andb_true_r by done.
        simpl in Hk.
        destruct i; try done; cbn in O1, O2, O3 |- *;
          try (rewrite !Hit in Er, Ec |- * by done); rewrite ?app_nil_r.
        all: try (split; [done|split];
                  [ destruct (is_real_of kd _) eqn:Hx; [by destruct Er as [? _]|];
                    by rewrite ?app_nil_r
                  | destruct (is_cb_of kd _) eqn:Hx; [by destruct Ec as [? _]|];
                    by rewrite ?app_nil_r ]).
        -- (* receive *)
           apply bool_decide_eq_true in Hk as ->. rewrite decide_True by done.
           destruct (exec_instr_item _ _ _ _ _ Hi) as
             [(_ & ? & _)|[(? & _)|(kd' & n & q & [= <-] & Hqq & Hit' & _)]]; [done..|].
           rewrite Hqq in O1 |- *. rewrite Hit' in Er, Ec |- *. cbn in O1 |- *.
           pose proof (inside_next WGcb need_pass _ _ (sound_WGcb _ _ Hva)) as HnG.
           pose proof (inside_next WReal never _ _ (sound_WReal _ _ Hva)) as HnR.
           pose proof (inside_next WCb never _ _ (sound_WCb _ _ Hva)) as HnC.
           cbn in HnG, HnR, HnC. rewrite HnG, HnR, HnC. cbn.
           split; [done|]. split.
           ++ destruct (is_real_of kd _) eqn:Hx; [by destruct Er as [? _]|].
              by rewrite ?app_nil_r in *.
           ++ destruct (is_cb_of kd _) eqn:Hx; [by destruct Ec as [? _]|].
              by rewrite ?app_nil_r in *.
        -- (* real call *)
           assert (Hin : inside WGcb (IReal k0 :: k) = true).
           { eapply inside_need; [by apply (sound_WGcb (Worker kd))|done]. }
           pose proof (inside_next WReal never _ _ (sound_WReal _ _ Hva)) as HnR.
           cbn in Hin, HnR. rewrite Hin in *. rewrite HnR. split; [done|]. split.
           ++ by apply sublist_snoc_opt.
           ++ destruct (is_cb_of kd _) eqn:Hx; [by destruct Ec as [? _]|].
              by rewrite ?app_nil_r.
        -- (* per-request callback *)
           assert (Hin : inside WGcb (IReqCb :: k) = true).
           { eapply inside_need; [by apply (sound_WGcb (Worker kd))|done]. }
           pose proof (inside_next WCb never _ _ (sound_WCb _ _ Hva)) as HnC.
           cbn in Hin, HnC. rewrite Hin in *. rewrite HnC. split; [done|]. split.
           ++ destruct (is_real_of kd _) eqn:Hx; [by destruct Er as [? _]|].
              by rewrite ?app_nil_r.
           ++ by apply sublist_snoc_opt.
        -- (* global callback *)
           destruct (before_gcb WReal ltac:(intros []; reflexivity) ltac:(intros []; reflexivity)
                       ltac:(intros [] ?; reflexivity) _ _ _ Hva) as [HbR _].
           destruct (before_gcb WCb ltac:(intros []; reflexivity) ltac:(intros []; reflexivity)
                       ltac:(intros [] ?; reflexivity) _ _ _ Hva) as [HbC _].
           specialize (HbR eq_refl). specialize (HbC eq_refl). cbn in HbR, HbC.
           pose proof (inside_next WGcb need_pass _ _ (sound_WGcb _ _ Hva)) as HnG.
           cbn in HnG. rewrite HbR, HbC in *. rewrite HnG.
           rewrite <- !app_assoc. split; [done|]. split.
           ++ destruct (is_real_of kd _) eqn:Hx; [by destruct Er as [? _]|].
              by rewrite ?app_nil_r in *.
           ++ destruct (is_cb_of kd _) eqn:Hx; [by destruct Ec as [? _]|].
              by rewrite ?app_nil_r in *.
      * (* any other goroutine *)
        assert (Hsame : (<[a:={| code := k; item := e_item f; res := e_res f |}]>
                   (match e_spawn f with
                    | Some (b0, lb) => <[b0:=lb]> (agents s)
                    | None => agents s end) (Worker kd)) = agents s (Worker kd)).
        { upds. destruct (exec_instr_spawn _ _ _ _ _ Hi) as [->|(kd' & tx & -> & ->)]; [done|].
          by upds. }
        rewrite Hsame. rewrite bool_decide_eq_false_2, andb_false_r, app_nil_r by done.
        assert (Hnr : is_real_of kd {| actor := a; work := e_item f; act := e_act f |} = false).
        { destruct (is_real_of kd _) eqn:Hx; [by destruct Er as [_ ?]|done]. }
        assert (Hnc : is_cb_of kd {| actor := a; work := e_item f; act := e_act f |} = false).
        { destruct (is_cb_of kd _) eqn:Hx; [by destruct Ec as [_ ?]|done]. }
        rewrite Hnr, Hnc, !app_nil_r. split; [|done].
        destruct i; simpl; rewrite ?app_nil_r; try done.
        -- (* send *)
           destruct (decide (k0 = kd)) as [->|Hkd].
           ++ rewrite bool_decide_eq_true_2 by done.
              destruct (reachable_RSub_item s a Hr) as [w Hw].
              { unfold code_of. rewrite E.
                eapply inside_need; [by apply (sound_RSub a)|done]. }
              unfold item_of in Hw.
              destruct (exec_instr_item _ _ _ _ _ Hi) as
                [(_ & _ & -> & _)|[(? & _)|(? & ? & ? & ? & _)]]; [|done..].
              rewrite Hw. simpl. rewrite O1, <- !app_assoc. done.
           ++ rewrite bool_decide_eq_false_2 by done. by rewrite app_nil_r.
        -- (* a receive on the other queue *)
           case_decide; [|done]. subst. destruct a as [t|kd'|j]; try done.
           simpl in Hk. apply bool_decide_eq_true in Hk. congruence.
    + rewrite !ids_snoc, !app_nil_r. done.
Qed.

(** *** Admission *)

Lemma sound_RAdm a k : valid_code a k -> sound_at RAdm never k = true.
Proof. revert a k. static_check. Qed.

Lemma RAdm_shape a k : valid_code a k -> adm_shape k = true.
Proof. revert a k. static_check. Qed.

Lemma RAdm_start : starts_outside RAdm.
Proof. repeat split; intros; try done. by destruct op. Qed.

Lemma RAdm_task j k : valid_code (Task j) k -> inside RAdm k = false.
Proof.
  intros H.
  pose proof (static_task (fun k => negb (inside RAdm k))
                ltac:(intros [] ?; reflexivity) j _ H) as Hn.
  cbv beta in Hn. by destruct (inside RAdm k).
Qed.

Lemma RAdm_rel i : rel RAdm i = is_send_to_i Check i.
Proof. by destruct i as [| | | | | | | | | |[]| | | | | | | | | | | | | | | |]. Qed.

Lemma reachable_admission s : reachable s -> admission_inv s.
Proof.
  induction 1 as [|s e s' Hr IH Hex].
  - split; [done|]. intros _. done.
  - pose proof (reachable_valid _ Hr) as Hv.
    destruct (reachable_RM checkTxLowLock _ Hr) as [M1 M2].
    destruct RAdm_start as (Sb & Sw & St).
    destruct IH as [A1 A2].
    unfold admission_inv, code_of, item_of in *.
    destruct (exec_cases _ _ _ Hex) as
      [(t & op & -> & E & ->)|[(kd & -> & E & ->)|[(a & i & k & f & -> & E & Hi & ->)
       |(t & i & cb & -> & Hlt & ->)]]]; simpl.
    + rewrite !ids_snoc. cbn. rewrite !app_nil_r. split.
      * intros b j. upds; [by rewrite Sb|apply A1].
      * intros Hall. apply A2. intros b.
        destruct (decide (b = Caller t)) as [->|Hb]; [unfold code_of in E; by rewrite E|].
        specialize (Hall b). revert Hall. by upds.
    + rewrite !ids_snoc. cbn. rewrite !app_nil_r. split.
      * intros b j. upds; [by rewrite Sw|apply A1].
      * intros Hall. apply A2. intros b.
        destruct (decide (b = Worker kd)) as [->|Hb]; [unfold code_of in E; by rewrite E|].
        specialize (Hall b). revert Hall. by upds.
    + pose proof (Hv a) as Hva. unfold code_of in *. rewrite E in Hva.
      pose proof (inside_next RAdm never i k (sound_RAdm _ _ Hva)) as Hn.
      pose proof (RAdm_shape _ _ Hva) as Hshape.
      destruct (exec_instr_order _ _ _ _ _ _ (e_item f) Check Hi Hva) as (Es & _ & _ & _ & Ea).
      rewrite !ids_snoc, Es, Ea. cbn [work].
      assert (Hoth : forall b, b <> a ->
                (match e_spawn f with
                 | Some (b0, lb) => <[b0:=lb]> (agents s)
                 | None => agents s end) b = agents s b \/
                inside RAdm (code ((match e_spawn f with
                                 | Some (b0, lb) => <[b0:=lb]> (agents s)
                                 | None => agents s end) b)) = false /\
                inside RAdm (code (agents s b)) = false).
      { intros b Hb. destruct (exec_instr_spawn _ _ _ _ _ Hi) as [->|(kd & tx & -> & ->)];
          [by left|].
        upds; [|by left]. right. split; [done|]. eapply RAdm_task, Hv. }
      assert (Hlow : forall b, inside RAdm (code (agents s b)) = true ->
                inside (RM checkTxLowLock) (code (agents s b)) = true).
      { intros b Hb. pose proof (RAdm_shape _ _ (Hv b)) as Hs. unfold adm_shape in Hs.
        rewrite Hb in Hs. rewrite !andb_true_iff in Hs. by destruct Hs as [[? _] _]. }
      rewrite RAdm_rel in Hn. change (acq RAdm i) with (is_admit_i i) in Hn.
      destruct (is_send_to_i Check i) eqn:Hsnd; [|destruct (is_admit_i i) eqn:Hadm].
      * (* the enqueueing *)
        assert (Hin : inside RAdm (i :: k) = true).
        { cbn [inside]. by rewrite RAdm_rel, Hsnd. }
        assert (Hadm : is_admit_i i = false) by (by destruct i).
        rewrite Hadm, app_nil_r.
        assert (Hone : forall b, b <> a -> inside RAdm (code (agents s b)) = false).
        { intros b Hb. destruct (inside RAdm (code (agents s b))) eqn:Hib; [|done].
          pose proof (Hlow a) as Hla. rewrite E in Hla. specialize (Hla Hin).
          destruct Hb. apply M2; [by apply Hlow|by rewrite E]. }
        split.
        -- intros b j. upds; [by rewrite Hn|].
           destruct (Hoth b) as [->|[-> _]]; [done| |done]. by rewrite Hone.
        -- intros _. destruct (reachable_RSub_item s a Hr) as [w Hw].
           { unfold code_of. rewrite E. eapply inside_need; [by apply (sound_RSub a)|].
             by destruct i. }
           unfold item_of in Hw.
           destruct (exec_instr_item _ _ _ _ _ Hi) as
             [(_ & _ & -> & _)|[(? & _)|(? & ? & ? & -> & _)]]; [|by destruct i|done].
           rewrite Hw. cbn. apply (A1 a); [by rewrite E|done].
      * (* passing the admission mutex *)
        assert (Hfree : mutexes (sh s) checkTxLowLock = false).
        { destruct i as [[]| | | | | | | | | | | | | | | | | | | | | | | | | |]; try done.
          simpl in Hi. by destruct (mutexes (sh s) checkTxLowLock). }
        assert (Hnone : forall b, inside RAdm (code (agents s b)) = false).
        { intros b. destruct (inside RAdm (code (agents s b))) eqn:Hib; [|done].
          apply Hlow, M1 in Hib. congruence. }
        rewrite app_nil_r, (A2 Hnone). split.
        -- intros b j. upds.
           ++ intros _ ->. done.
           ++ destruct (Hoth b) as [->|[-> _]]; [done| |done]. by rewrite Hnone.
        -- intros Hall. specialize (Hall a). revert Hall. upds. by rewrite Hn.
      * (* any other statement *)
        rewrite !app_nil_r. split.
        -- intros b j. upds.
           ++ rewrite Hn. intros Hin. unfold adm_shape in Hshape. rewrite Hin in Hshape.
              rewrite !andb_true_iff, negb_true_iff, !orb_false_iff in Hshape.
              destruct Hshape as [_ [[Hnw Hrc] _]].
              destruct (exec_instr_item _ _ _ _ _ Hi) as
                [(_ & _ & -> & _)|[(? & _)|(? & ? & ? & -> & _)]]; [|congruence|done].
              apply A1. by rewrite E.
           ++ destruct (Hoth b) as [->|[-> _]]; [done|apply A1|done].
        -- intros Hall. apply A2. intros b.
           destruct (decide (b = a)) as [->|Hb].
           ++ specialize (Hall a). revert Hall. upds. rewrite Hn, E. done.
           ++ specialize (Hall b). revert Hall. upds.
              destruct (Hoth b) as [->|[_ ->]]; done.
    + rewrite !ids_snoc. cbn. rewrite !app_nil_r. done.
Qed.

(** A held lock has a holder. *)
Section Holder.

Variables (R : region) (need : instr -> bool) (held : Shared -> bool).

Hypothesis R_sound : forall a k, valid_code a k -> sound_at R need k = true.
Hypothesis R_effect : forall a l i (s : Shared) f,
  exec_instr app a l i s = Next f ->
  (acq R i = true -> held s = false /\ held (e_shared f) = true) /\
  (rel R i = true -> held (e_shared f) = false) /\
  (acq R i = false -> rel R i = false -> held (e_shared f) = held s).
Hypothesis R_attach : forall i w (s : Shared), held (set_item i w s) = held s.
Hypothesis R_task : forall j k, valid_code (Task j) k -> inside R k = false.
Hypothesis R_init : held (sh (init a0)) = false.

Lemma reachable_holder s :
  reachable s -> held (sh s) = true -> exists a, inside R (code_of s a) = true.
Proof.
  induction 1 as [|s e s' Hr IH Hex]; [by rewrite R_init|].
  pose proof (reachable_valid _ Hr) as Hv.
  unfold code_of in *.
  destruct (exec_cases _ _ _ Hex) as
    [(t & op & -> & E & ->)|[(kd & -> & E & ->)|[(a & i & k & f & -> & E & Hi & ->)
     |(t & i & cb & -> & Hlt & ->)]]]; simpl.
  - intros Hh. destruct (IH Hh) as [b Hb]. exists b. upds; [|done].
    unfold code_of in E. by rewrite E in Hb.
  - intros Hh. destruct (IH Hh) as [b Hb]. exists b. upds; [|done].
    unfold code_of in E. by rewrite E in Hb.
  - pose proof (Hv a) as Hva. unfold code_of in *. rewrite E in Hva.
    pose proof (inside_next R need i k (R_sound _ _ Hva)) as Hn.
    destruct (R_effect _ _ _ _ _ Hi) as (Ea & Er & En).
    intros Hh. destruct (rel R i) eqn:Hrel; [by rewrite Er in Hh|].
    destruct (acq R i) eqn:Hacq.
    + exists a. by upds.
    + rewrite En in Hh by done. destruct (IH Hh) as [b Hb].
      destruct (decide (b = a)) as [->|Hne].
      * exists a. upds. by rewrite Hn, <- E.
      * exists b. upds.
        destruct (exec_instr_spawn _ _ _ _ _ Hi) as [->|(kd & tx & -> & ->)]; [done|].
        upds; [|done]. by rewrite (R_task _ _ (Hv _)) in Hb.
  - rewrite R_attach. apply IH.
Qed.

End Holder.

Lemma RM_task m j k : valid_code (Task j) k -> inside (RM m) k = false.
Proof.
  intros H.
  pose proof (static_task (fun k => negb (inside (RM m) k))
                ltac:(intros [] ?; reflexivity) j _ H) as Hn.
  cbv beta in Hn. by destruct (inside (RM m) k).
Qed.

Lemma reachable_RM_holder m s :
  reachable s -> mutexes (sh s) m = true -> exists a, inside (RM m) (code_of s a) = true.
Proof.
  apply reachable_holder with (need := no_need) (held := fun s => mutexes s m).
  - apply sound_RM.
  - apply RM_effect.
  - done.
  - apply RM_task.
  - done.
Qed.

(** The submissions enqueued are, in order, the ones that passed the
    admission mutex, but for the last of these while it has not enqueued. *)
Lemma admission_prefix s :
  reachable s ->
  ids (is_send_to Check) (trace s) `prefix_of` ids is_admit (trace s) /\
  (length (ids is_admit (trace s)) <= S (length (ids (is_send_to Check) (trace s))))%nat.
Proof.
  intros Hr. destruct (reachable_admission _ Hr) as [A1 A2].
  destruct (reachable_RM checkTxLowLock _ Hr) as [M1 M2].
  pose proof (reachable_valid _ Hr) as Hv.
  assert (Hlow : forall b, inside RAdm (code_of s b) = true ->
            inside (RM checkTxLowLock) (code_of s b) = true /\
            inside RSub (code_of s b) = true).
  { intros b Hb. pose proof (RAdm_shape _ _ (Hv b)) as Hs. unfold adm_shape in Hs.
    rewrite Hb in Hs. rewrite !andb_true_iff in Hs. by destruct Hs as [[? ?] _]. }
  assert (Hnone : (forall b, inside RAdm (code_of s b) = false) ->
            ids (is_send_to Check) (trace s) `prefix_of` ids is_admit (trace s) /\
            (length (ids is_admit (trace s))
             <= S (length (ids (is_send_to Check) (trace s))))%nat).
  { intros Hall. rewrite (A2 Hall). split; [done|lia]. }
  destruct (mutexes (sh s) checkTxLowLock) eqn:Hm.
  - destruct (reachable_RM_holder _ _ Hr Hm) as [a Ha].
    destruct (inside RAdm (code_of s a)) eqn:Hin.
    + destruct (reachable_RSub_item s a Hr) as [j Hj]; [by apply Hlow|].
      rewrite (A1 a j Hin Hj). split; [by eexists|]. rewrite length_app. simpl. lia.
    + apply Hnone. intros b. destruct (inside RAdm (code_of s b)) eqn:Hb; [|done].
      destruct (Hlow b Hb) as [Hb' _]. rewrite (M2 _ _ Hb' Ha) in Hb. congruence.
  - apply Hnone. intros b. destruct (inside RAdm (code_of s b)) eqn:Hb; [|done].
    destruct (Hlow b Hb) as [Hb' _]. apply M1 in Hb'. congruence.
Qed.

(** No work item is enqueued twice. *)
Lemma ids_sublist P Q tr :
  (forall e, P e = true -> Q e = true) -> ids P tr `sublist_of` ids Q tr.
Proof.
  intros HPQ. induction tr as [|e tr IH]; [done|]. unfold ids in *. simpl.
  specialize (HPQ e). destruct (P e); [rewrite HPQ by done|].
  - destruct (work e); [by apply sublist_skip|done].
  - destruct (Q e); [|done]. destruct (work e); [by apply sublist_cons|done].
Qed.

Lemma reachable_send_nodup s : reachable s -> NoDup (ids is_send (trace s)).
Proof.
  induction 1 as [|s e s' Hr IH Hex]; [apply NoDup_nil_2|].
  pose proof (reachable_valid _ Hr) as Hv.
  pose proof (reachable_fresh_send _ Hr) as HF.
  unfold fresh_inv, code_of, item_of in *.
  destruct (exec_cases _ _ _ Hex) as
    [(t & op & -> & E & ->)|[(kd & -> & E & ->)|[(a & i & k & f & -> & E & Hi & ->)
     |(t & i & cb & -> & Hlt & ->)]]]; simpl; rewrite ids_snoc.
  1, 2, 4: cbn; by rewrite app_nil_r.
  pose proof (Hv a) as Hva. unfold code_of in *. rewrite E in Hva.
  destruct (exec_instr_act _ _ _ _ _ (e_item f) Hi) as (_ & _ & Es & _).
  rewrite Es. cbn [work].
  destruct (is_send_i i) eqn:Hs; [|by rewrite app_nil_r].
  destruct (exec_instr_item _ _ _ _ _ Hi) as
    [(_ & _ & -> & _)|[(? & _)|(? & ? & ? & -> & _)]]; [|by destruct i|done].
  destruct (item (agents s a)) as [j|] eqn:Hj; [|by rewrite app_nil_r].
  simpl. apply list.NoDup_app. split; [done|]. split; [|apply NoDup_singleton].
  intros x Hx ->%list_elem_of_singleton. revert Hx. apply (HF a); [|done].
  rewrite E. simpl. by rewrite Hs.
Qed.

(** *** Pre-validation and the response slot *)


Lemma sound_TPre a k : valid_code a k -> sound_at TPre never k = true.
Proof. revert a k. static_check. Qed.

Lemma sound_TOpen a k : valid_code a k -> sound_at TOpen is_pre_i k = true.
Proof. revert a k. static_check. Qed.

Lemma reachable_task_fresh s : reachable s -> task_fresh_inv s.
Proof.
  induction 1 as [|s e s' Hr IH Hex].
  - repeat split; try done; intros j Hj; by apply elem_of_nil in Hj.
  - pose proof (reachable_valid _ Hr) as Hv.
    pose proof (reachable_task _ Hr) as HT.
    pose proof (reachable_fresh_sched _ Hr) as HF.
    destruct (reachable_chain _ Hr) as (_ & _ & K3 & _).
    destruct IH as (F1 & F2 & F3).
    unfold task_fresh_inv, task_inv, fresh_inv, code_of, item_of in *.
    destruct (exec_cases _ _ _ Hex) as
      [(t & op & -> & E & ->)|[(kd & -> & E & ->)|[(a & i & k & f & -> & E & Hi & ->)
       |(t & i & cb & -> & Hlt & ->)]]]; simpl.
    + rewrite !ids_snoc. cbn. rewrite !app_nil_r.
      split; [|split]; try done; intros j; by upds.
    + rewrite !ids_snoc. cbn. rewrite !app_nil_r.
      split; [|split]; try done; intros j; by upds.
    + pose proof (Hv a) as Hva. unfold code_of in *. rewrite E in Hva.
      destruct (exec_instr_act _ _ _ _ _ (e_item f) Hi) as
        (_ & _ & _ & Esc & Eo & Ep & _).
      assert (Htask : task_instr i = true ->
                exists j', a = Task j' /\ e_item f = Some j' /\ j' ∈ ids is_sched (trace s)).
      { intros Hti. destruct (task_only _ _ _ Hva Hti) as [j' ->]. exists j'.
        destruct (HT j') as [Hit Hs]; [by rewrite E|]. split; [done|]. split; [|done].
        destruct (exec_instr_item _ _ _ _ _ Hi) as
          [(_ & _ & -> & _)|[(Hnw & _)|(kd & ? & ? & -> & _)]]; [done|by destruct i|done]. }
      assert (Hoth : forall j, a <> Task j ->
                (match e_spawn f with
                 | Some (b0, lb) => <[b0:=lb]> (agents s)
                 | None => agents s end) (Task j) = agents s (Task j) \/
                j ∉ ids is_sched (trace s)).
      { intros j Hj. destruct (exec_instr_spawn _ _ _ _ _ Hi) as [->|(kd & tx & -> & ->)];
          [by left|].
        upds; [|by left]. right.
        destruct (reachable_RSub_item s a Hr) as [w Hw].
        { unfold code_of. rewrite E.
          eapply inside_need; [by apply (sound_RSub a)|done]. }
        unfold item_of in Hw. rewrite Hw. simpl. apply (HF a); [|done].
        rewrite E. eapply inside_need; [by apply (sound_RSub a)|done]. }
      split; [|split].
      * intros j. rewrite ids_snoc_elem, Ep. cbn [work]. upds.
        -- pose proof (inside_next TPre never i k (sound_TPre _ _ Hva)) as Hn.
           cbn [acq rel TPre never] in Hn. fold (is_pre_i i) in Hn. rewrite Hn.
           destruct (is_pre_i i) eqn:Hp; [done|]. intros Hin [?|[? _]]; [|done].
           eapply F1; [|done]. by rewrite E.
        -- intros Hin [Hj|[Hp Hw]].
           ++ destruct (Hoth j) as [Heq|Hns]; [done| |by apply Hns, F3].
              rewrite Heq in Hin. by eapply F1.
           ++ destruct Htask as (j' & -> & Hit & _); [by destruct i|]. congruence.
      * intros j. rewrite ids_snoc_elem, Eo. cbn [work]. upds.
        -- pose proof (inside_next TOpen is_pre_i i k (sound_TOpen _ _ Hva)) as Hn.
           cbn [acq rel TOpen never] in Hn. fold (is_open_i i) in Hn. rewrite Hn.
           destruct (is_open_i i) eqn:Hp; [done|]. intros Hin [?|[? _]]; [|done].
           eapply F2; [|done]. by rewrite E.
        -- intros Hin [Hj|[Hp Hw]].
           ++ destruct (Hoth j) as [Heq|Hns]; [done| |by apply Hns, K3].
              rewrite Heq in Hin. by eapply F2.
           ++ destruct Htask as (j' & -> & Hit & _); [by destruct i|]. congruence.
      * intros j. rewrite !ids_snoc_elem, Ep. cbn [work]. intros [Hj|[Hp Hw]].
        -- left. by apply F3.
        -- left. destruct Htask as (j' & -> & Hit & Hs); [by destruct i|]. congruence.
    + rewrite !ids_snoc. cbn. rewrite !app_nil_r. done.
Qed.

(** The worker runs the real-call step of an item after its closure has
    opened the gate. *)
Lemma reachable_attempt_open s :
  reachable s -> forall j, j ∈ ids is_attempt (trace s) -> j ∈ ids is_open (trace s).
Proof.
  induction 1 as [|s e s' Hr IH Hex]; [intros j Hj; by apply elem_of_nil in Hj|].
  pose proof (reachable_valid _ Hr) as Hv.
  destruct (reachable_chain _ Hr) as (_ & _ & _ & _ & K5 & _).
  unfold code_of, item_of in *.
  destruct (exec_cases _ _ _ Hex) as
    [(t & op & -> & E & ->)|[(kd & -> & E & ->)|[(a & i & k & f & -> & E & Hi & ->)
     |(t & i & cb & -> & Hlt & ->)]]]; simpl; intros j; rewrite !ids_snoc_elem.
  1, 2, 4: intros [Hj|[? _]]; [left; by apply IH|done].
  pose proof (Hv a) as Hva. unfold code_of in *. rewrite E in Hva.
  destruct (exec_instr_act _ _ _ _ _ (e_item f) Hi) as (_ & _ & _ & _ & _ & _ & Ea & _).
  rewrite Ea. cbn [work]. intros [Hj|[Hre Hj]]; [left; by apply IH|]. left.
  destruct (exec_instr_item _ _ _ _ _ Hi) as
    [(_ & _ & Hit & _)|[(Hnw & _)|(kd & ? & ? & -> & _)]]; [|by destruct i|done].
  apply (K5 a); [|congruence]. rewrite E.
  eapply inside_need; [by apply (sound_WPass a)|]. by destruct i.
Qed.

(** Pre-validation is run once per item. *)
Lemma reachable_pre_nodup s : reachable s -> NoDup (ids is_pre (trace s)).
Proof.
  induction 1 as [|s e s' Hr IH Hex]; [apply NoDup_nil_2|].
  pose proof (reachable_valid _ Hr) as Hv.
  pose proof (reachable_task _ Hr) as HT.
  destruct (reachable_task_fresh _ Hr) as (F1 & _).
  unfold task_inv, code_of, item_of in *.
  destruct (exec_cases _ _ _ Hex) as
    [(t & op & -> & E & ->)|[(kd & -> & E & ->)|[(a & i & k & f & -> & E & Hi & ->)
     |(t & i & cb & -> & Hlt & ->)]]]; simpl; rewrite ids_snoc.
  1, 2, 4: cbn; by rewrite app_nil_r.
  pose proof (Hv a) as Hva. unfold code_of in *. rewrite E in Hva.
  destruct (exec_instr_act _ _ _ _ _ (e_item f) Hi) as (_ & _ & _ & _ & _ & Ep & _).
  rewrite Ep. cbn [work].
  destruct (is_pre_i i) eqn:Hp; [|by rewrite app_nil_r].
  destruct (task_only _ _ _ Hva) as [j ->]; [by destruct i|].
  destruct (HT j) as [Hit _]; [by rewrite E|].
  destruct (exec_instr_item _ _ _ _ _ Hi) as
    [(_ & _ & -> & _)|[(? & _)|(? & ? & ? & -> & _)]]; [|by destruct i|done].
  rewrite Hit. simpl. apply list.NoDup_app. split; [done|]. split; [|apply NoDup_singleton].
  intros x Hx ->%list_elem_of_singleton. revert Hx. apply F1.
  unfold code_of. rewrite E. simpl. by destruct i.
Qed.












(** *** The course of a call *)

Lemma cur_call_snoc t tr e : cur_call t (tr ++ [e]) = call_upd t (cur_call t tr) e.
Proof. unfold cur_call. by rewrite fold_left_app. Qed.

Lemma exec_instr_instr_act a l i (s : Shared) f :
  exec_instr app a l i s = Next f -> instr_act (item l) i (e_act f).
Proof.
  destruct i; try match goal with rk : retkind |- _ => destruct rk end; simpl; intros H;
    repeat match type of H with
           | context [match ?x with _ => _ end] => destruct x eqn:?
           end;
    simplify_eq; cbn; eauto.
Qed.

Lemma call_upd_step t acc a l i (s : Shared) f w :
  exec_instr app a l i s = Next f ->
  call_upd t acc {| actor := a; work := w; act := e_act f |} =
    if decide (a = Caller t) then acc ++ [ {| actor := a; work := w; act := e_act f |} ]
    else acc.
Proof.
  intros H. unfold call_upd. cbn [actor act]. case_decide; [|done].
  apply exec_instr_instr_act in H. generalize dependent (e_act f). intros x H.
  destruct i; try match goal with rk : retkind |- _ => destruct rk end;
    simpl in H; destruct_or?; destruct_and?;
    repeat match goal with H : exists _, _ |- _ => destruct H end; by subst.
Qed.

Lemma follows_snoc w done evs i e :
  follows w done evs -> step_ok (last_work w evs) i e ->
  follows w (done ++ [i]) (evs ++ [e]).
Proof.
  revert w evs. induction done as [|i' done IH]; intros w [|e' evs]; simpl; try done.
  intros [H1 H2] H3. split; [done|]. by apply IH.
Qed.

Lemma last_work_snoc w evs e : last_work w (evs ++ [e]) = work e.
Proof. revert w. induction evs as [|e' evs IH]; intros w; simpl; [done|apply IH]. Qed.

Lemma reachable_call s : reachable s -> call_inv s.
Proof.
  induction 1 as [|s e s' Hr IH Hex]; [done|].
  unfold call_inv, code_of, item_of in *.
  destruct (exec_cases _ _ _ Hex) as
    [(t & op & -> & E & ->)|[(kd & -> & E & ->)|[(a & i & k & f & -> & E & Hi & ->)
     |(t & i & cb & -> & Hlt & ->)]]]; simpl; intros t'; rewrite cur_call_snoc;
    specialize (IH t').
  - unfold call_upd. cbn [actor act]. case_decide as Ht.
    + injection Ht as <-. upds. exists op, []. done.
    + upds. done.
  - unfold call_upd. cbn [actor act]. rewrite decide_False by done. by upds.
  - rewrite (call_upd_step _ _ _ _ _ _ _ _ Hi). unfold code_of in E.
    case_decide as Ha.
    + subst a. upds. rewrite E in IH.
      destruct (cur_call t' (trace s)) as [|e0 evs]; [done|].
      destruct IH as (op & done & Hop & Hb & Hf & Hl). simpl.
      exists op, (done ++ [i]). split; [done|]. split; [by rewrite <- app_assoc|].
      rewrite last_work_snoc. split; [|done].
      apply follows_snoc; [done|]. rewrite Hl. split; [|split]; cbn [act work].
      * by apply exec_instr_instr_act in Hi.
      * intros H1 H2. destruct (exec_instr_item _ _ _ _ _ Hi) as
          [(_ & _ & -> & _)|[(? & _)|(? & ? & ? & -> & _)]]; [done|congruence|done].
      * intros H1. destruct (exec_instr_item _ _ _ _ _ Hi) as
          [(? & _)|[(_ & -> & _)|(? & ? & ? & -> & _)]]; [congruence|done|done].
    + upds. destruct (exec_instr_spawn _ _ _ _ _ Hi) as [->|(kd & tx & -> & ->)]; [done|].
      by upds.
  - unfold call_upd. cbn [actor act]. by case_decide.
Qed.

(** *** The queues *)

Lemma reachable_queue_bound s :
  reachable s -> forall kd, (length (queues (sh s) kd) <= queue_cap kd)%nat.
Proof.
  induction 1 as [|s e s' Hr IH Hex]; intros kd.
  - simpl. lia.
  - destruct (exec_cases _ _ _ Hex) as
      [(t & op & -> & E & ->)|[(kd' & -> & E & ->)|[(a & i & k & f & -> & E & Hi & ->)
       |(t & i & cb & -> & Hlt & ->)]]]; simpl; try apply IH.
    rewrite (exec_instr_queues _ _ _ _ _ kd Hi). specialize (IH kd).
    destruct i; try done.
    + case_decide; [subst|done]. simpl in Hi. case_decide; [|done].
      rewrite length_app. simpl. lia.
    + case_decide; [|done]. destruct (queues (sh s) kd); simpl in *; lia.
Qed.

(** A submission past the enqueueing returns the handle. *)
Lemma send_then_handle a k :
  valid_code a k ->
  match k with
  | ISend _ :: k' =>
      match list.last k' with Some (IReturn RkHandle) => true | _ => false end
  | _ => true
  end = true.
Proof. revert a k. static_check. Qed.

(** *** Schedules *)

Lemma run_reachable sched s s' :
  reachable s -> run app sched s = Next s' -> reachable s'.
Proof.
  revert s. induction sched as [|e sched IH]; simpl; intros s Hr H.
  - by simplify_eq.
  - destruct (exec app e s) as [s1| |] eqn:E; try done.
    eapply IH; [|done]. eapply reach_step; eauto.
Qed.

Lemma run_init_reachable sched s :
  run app sched (init a0) = Next s -> reachable s.
Proof. apply run_reachable. constructor. Qed.

Lemma at_write_inside s a :
  reachable s -> at_instr write_instr s a = true -> inside RW (code_of s a) = true.
Proof.
  intros Hr. pose proof (reachable_valid _ Hr a) as Hv.
  unfold at_instr. destruct (code_of s a) as [|i k]; [done|]. intros Hw.
  eapply inside_need; [by apply (sound_RW a)|]. cbv beta. by rewrite Hw.
Qed.

Lemma at_read_inside s a :
  reachable s -> at_instr read_instr s a = true -> inside RR (code_of s a) = true.
Proof.
  intros Hr. pose proof (reachable_valid _ Hr a) as Hv.
  unfold at_instr. destruct (code_of s a) as [|i k]; [done|]. intros Hw.
  eapply inside_need; [by apply (sound_RR a)|]. done.
Qed.

End Invariants.

Ltac look :=
  repeat match goal with
  | |- context [ (<[?x := ?v]> ?f) ?b ] =>
      let Heq := fresh "Heq" in
      let Hne := fresh "Hne" in
      destruct (decide (x = b)) as [Heq|Hne];
      [ first [ discriminate Heq
              | exfalso; congruence
              | rewrite (fn_insert_eq f x b v Heq); try (injection Heq as Heq); try subst ]
      | first [ by destruct Hne | rewrite (fn_lookup_insert_ne f x b v Hne) ] ]
  end; cbn [code item res].

Section Requests.

Context {A : Type} (app : ApplicationCC A) (a0 : A).
Abbreviation reachable := (reachable app a0).

(** *** The request of a work item *)

(** No statement changes the request of an existing item. *)
Lemma exec_instr_request a l i (s : @Shared A) f j :
  exec_instr app a l i s = Next f -> (j < next s)%nat ->
  Request (reqRes (items (e_shared f) j)) = Request (reqRes (items s j)).
Proof.
  destruct i; simpl; intros H Hj; repeat case_match; simplify_eq; simpl; try done.
  all: unfold insert, fn_insert; repeat case_decide; simplify_eq; try done; lia.
Qed.

Lemma exec_instr_new a l kd tx (s : @Shared A) f :
  exec_instr app a l (INewItem kd tx) s = Next f ->
  Request (reqRes (items (e_shared f) (next s))) = ToRequestTx kd tx.
Proof. simpl. intros [= <-]. simpl. by rewrite fn_lookup_insert. Qed.

Ltac in_tails H :=
  simpl in H; repeat (apply elem_of_cons in H as [H|H]; [try discriminate H|]);
  try (by apply elem_of_nil in H).

Lemma new_sub_code a kd tx k :
  valid_code a (INewItem kd tx :: k) -> sub_code k = Some (kd, tx).
Proof.
  destruct a as [t|kd'|j]; unfold valid_code.
  - intros [op H]. destruct op; in_tails H; by simplify_eq.
  - intros H. destruct kd'; in_tails H.
  - intros (? & ? & H). in_tails H.
Qed.

Lemma sends_own_ok a k : valid_code a k -> sends_own k = true.
Proof. revert a k. static_check. Qed.

Lemma worker_real kd kd' k :
  valid_code (Worker kd) (IReal kd' :: k) ->
  kd' = kd /\ inside WGcb (IReal kd' :: k) = true.
Proof. unfold valid_code. intros H. destruct kd; in_tails H; by simplify_eq. Qed.

Lemma GetTx_ToRequestTx kd tx : GetTx kd (ToRequestTx kd tx) = tx.
Proof. by destruct kd. Qed.

Lemma task_pre_first j i k kd tx k' :
  valid_code (Task j) (i :: k) -> k = IPre kd tx :: k' -> False.
Proof.
  intros H ->. unfold valid_code in H. destruct H as (kd' & tx' & H). in_tails H.
Qed.

Lemma attach_request (s : @Shared A) i c j :
  Request (reqRes ((<[i := set_rr_cb c (items s i)]> (items s)) j)) =
  Request (reqRes (items s j)).
Proof.
  unfold insert, fn_insert. case_decide; by simplify_eq.
Qed.

Lemma reachable_request s : reachable s -> request_inv s.
Proof.
  induction 1 as [|s e s' Hr IH Hex].
  - repeat split; try done. intros kd j Hj. by apply elem_of_nil in Hj.
  - pose proof (reachable_valid _ _ _ Hr) as Hv.
    pose proof (reachable_task _ _ _ Hr) as HT.
    destruct (reachable_bound _ _ _ Hr) as (B1 & B2 & _).
    destruct IH as (Q1 & Q2 & Q3 & Q4).
    unfold request_inv, request_of, task_inv, code_of, item_of in *.
    destruct (exec_cases _ _ _ _ Hex) as
      [(t & op & -> & E & ->)|[(kd0 & -> & E & ->)|[(a & i & k & f & -> & E & Hi & ->)
       |(t & i & cb & -> & Hlt & ->)]]]; simpl.
    + split; [|split; [|split]]; try done.
      intros b j kd tx. look; [done|]. apply Q1.
    + split; [|split; [|split]]; try done.
      all: intros ? ?; look; try done; try apply Q1; try apply Q3.
    + pose proof (Hv a) as Hva. unfold code_of in *. rewrite E in Hva.
      assert (Hreq : forall j, (j < next (sh s))%nat ->
                Request (reqRes (items (e_shared f) j)) = Request (reqRes (items (sh s) j))).
      { intros j Hj. by eapply exec_instr_request. }
      split; [|split; [|split]].
      * intros b j kd tx. look.
        -- pose proof (inside_next RSub need_sub i k (sound_RSub _ _ Hva)) as Hn.
           cbn [acq rel RSub] in Hn. rewrite Hn.
           destruct (is_sched_i i) eqn:Hs; [done|]. destruct (is_new i) eqn:Hnw.
           ++ intros _ Hit Hsc. destruct i; try done.
              rewrite (new_sub_code _ _ _ _ Hva) in Hsc. simplify_eq.
              destruct (exec_instr_item _ _ _ _ _ _ Hi) as
                [(? & _)|[(_ & Hit' & _)|(? & ? & ? & ? & _)]]; [done| |done].
              rewrite Hit' in Hit. simplify_eq. by eapply exec_instr_new.
           ++ intros Hin Hit Hsc.
              destruct (exec_instr_item _ _ _ _ _ _ Hi) as
                [(_ & _ & Hit' & _)|[(? & _)|(? & ? & ? & -> & _)]]; [|congruence|].
              ** rewrite Hit' in Hit. rewrite Hreq by (by eapply B1).
                 apply (Q1 b); [by rewrite E|done|]. rewrite E.
                 destruct i; try done.
              ** by rewrite (recv_outside_RSub _ _ _ Hva) in Hin.
        -- destruct (exec_instr_spawn _ _ _ _ _ _ Hi) as [->|(kd' & tx' & -> & ->)].
           ++ intros Hin Hit Hsc. rewrite Hreq by (by eapply B1). by eapply Q1.
           ++ look; [done|]. intros Hin Hit Hsc. rewrite Hreq by (by eapply B1).
              by eapply Q1.
      * intros kd j. rewrite (exec_instr_queues _ _ _ _ _ _ kd Hi).
        assert (Hold : j ∈ queues (sh s) kd ->
                  exists tx, Request (reqRes (items (e_shared f) j)) = ToRequestTx kd tx).
        { intros Hj. rewrite Hreq by (by eapply B2). by apply Q2. }
        destruct i; try done.
        -- case_decide; [|done]. subst. rewrite elem_of_app, list_elem_of_singleton.
           intros [Hj| ->]; [by apply Hold|].
           assert (Hin : inside RSub (ISend kd :: k) = true).
           { eapply inside_need; [by apply (sound_RSub a)|done]. }
           destruct (reachable_RSub_item _ _ s a Hr) as [w Hw].
           { unfold code_of. by rewrite E. }
           unfold item_of in Hw. rewrite Hw. simpl.
           pose proof (sends_own_ok _ _ Hva) as Hso. unfold sends_own in Hso.
           destruct (sub_code (ISend kd :: k)) as [[kd' tx]|] eqn:Hsc; [|done].
           apply bool_decide_eq_true in Hso as ->. exists tx.
           rewrite Hreq by (by eapply B1). apply (Q1 a); [by rewrite E|done|by rewrite E].
        -- case_decide; [|done]. intros Hj. apply Hold.
           destruct (queues (sh s) kd); [done|]. by apply list_elem_of_further.
      * intros kd j. look.
        -- pose proof (inside_next WGcb need_pass i k (sound_WGcb _ _ Hva)) as Hn.
           cbn [acq rel WGcb] in Hn. rewrite Hn.
           destruct (is_itemcb_i i) eqn:Hs; [done|]. destruct (is_recv_i i) eqn:Hrc.
           ++ intros _ Hit. destruct i; try done.
              pose proof (agent_instr_ok _ _ _ Hva) as Hw. simpl in Hw.
              apply bool_decide_eq_true in Hw as ->.
              destruct (exec_instr_item _ _ _ _ _ _ Hi) as
                [(_ & ? & _)|[(? & _)|(kd' & n & q & [= <-] & Hq & Hit' & ->)]];
                [done|done|].
              rewrite Hit' in Hit. simplify_eq. simpl. apply Q2. rewrite Hq.
              apply list_elem_of_here.
           ++ intros Hin Hit.
              destruct (exec_instr_item _ _ _ _ _ _ Hi) as
                [(_ & _ & Hit' & _)|[(Hnw & _)|(? & ? & ? & -> & _)]]; [| |done].
              ** rewrite Hit' in Hit. rewrite Hreq by (by eapply B1).
                 apply Q3; [by rewrite E|done].
              ** pose proof (agent_instr_ok _ _ _ Hva) as Hw. by destruct i.
        -- destruct (exec_instr_spawn _ _ _ _ _ _ Hi) as [->|(kd' & tx' & -> & ->)].
           ++ intros Hin Hit. rewrite Hreq by (by eapply B1). by apply Q3.
           ++ look. intros Hin Hit. rewrite Hreq by (by eapply B1). by apply Q3.
      * intros j kd tx k'. look.
        -- intros Hk. destruct (task_pre_first _ _ _ _ _ _ Hva Hk).
        -- assert (Hold : code (agents s (Task j)) = IPre kd tx :: k' ->
                     Request (reqRes (items (e_shared f) j)) = ToRequestTx kd tx).
           { intros Hc. rewrite Hreq; [by eapply Q4|].
             destruct (HT j) as [Hit _]; [by rewrite Hc|]. by eapply B1. }
           destruct (exec_instr_spawn _ _ _ _ _ _ Hi) as [->|(kd' & tx' & -> & ->)];
             [done|].
           look; [|done]. intros [= <- <- <-].
           destruct (reachable_RSub_item _ _ s a Hr) as [w Hw].
           { unfold code_of. by rewrite E. }
           unfold item_of in Hw. rewrite Hw. simpl.
           rewrite Hreq by (by eapply B1). apply (Q1 a); [by rewrite E|done|by rewrite E].
    + split; [|split; [|split]].
      * intros b j kd tx. rewrite attach_request. apply Q1.
      * intros kd j. rewrite attach_request. apply Q2.
      * intros kd j. rewrite attach_request. apply Q3.
      * intros j kd tx k'. rewrite attach_request. apply Q4.
Qed.

(** A submission method inside its submission is going to schedule the
    closure over its own transaction. *)
Lemma sub_of_code op kd tx ran k :
  sub_of op = Some (kd, tx) -> body op = ran ++ k -> inside RSub k = true ->
  sub_code k = Some (kd, tx).
Proof.
  intros Hs Hb Hin. destruct op; simplify_eq; simpl in Hb.
  all: repeat (destruct ran as [|? ran]; simpl in Hb;
               [subst k; try done|injection Hb as <- Hb]).
  all: destruct ran; simpl in Hb; [by subst k|done].
Qed.

Lemma exec_request e s s' j :
  exec app e s = Next s' -> (j < next (sh s))%nat -> request_of s' j = request_of s j.
Proof.
  intros Hex Hj. unfold request_of.
  destruct (exec_cases _ _ _ _ Hex) as
    [(t & op & -> & E & ->)|[(kd0 & -> & E & ->)|[(a & i & k & f & -> & E & Hi & ->)
     |(t & i & cb & -> & Hlt & ->)]]]; simpl; try done.
  - by eapply exec_instr_request.
  - apply attach_request.
Qed.

End Requests.

Section History.

Context {A : Type} (app : ApplicationCC A) (a0 : A).
Abbreviation reachable := (reachable app a0).

(** *** The step behind an event *)

Lemma run_app sched1 sched2 (s : @State A) :
  run app (sched1 ++ sched2) s =
  match run app sched1 s with
  | Next s' => run app sched2 s'
  | Blocked => Blocked
  | Panic => Panic
  end.
Proof.
  revert s. induction sched1 as [|e sched1 IH]; intros s; simpl; [done|].
  destruct (exec app e s); by try done.
Qed.

Lemma run_history sched s tr1 e tr2 :
  run app sched (init a0) = Next s -> trace s = tr1 ++ e :: tr2 ->
  exists sched0 ev rest s0 s1,
    sched = sched0 ++ ev :: rest /\
    run app sched0 (init a0) = Next s0 /\ exec app ev s0 = Next s1 /\
    run app rest s1 = Next s /\ trace s0 = tr1 /\ trace s1 = tr1 ++ [e].
Proof.
  revert s tr2. induction sched as [|ev sched IH] using rev_ind; intros s tr2.
  - simpl. intros [= <-]. simpl. intros H. by destruct tr1.
  - rewrite run_app. destruct (run app sched (init a0)) as [s'| |] eqn:Hs'; try done.
    simpl. destruct (exec app ev s') as [s''| |] eqn:Hex; try done. intros [= ->].
    destruct (exec_trace _ _ _ _ Hex) as [x Hx]. rewrite Hx. intros H.
    apply snoc_split in H as [(-> & Heq & ->)|(tr2' & -> & Heq)].
    + exists sched, ev, [], s', s. repeat split; try done. by rewrite Hx, Heq.
    + destruct (IH s' tr2' eq_refl Heq) as
        (sched0 & ev0 & rest & s0 & s1 & -> & H0 & H1 & H2 & H3 & H4).
      exists sched0, ev0, (rest ++ [ev]), s0, s1.
      repeat split; try done.
      * by rewrite <- app_assoc.
      * rewrite run_app, H2. simpl. by rewrite Hex.
Qed.

(** The scheduling step and the statement behind an event. *)
Lemma exec_event ev (s0 s1 : @State A) e :
  exec app ev s0 = Next s1 -> trace s1 = trace s0 ++ [e] ->
  (exists i k f, ev = Step (actor e) /\ code_of s0 (actor e) = i :: k /\
     exec_instr app (actor e) (agents s0 (actor e)) i (sh s0) = Next f /\
     s1 = apply_effect (actor e) k f s0 /\ work e = e_item f /\ act e = e_act f) \/
  (exists op, act e = ACall op) \/ act e = ALoop \/ (exists cb, act e = AAttach cb).
Proof.
  intros Hex. destruct (exec_cases _ _ _ _ Hex) as
    [(t & op & -> & E & ->)|[(kd & -> & E & ->)|[(a & i & k & f & -> & E & Hi & ->)
     |(t & i & cb & -> & Hlt & ->)]]]; simpl; intros H; apply app_inj_tail in H as [_ <-];
    simpl; eauto 10.
Qed.

Lemma exec_instr_app_inv a l i (s : @Shared A) f c r :
  exec_instr app a l i s = Next f -> e_act f = AApp c r ->
  i = ICall c /\ app_state (e_shared f) = fst (run_call app c (app_state s)) /\
  r = snd (run_call app c (app_state s)) /\ e_res f = Some r.
Proof.
  destruct i; simpl; intros H Ha; repeat case_match; simplify_eq; simpl in *;
    simplify_eq; done.
Qed.










(** The events of the current call of a caller come after its entry,
    and the caller has entered no method since. *)
Lemma cur_call_split t tr e0 evs :
  cur_call t tr = e0 :: evs ->
  exists tr0 tr', tr = tr0 ++ e0 :: tr' /\ no_call_by t tr' /\
    forall e, e ∈ evs -> e ∈ tr' /\ actor e = Caller t.
Proof.
  revert e0 evs. induction tr as [|x tr IH] using rev_ind; intros e0 evs; [done|].
  rewrite cur_call_snoc. unfold call_upd.
  assert (Hkeep : cur_call t tr = e0 :: evs ->
            (actor x = Caller t -> forall op, act x <> ACall op) ->
            exists tr0 tr', tr ++ [x] = tr0 ++ e0 :: tr' /\ no_call_by t tr' /\
              forall e, e ∈ evs -> e ∈ tr' /\ actor e = Caller t).
  { intros Hc Hx. destruct (IH _ _ Hc) as (tr0 & tr' & -> & Hn & Hin).
    exists tr0, (tr' ++ [x]). split; [by rewrite <- app_assoc|]. split.
    - intros e He Ha. apply elem_of_app in He as [He|He]; [by apply Hn|].
      apply list_elem_of_singleton in He as ->. by apply Hx.
    - intros e He. destruct (Hin e He) as [H1 H2]. split; [|done].
      apply elem_of_app. by left. }
  assert (Hadd : forall acc, cur_call t tr = acc -> acc ++ [x] = e0 :: evs ->
            actor x = Caller t -> (forall op, act x <> ACall op) ->
            exists tr0 tr', tr ++ [x] = tr0 ++ e0 :: tr' /\ no_call_by t tr' /\
              forall e, e ∈ evs -> e ∈ tr' /\ actor e = Caller t).
  { intros acc Hc Heq Hx Hnc. destruct acc as [|e1 acc].
    - simpl in Heq. simplify_eq. exists tr, []. split; [done|]. split.
      + intros e He. by apply elem_of_nil in He.
      + intros e He. by apply elem_of_nil in He.
    - simpl in Heq. injection Heq as <- <-.
      destruct (IH _ _ Hc) as (tr0 & tr' & -> & Hn & Hin).
      exists tr0, (tr' ++ [x]). split; [by rewrite <- app_assoc|]. split.
      + intros e He Ha. apply elem_of_app in He as [He|He]; [by apply Hn|].
        apply list_elem_of_singleton in He as ->. apply Hnc.
      + intros e He. apply elem_of_app in He as [He|He].
        * destruct (Hin e He) as [H1 H2]. split; [|done]. apply elem_of_app. by left.
        * apply list_elem_of_singleton in He as ->. split; [|done].
          apply elem_of_app. right. by apply list_elem_of_singleton. }
  destruct (decide (actor x = Caller t)) as [Hx|Hx].
  - destruct (act x) eqn:Hax;
      try (intros Heq; eapply Hadd; [done|done|done|congruence]).
    + intros [= <- <-]. exists tr, []. split; [done|]. split.
      * intros e He. by apply elem_of_nil in He.
      * intros e He. by apply elem_of_nil in He.
    + intros Hc. apply Hkeep; [done|]. congruence.
  - intros Hc. apply Hkeep; [done|]. done.
Qed.

(** The application call of the method a caller is in. *)
Lemma app_event_of_call sched s t e0 evs c r :
  run app sched (init a0) = Next s -> cur_call t (trace s) = e0 :: evs ->
  AApp c r ∈ map act evs ->
  exists tr1 e tr2 s0 s1,
    trace s = tr1 ++ e :: tr2 /\ actor e = Caller t /\ act e = AApp c r /\
    no_call_by t tr2 /\ made_by app a0 sched s tr1 e s0 s1 /\
    run_call app c (app_state (sh s0)) = (app_state (sh s1), r).
Proof.
  intros Hrun Hcur Hin.
  apply list_elem_of_fmap in Hin as (e & Hact & He). symmetry in Hact.
  destruct (cur_call_split _ _ _ _ Hcur) as (tr0 & tr' & Htr & Hn & Hevs).
  destruct (Hevs e He) as [He' Hactor].
  apply list_elem_of_split in He' as (tr1' & tr2 & ->).
  assert (Htr' : trace s = (tr0 ++ e0 :: tr1') ++ e :: tr2).
  { rewrite Htr. by rewrite <- app_assoc. }
  destruct (run_history _ _ _ _ _ Hrun Htr') as
    (sched0 & ev & rest & s0 & s1 & -> & H0 & Hex & Hrest & Ht0 & Ht1).
  pose proof Ht1 as Ht1'. rewrite <- Ht0 in Ht1'.
  destruct (exec_event _ _ _ _ Hex Ht1') as
    [(i & k & f & -> & E & Hi & -> & Hwf & Haf)|[(? & ?)|[?|(? & ?)]]]; try congruence.
  rewrite Hact in Haf. symmetry in Haf.
  destruct (exec_instr_app_inv _ _ _ _ _ _ _ Hi Haf) as (-> & Hst & Hres & _).
  exists (tr0 ++ e0 :: tr1'), e, tr2, s0, (apply_effect (actor e) k f s0).
  split; [done|]. split; [done|]. split; [done|]. split.
  { intros e' He'. apply Hn. apply elem_of_app. right. by apply list_elem_of_further. }
  split.
  - by exists sched0, rest.
  - simpl. rewrite Hst, Hres. by destruct (run_call app c (app_state (sh s0))).
Qed.

Lemma passes_to_async op c req x :
  async_call op = Some (c, req) -> passes_to app op x = Some (run_call app c x).
Proof.
  destruct op; simpl; intros H; by simplify_eq.
Qed.

Lemma passes_to_sync op c x :
  sync_call op = Some c -> passes_to app op x = Some (run_call app c x).
Proof.
  destruct op; simpl; intros H; by simplify_eq.
Qed.

Lemma visible_app evs c r l :
  visible evs = AApp c r :: l -> AApp c r ∈ map act evs.
Proof.
  unfold visible. intros H.
  assert (Hin : AApp c r ∈ List.filter (fun x => negb (is_lock_act x)) (map act evs)).
  { rewrite H. apply list_elem_of_here. }
  apply list_elem_of_In, filter_In in Hin as [Hin _]. by apply list_elem_of_In.
Qed.

(** *** Reading the global callback *)

Lemma callback_agent a i k :
  valid_code a (i :: k) -> is_callback_i i = true ->
  match a with
  | Caller _ => True
  | Worker _ => inside RW (i :: k) = true
  | Task _ => False
  end.
Proof.
  intros Hv Hi. destruct a as [t|kd|j]; [done| |].
  - pose proof (static_worker
      (fun _ k => match k with
                  | i :: _ => implb (is_callback_i i) (inside RW k)
                  | [] => true
                  end) ltac:(intros []; reflexivity) kd _ Hv) as Hs.
    cbv beta iota in Hs. by rewrite Hi in Hs.
  - pose proof (static_task
      (fun k => match k with i :: _ => negb (is_callback_i i) | [] => true end)
      ltac:(intros [] ?; reflexivity) j _ Hv) as Hs.
    cbv beta iota in Hs. by rewrite Hi in Hs.
Qed.

Lemma unlocked_read_op op ran i k :
  body op = ran ++ i :: k -> is_callback_i i = true -> inside RW (i :: k) = false ->
  reads_unlocked op = true.
Proof.
  intros Hb Hi Hin. destruct op; simpl in Hb; try done.
  all: repeat (destruct ran as [|? ran]; simpl in Hb;
               [injection Hb as <- <-; try done|injection Hb as <- Hb]).
  all: by destruct ran.
Qed.

End History.

(** Going through the events of a call, one statement at a time. *)
Ltac call_step :=
  match goal with
  | Hb : _ = ?ran ++ _, Hf : follows _ ?ran ?evs |- _ =>
      let r := fresh "ran" in let es := fresh "evs" in
      destruct ran as [|? r];
      [ destruct evs; [|by simpl in Hf]
      | destruct evs as [|? es]; [by simpl in Hf|];
        simpl in Hb, Hf; try discriminate Hb;
        let H1 := fresh "H" in let H2 := fresh "Hb" in
        injection Hb as H1 H2; rewrite <- H1 in *; clear H1;
        let Ha := fresh "Ha" in let Hw := fresh "Hw" in let Hn := fresh "Hn" in
        destruct Hf as [(Ha & Hw & Hn) Hf]; simpl in Ha;
        first [ specialize (Hw eq_refl eq_refl) | specialize (Hn eq_refl) ] ]
  end.

Ltac call_leaf j :=
  simpl; repeat match goal with H : act _ = _ |- _ => rewrite H; clear H end;
  repeat match goal with
         | |- context [RetReqRes (work ?e)] => replace (work e) with (Some j) by congruence
         end;
  split; [by eexists|]; split;
  [ intros ?; rewrite !elem_of_cons, elem_of_nil; intros H; destruct_or!;
    subst; congruence
  | intros Hc; by rewrite Hc in * ].

Ltac call_prefix j :=
  simpl; repeat match goal with H : act _ = _ |- _ => rewrite H; clear H end;
  repeat match goal with
         | |- context [RetReqRes (work ?e)] => replace (work e) with (Some j) by congruence
         end;
  by eexists.

(** * The claims *)

(** C5: no two goroutines are at a write-mode application call (the
    worker's real CheckTx / DeliverTx, Commit, EndBlock, SetOption,
    InitChain, BeginBlock, ReCheckTx, the synchronous CheckTx and
    DeliverTx, the assignment of the global callback) at the same time,
    and none is while another is at a read-mode call (Info, Query);
    a goroutine at such a call holds [rwLock] in the corresponding mode;
    two read-mode calls can be in progress together. *)
Theorem exclusivity {A} (app : ApplicationCC A) (a0 : A) sched (s : @State A) :
  run app sched (init a0) = Next s ->
  (forall a, at_instr write_instr s a = true ->
     rw_writer (sh s) = true /\ rw_readers (sh s) = [] /\
     forall b, b <> a ->
       at_instr write_instr s b = false /\ at_instr read_instr s b = false) /\
  (forall a, at_instr read_instr s a = true ->
     a ∈ rw_readers (sh s) /\ rw_writer (sh s) = false) /\
  (exists sched' s', run app sched' (init a0) = Next s' /\
     at_instr read_instr s' (Caller 0) = true /\
     at_instr read_instr s' (Caller 1) = true).
Proof.
  intros Hrun. pose proof (run_init_reachable _ _ _ _ Hrun) as Hr.
  destruct (reachable_RW _ _ _ Hr) as [W1 W2].
  destruct (reachable_readers _ _ _ Hr) as (R1 & R2 & R3).
  split; [|split].
  - intros a Ha. pose proof (at_write_inside _ _ _ _ Hr Ha) as Hin.
    pose proof (W1 _ Hin) as Hw. split; [done|]. split; [by apply R3|].
    intros b Hb. split.
    + destruct (at_instr write_instr s b) eqn:Hwb; [|done].
      destruct Hb. symmetry. apply W2; [done|]. by apply (at_write_inside app a0).
    + destruct (at_instr read_instr s b) eqn:Hrb; [|done].
      apply (at_read_inside _ _ _ _ Hr) in Hrb. apply R1 in Hrb.
      rewrite (R3 Hw) in Hrb. inversion Hrb.
  - intros a Ha. apply (at_read_inside _ _ _ _ Hr) in Ha. apply R1 in Ha. split; [done|].
    destruct (rw_writer (sh s)) eqn:Hw; [|done]. rewrite (R3 eq_refl) in Ha. inversion Ha.
  - exists [Invoke 0 (InfoSync []); Step (Caller 0); Invoke 1 (QuerySync []); Step (Caller 1)].
    eexists. split; [reflexivity|]. split; reflexivity.
Qed.

Lemma exclusivity_witness :
  exists s, run toy_app (Invoke 0 (BeginBlockSync []) :: steps (Caller 0) 1) (init 0%nat) = Next s /\
    rw_writer (sh s) = true.
Proof.
  eexists. split; [reflexivity|].
  exact (proj1 (proj1 (exclusivity toy_app 0%nat
                         (Invoke 0 (BeginBlockSync []) :: steps (Caller 0) 1) _ eq_refl)
                 (Caller 0) eq_refl)).
Defined.

(** C7: over an application that lacks the [ApplicationCC] methods,
    [NewAsyncLocalClient] returns the nil pointer, and [NewABCIClient]
    hands that nil pointer to its caller inside a non-nil interface value
    together with a nil error: the failed construction is not reported. *)
Theorem NewABCIClient_plain_application {A} (papp : Application A) (a0 : A) :
  NewAsyncLocalClient (PlainApp papp) a0 = None /\
  NewABCIClient {| creator_app := PlainApp papp; creator_app_state := a0 |}
    = (ClientPtr None, None).
Proof. split; reflexivity. Qed.

(** C1: [CommitSync] does not wait for the in-flight counter.  After one
    [CheckTxAsync] has returned and before its pre-validation has run,
    a [CommitSync] reaches and performs the application's [Commit] while
    the counter is 1 and the item has neither a response nor been
    handled by the worker. *)
Theorem CommitSync_skips_the_barrier {A} (app : ApplicationCC A) (a0 : A) (tx : Tx) :
  exists s,
    run app (Invoke 0 (CheckTxAsync tx) :: steps (Caller 0) 11
             ++ Invoke 1 CommitSync :: steps (Caller 1) 5) (init a0) = Next s /\
    wgCommit (sh s) = 1 /\
    Response (reqRes (items (sh s) 0%nat)) = None /\
    map act (trace s) =
      [ACall (CheckTxAsync tx); ANew Check; ALock checkTxLowLock; ALock checkTxMidLock;
       ALock commitLock; AUnlock checkTxMidLock; ASend Check; AAdd; AUnlock commitLock;
       AUnlock checkTxLowLock; ASchedule Check; ARet (RetReqRes (Some 0%nat));
       ACall CommitSync; ALock checkTxMidLock; ALock commitLock; AUnlock checkTxMidLock;
       AWLock; AApp CCommit (RspCommit (snd (Commit app a0)))].
Proof. eexists. split; [vm_compute; reflexivity|]. vm_compute. repeat split. Qed.

(** C10: for every item the counter increment comes before its closure
    is scheduled, the scheduling before the closure opens the gate, and
    the gate opening before the worker's decrement, hence the increment
    before the decrement, on both pipelines; every decrement is made by
    a worker for an item; the counter is never negative and a worker
    about to decrement it finds it positive, so [Done] does not panic. *)
Theorem add_before_done {A} (app : ApplicationCC A) (a0 : A) sched (s : @State A) :
  run app sched (init a0) = Next s ->
  precedes is_add is_sched (trace s) /\
  precedes is_sched is_open (trace s) /\
  precedes is_open is_done (trace s) /\
  precedes is_add is_done (trace s) /\
  (forall e, e ∈ trace s -> is_done e = true ->
     is_Some (work e) /\ exists kd, actor e = Worker kd) /\
  0 <= wgCommit (sh s) /\
  (forall a, at_instr is_wgdone_i s a = true ->
     0 < wgCommit (sh s) /\ exists s', exec app (Step a) s = Next s').
Proof.
  intros Hrun. pose proof (run_init_reachable _ _ _ _ Hrun) as Hr.
  assert (Hpre : forall P Q,
            (forall s1, reachable app a0 s1 ->
               forall j, j ∈ ids Q (trace s1) -> j ∈ ids P (trace s1)) ->
            (forall e, Q e = true -> P e = false) ->
            precedes P Q (trace s)).
  { intros P Q HPQ Hex tr1 e tr2 j Htr HQ Hw.
    destruct (reachable_prefix _ _ _ _ _ _ Hr Htr) as (s1 & Hr1 & Ht1).
    specialize (HPQ s1 Hr1 j). rewrite Ht1 in HPQ.
    rewrite !ids_snoc_elem in HPQ. destruct HPQ as [?|[HP _]]; [by right|done|].
    by rewrite Hex in HP. }
  split; [|split; [|split; [|split; [|split; [|split]]]]].
  - apply Hpre; [|by intros [? ? []]]. intros s1 Hr1.
    by destruct (reachable_chain _ _ _ Hr1) as (_ & K2 & _).
  - apply Hpre; [|by intros [? ? []]]. intros s1 Hr1.
    by destruct (reachable_chain _ _ _ Hr1) as (_ & _ & K3 & _).
  - apply Hpre; [|by intros [? ? []]]. intros s1 Hr1.
    by destruct (reachable_chain _ _ _ Hr1) as (_ & _ & _ & _ & _ & _ & K7).
  - apply Hpre; [|by intros [? ? []]]. intros s1 Hr1.
    by destruct (reachable_chain _ _ _ Hr1) as (_ & _ & _ & _ & _ & K6 & _).
  - intros e He Hd. by apply (reachable_counted _ _ _ Hr e He).
  - by eapply reachable_counter_nonneg.
  - intros a Hat. pose proof (done_counter_pos _ _ _ _ Hr Hat) as Hpos.
    split; [done|]. unfold at_instr, code_of in Hat. simpl.
    destruct (code (agents s a)) as [|i k]; [done|]. destruct i; try done.
    simpl. case_decide; [lia|]. eauto.
Qed.

Lemma add_before_done_witness :
  exists s,
    run toy_app (Invoke 0 (DeliverTxAsync []) :: steps (Caller 0) 5 ++ steps (Task 0) 3
                 ++ steps (Worker Deliver) 8) (init 0%nat) = Next s /\
    ids is_done (trace s) = [0%nat] /\
    precedes is_add is_done (trace s).
Proof.
  eexists. split; [vm_compute; reflexivity|]. split; [vm_compute; reflexivity|].
  match goal with
  | |- precedes _ _ (trace ?s) =>
      refine (proj1 (proj2 (proj2 (proj2
                (add_before_done toy_app 0%nat
                   (Invoke 0 (DeliverTxAsync []) :: steps (Caller 0) 5 ++ steps (Task 0) 3
                    ++ steps (Worker Deliver) 8) s _)))))
  end.
  vm_compute. reflexivity.
Defined.

(** C4: a worker iteration is the receive, the gate, then one write
    section holding the real call and response write, the done-marking,
    the counter decrement and both callbacks; while a worker is at any of
    these statements [rwLock] is write-held and no other goroutine is in
    a write section.  When the application call of a commit-class method
    begins with the counter at zero, every item whose increment was
    counted has been through the real-call step and has a response, has
    been marked done and counted down, and its per-request and global
    callbacks have run. *)
Theorem commit_sees_settled_items {A} (app : ApplicationCC A) (a0 : A) sched (s : @State A) :
  run app sched (init a0) = Next s ->
  (forall kd, worker_body kd =
     [IRecv kd; IGateLock; IGateUnlock] ++
     IWLock :: [IReal kd; IReqResDone; IWgDone; IReqCb; IItemCallback] ++ [IWUnlock]) /\
  (forall a, at_instr settle_instr s a = true ->
     rw_writer (sh s) = true /\ forall b, b <> a -> inside RW (code_of s b) = false) /\
  (forall t, at_instr is_commit_call s (Caller t) = true -> wgCommit (sh s) = 0 ->
     forall j, j ∈ ids is_add (trace s) ->
       j ∈ ids is_attempt (trace s) /\ Response (reqRes (items (sh s) j)) <> None /\
       j ∈ ids is_rrdone (trace s) /\ j ∈ ids is_done (trace s) /\
       j ∈ ids is_cbstep (trace s) /\ j ∈ ids is_gcb (trace s)).
Proof.
  intros Hrun. pose proof (run_init_reachable _ _ _ _ Hrun) as Hr.
  pose proof (reachable_valid _ _ _ Hr) as Hv.
  destruct (reachable_RW _ _ _ Hr) as [W1 W2].
  split; [done|]. split.
  - intros a Ha.
    assert (Hin : inside RW (code_of s a) = true).
    { unfold at_instr in Ha. specialize (Hv a).
      destruct (code_of s a) as [|i k]; [done|].
      eapply inside_need; [by apply (sound_RW a)|]. cbv beta. rewrite Ha.
      by destruct (write_instr i). }
    split; [by eapply W1|]. intros b Hb.
    destruct (inside RW (code_of s b)) eqn:Hin'; [|done].
    destruct Hb. by apply W2.
  - intros t Ht Hz j Hj.
    destruct (reachable_counter _ _ _ Hr) as (_ & _ & Q3 & Q4 & Q5).
    destruct (reachable_chain _ _ _ Hr) as (_ & _ & _ & _ & _ & K6 & _).
    assert (Hperm : ids is_done (trace s) ≡ₚ ids is_add (trace s)).
    { apply submseteq_length_Permutation; [by apply NoDup_submseteq|]. lia. }
    assert (Hd : j ∈ ids is_done (trace s)) by (by rewrite Hperm).
    assert (Hg : j ∈ ids is_gcb (trace s)).
    { destruct (reachable_settling _ _ _ Hr j Hd) as [?|(kd & H1 & H2 & H3)]; [done|].
      exfalso.
      assert (Hw : inside RW (code_of s (Worker kd)) = true).
      { eapply settling_in_RW; [apply Hv|done..]. }
      assert (Hc : inside RW (code_of s (Caller t)) = true).
      { unfold at_instr in Ht. specialize (Hv (Caller t)).
        destruct (code_of s (Caller t)) as [|i k]; [done|].
        eapply inside_need; [by apply (sound_RW (Caller t))|]. cbv beta.
        destruct i as [| | | | | | | | | | | | | | | | | | | | | |[]| | | |]; done. }
      by specialize (W2 _ _ Hw Hc). }
    destruct (reachable_attempted _ _ _ Hr) as [_ P1].
    destruct (reachable_marked _ _ _ Hr) as [_ P2].
    destruct (reachable_called_back _ _ _ Hr) as [_ P3].
    repeat split; auto. apply (reachable_response _ _ _ Hr). auto.
Qed.

Lemma commit_sees_settled_items_witness :
  exists s,
    run toy_app (Invoke 0 (SetResponseCallback (Some 7%nat)) :: steps (Caller 0) 4
                 ++ Invoke 0 (CheckTxAsync []) :: steps (Caller 0) 11 ++ steps (Task 0) 3
                 ++ steps (Worker Check) 11
                 ++ Invoke 1 CommitAsync :: steps (Caller 1) 5) (init 0%nat) = Next s /\
    0%nat ∈ ids is_gcb (trace s).
Proof.
  eexists. split; [vm_compute; reflexivity|].
  match goal with
  | |- _ ∈ ids _ (trace ?s) =>
      refine (proj2 (proj2 (proj2 (proj2 (proj2
                (proj2 (proj2
                   (commit_sees_settled_items toy_app 0%nat
                      (Invoke 0 (SetResponseCallback (Some 7%nat)) :: steps (Caller 0) 4
                       ++ Invoke 0 (CheckTxAsync []) :: steps (Caller 0) 11
                       ++ steps (Task 0) 3 ++ steps (Worker Check) 11
                       ++ Invoke 1 CommitAsync :: steps (Caller 1) 5) s _))
                   1%nat _ _ 0%nat _))))))
  end.
  - vm_compute. reflexivity.
  - vm_compute. reflexivity.
  - vm_compute. reflexivity.
  - vm_compute. apply list_elem_of_here.
Defined.

(** C2: on each pipeline, whatever the order in which the pool closures
    run, no item is enqueued twice and the global callbacks are delivered
    in the order of enqueueing: the deliveries are an initial segment of
    the enqueued items, and all of them once the queue is empty and the
    worker is between two items.  The real calls and the per-request
    callbacks come in that same order; they are sub-sequences, the real
    call being skipped for an item that already has a response and the
    per-request callback for an item that has none attached.  For
    [CheckTxAsync] the order of enqueueing is the order in which the
    submissions passed the admission mutex, at most one of which has not
    enqueued yet. *)
Theorem submission_order_is_delivery_order {A} (app : ApplicationCC A) (a0 : A)
    sched (s : @State A) :
  run app sched (init a0) = Next s ->
  (forall kd,
     NoDup (ids (is_send_to kd) (trace s)) /\
     ids (is_gcb_of kd) (trace s) `prefix_of` ids (is_send_to kd) (trace s) /\
     ids (is_real_of kd) (trace s) `sublist_of` ids (is_send_to kd) (trace s) /\
     ids (is_cb_of kd) (trace s) `sublist_of` ids (is_send_to kd) (trace s) /\
     (queues (sh s) kd = [] -> inside WGcb (code_of s (Worker kd)) = false ->
        ids (is_gcb_of kd) (trace s) = ids (is_send_to kd) (trace s))) /\
  ids (is_send_to Check) (trace s) `prefix_of` ids is_admit (trace s) /\
  (length (ids is_admit (trace s))
   <= S (length (ids (is_send_to Check) (trace s))))%nat.
Proof.
  intros Hrun. pose proof (run_init_reachable _ _ _ _ Hrun) as Hr.
  split; [|by apply (admission_prefix app a0)].
  intros kd. destruct (reachable_order _ _ kd _ Hr) as (O1 & O2 & O3).
  assert (Hsub : forall b : bool,
            ids (is_gcb_of kd) (trace s) ++ (if b then [] else curG s kd)
              `sublist_of` ids (is_send_to kd) (trace s)).
  { intros b. rewrite O1. apply sublist_app; [done|].
    destruct b; [apply sublist_nil_l|by apply sublist_inserts_r]. }
  split; [|split; [|split; [|split]]].
  - eapply sublist_NoDup; [apply (reachable_send_nodup _ _ _ Hr)|].
    apply (ids_sublist (is_send_to kd) is_send). intros [? ? []]; done.
  - rewrite O1. by eexists.
  - etrans; [exact O2|apply Hsub].
  - etrans; [exact O3|apply Hsub].
  - intros Hq Hw. rewrite O1, Hq. unfold curG. rewrite Hw. by rewrite !app_nil_r.
Qed.

Lemma submission_order_is_delivery_order_witness :
  exists s,
    run toy_app fifo_schedule (init 0%nat) = Next s /\
    ids is_open (trace s) = [2; 1; 0]%nat /\
    ids (is_real_of Check) (trace s) = [0; 2]%nat /\
    ids (is_cb_of Check) (trace s) = [1]%nat /\
    ids (is_gcb_of Check) (trace s) = [0; 1; 2]%nat /\
    ids (is_gcb_of Check) (trace s) = ids (is_send_to Check) (trace s).
Proof.
  eexists. split; [vm_compute; reflexivity|].
  do 4 (split; [vm_compute; reflexivity|]).
  match goal with
  | |- _ = ids _ (trace ?s) =>
      refine (proj2 (proj2 (proj2 (proj2
                (proj1 (submission_order_is_delivery_order toy_app 0%nat fifo_schedule s _)
                   Check)))) _ _)
  end.
  - vm_compute. reflexivity.
  - vm_compute. reflexivity.
  - vm_compute. reflexivity.
Defined.



(** C6: the events of a caller since it entered [CheckTxAsync] are, in
    this order and as far as the call has got: the creation of the work
    item with its gate locked, the acquisition of the admission mutex,
    of the arbitration mutex, of the commit mutex, the release of the
    arbitration mutex, the enqueueing on the validate-class queue, the
    increment of the in-flight counter, the release of the commit mutex,
    the release of the admission mutex, the scheduling of the
    pre-validation closure, and the return of the handle of that same
    work item; a call that has returned went through all of them. *)
Theorem CheckTxAsync_step_order {A} (app : ApplicationCC A) (a0 : A)
    sched (s : @State A) t tx e0 evs :
  run app sched (init a0) = Next s ->
  cur_call t (trace s) = e0 :: evs ->
  act e0 = ACall (CheckTxAsync tx) ->
  exists j,
    map act evs `prefix_of`
      [ANew Check; ALock checkTxLowLock; ALock checkTxMidLock; ALock commitLock;
       AUnlock checkTxMidLock; ASend Check; AAdd; AUnlock commitLock;
       AUnlock checkTxLowLock; ASchedule Check; ARet (RetReqRes (Some j))] /\
    (forall e, e ∈ evs -> work e = Some j) /\
    (code_of s (Caller t) = [] ->
     map act evs =
       [ANew Check; ALock checkTxLowLock; ALock checkTxMidLock; ALock commitLock;
        AUnlock checkTxMidLock; ASend Check; AAdd; AUnlock commitLock;
        AUnlock checkTxLowLock; ASchedule Check; ARet (RetReqRes (Some j))]).
Proof.
  intros Hrun Hcur Hact. pose proof (run_init_reachable _ _ _ _ Hrun) as Hr.
  pose proof (reachable_call _ _ _ Hr t) as Hc. rewrite Hcur in Hc.
  destruct Hc as (op & ran & Hop & Hb & Hf & _).
  rewrite Hact in Hop. injection Hop as <-. simpl in Hb.
  call_step.
  { exists 0%nat. split; [apply prefix_nil|]. split; [by intros ? ?%elem_of_nil|].
    intros Hc. by rewrite Hc in *. }
  destruct Hn as [j Hj]. exists j.
  do 10 (call_step; [call_leaf j|]). call_step. call_leaf j.
Qed.

Lemma CheckTxAsync_step_order_witness :
  exists s,
    run toy_app (Invoke 0 (CheckTxAsync []) :: steps (Caller 0) 11) (init 0%nat) = Next s /\
    exists j,
      map act (tail (cur_call 0 (trace s))) =
        [ANew Check; ALock checkTxLowLock; ALock checkTxMidLock; ALock commitLock;
         AUnlock checkTxMidLock; ASend Check; AAdd; AUnlock commitLock;
         AUnlock checkTxLowLock; ASchedule Check; ARet (RetReqRes (Some j))].
Proof.
  eexists. split; [vm_compute; reflexivity|].
  match goal with
  | |- context [trace ?s] =>
      destruct (CheckTxAsync_step_order toy_app 0%nat
                  (Invoke 0 (CheckTxAsync []) :: steps (Caller 0) 11) s 0%nat [] _ _
                  eq_refl eq_refl eq_refl) as (j & _ & _ & H)
  end.
  exists j. apply H. reflexivity.
Defined.

(** C8: the events of a caller since it entered [DeliverTxAsync] are the
    creation of the work item, the enqueueing on the apply-class queue,
    the increment of the in-flight counter, the scheduling of the
    pre-apply closure and the return of the handle, with no acquisition
    of a mutex or of [rwLock] among them.  A step of the call leaves the
    three mutexes, [rwLock], the application, the global callback, the
    validate-class queue and pool and every existing work item as they
    are; the apply-class queue can only grow by the item of the call,
    the counter only by one, and the only goroutine touched is the
    closure started for that item.  The call never panics and waits
    only for room in the apply-class queue or in the apply-class pool. *)
Theorem DeliverTxAsync_frame {A} (app : ApplicationCC A) (a0 : A)
    sched (s : @State A) t tx e0 evs :
  run app sched (init a0) = Next s ->
  cur_call t (trace s) = e0 :: evs ->
  act e0 = ACall (DeliverTxAsync tx) ->
  (exists j, map act evs `prefix_of`
     [ANew Deliver; ASend Deliver; AAdd; ASchedule Deliver; ARet (RetReqRes (Some j))]) /\
  (forall s', exec app (Step (Caller t)) s = Next s' ->
     mutexes (sh s') = mutexes (sh s) /\
     rw_writer (sh s') = rw_writer (sh s) /\
     rw_readers (sh s') = rw_readers (sh s) /\
     app_state (sh s') = app_state (sh s) /\
     Callback (sh s') = Callback (sh s) /\
     queues (sh s') Check = queues (sh s) Check /\
     pool_load (sh s') Check = pool_load (sh s) Check /\
     (forall j, (j < next (sh s))%nat -> items (sh s') j = items (sh s) j) /\
     (queues (sh s') Deliver = queues (sh s) Deliver \/
      exists j, item_of s (Caller t) = Some j /\
        queues (sh s') Deliver = queues (sh s) Deliver ++ [j]) /\
     (wgCommit (sh s') = wgCommit (sh s) \/ wgCommit (sh s') = wgCommit (sh s) + 1) /\
     (forall b, b <> Caller t ->
        agents s' b = agents s b \/
        exists j, b = Task j /\ item_of s (Caller t) = Some j /\
          agents s' b = {| code := task_body Deliver tx; item := Some j; res := None |})) /\
  exec app (Step (Caller t)) s <> Panic /\
  (exec app (Step (Caller t)) s = Blocked ->
     (at_instr is_send_i s (Caller t) = true /\
      (queue_cap Deliver <= length (queues (sh s) Deliver))%nat) \/
     (at_instr is_sched_i s (Caller t) = true /\
      (pool_cap Deliver <= pool_load (sh s) Deliver)%nat) \/
     code_of s (Caller t) = []).
Proof.
  intros Hrun Hcur Hact. pose proof (run_init_reachable _ _ _ _ Hrun) as Hr.
  pose proof (reachable_call _ _ _ Hr t) as Hc. rewrite Hcur in Hc.
  destruct Hc as (op & ran & Hop & Hb & Hf & _).
  rewrite Hact in Hop. injection Hop as <-.
  split.
  { simpl in Hb. call_step; [exists 0%nat; apply prefix_nil|].
    destruct Hn as [j Hj]. exists j.
    do 4 (call_step; [call_prefix j|]). call_step. call_prefix j. }
  assert (Htail : code_of s (Caller t) ∈ tails (body (DeliverTxAsync tx))).
  { rewrite Hb. apply tails_app. }
  clear Hb Hf.
  pose proof (reachable_RSub_item _ _ s (Caller t) Hr) as Hit.
  unfold at_instr, item_of, code_of in *.
  simpl in Htail. rewrite !elem_of_cons, elem_of_nil in Htail.
  unfold exec. destruct_or!; try done; rewrite Htail in *; simpl.
  - split; [|done]. intros s' [= <-]. simpl. repeat split; try done; try (by left).
    + intros j Hj. unfold insert, fn_insert. case_decide; [lia|done].
    + intros b Hb'. left. by rewrite fn_lookup_insert_ne.
  - destruct Hit as [w Hw]; [done|]. case_decide.
    + split; [|done]. intros s' [= <-]. simpl. repeat split; try done; try (by left).
      * right. exists w. rewrite Hw. simpl. by rewrite fn_lookup_insert.
      * intros b Hb'. left. by rewrite fn_lookup_insert_ne.
    + split; [done|]. split; [done|]. intros _. left. split; [done|lia].
  - split; [|done]. intros s' [= <-]. simpl. repeat split; try done; try (by left).
    + by right.
    + intros b Hb'. left. by rewrite fn_lookup_insert_ne.
  - destruct Hit as [w Hw]; [done|]. case_decide.
    + split; [|done]. intros s' [= <-]. simpl. repeat split; try done; try (by left).
      intros b Hb'. rewrite fn_lookup_insert_ne by done. rewrite Hw. simpl.
      destruct (decide (b = Task w)) as [->|Hne].
      * right. exists w. by rewrite fn_lookup_insert.
      * left. by rewrite fn_lookup_insert_ne.
    + split; [done|]. split; [done|]. intros _. right. left. split; [done|lia].
  - split; [|done]. intros s' [= <-]. simpl. repeat split; try done; try (by left).
    intros b Hb'. left. by rewrite fn_lookup_insert_ne.
  - split; [done|]. split; [done|]. intros _. by right; right.
Qed.

Lemma DeliverTxAsync_frame_witness :
  exists s,
    run toy_app (Invoke 0 (DeliverTxAsync []) :: steps (Caller 0) 2) (init 0%nat) = Next s /\
    exists j, map act (tail (cur_call 0 (trace s))) `prefix_of`
      [ANew Deliver; ASend Deliver; AAdd; ASchedule Deliver; ARet (RetReqRes (Some j))].
Proof.
  eexists. split; [vm_compute; reflexivity|].
  match goal with
  | |- context [trace ?s] =>
      exact (proj1 (DeliverTxAsync_frame toy_app 0%nat
                      (Invoke 0 (DeliverTxAsync []) :: steps (Caller 0) 2) s 0%nat [] _ _
                      eq_refl eq_refl eq_refl))
  end.
Defined.

(** C9: a queue never holds more than its capacity.  A submitter at the
    enqueueing of pipeline [kd] holds its work item; with the queue at
    capacity its step blocks, and whatever the other goroutines and the
    environment do meanwhile, it stays at the enqueueing with the same
    item; with room in the queue the step succeeds and puts that item
    at the back of the queue.  The worker at its receive takes an item
    out of a non-empty queue, which makes room.  What follows the
    enqueueing ends with the return of the handle, there is no error
    result, and every item enqueued is delivered, being delivered or
    still in the queue. *)
Theorem backpressure {A} (app : ApplicationCC A) (a0 : A) sched (s : @State A) kd :
  run app sched (init a0) = Next s ->
  (length (queues (sh s) kd) <= queue_cap kd)%nat /\
  (forall a k, code_of s a = ISend kd :: k ->
     exists j, item_of s a = Some j /\
       (length (queues (sh s) kd) = queue_cap kd -> exec app (Step a) s = Blocked) /\
       ((length (queues (sh s) kd) < queue_cap kd)%nat ->
        exists s', exec app (Step a) s = Next s' /\
          queues (sh s') kd = queues (sh s) kd ++ [j] /\
          code_of s' a = k /\ item_of s' a = Some j) /\
       (forall e s', e <> Step a -> exec app e s = Next s' ->
          code_of s' a = ISend kd :: k /\ item_of s' a = Some j) /\
       list.last k = Some (IReturn RkHandle)) /\
  (forall k, code_of s (Worker kd) = IRecv kd :: k -> queues (sh s) kd <> [] ->
     exists s', exec app (Step (Worker kd)) s = Next s' /\
       S (length (queues (sh s') kd)) = length (queues (sh s) kd)) /\
  (forall j, j ∈ ids (is_send_to kd) (trace s) ->
     j ∈ ids (is_gcb_of kd) (trace s) \/ j ∈ curG s kd \/ j ∈ queues (sh s) kd).
Proof.
  intros Hrun. pose proof (run_init_reachable _ _ _ _ Hrun) as Hr.
  pose proof (reachable_valid _ _ _ Hr) as Hv.
  split; [by apply (reachable_queue_bound app a0)|]. split; [|split].
  - intros a k Ha.
    destruct (reachable_RSub_item _ _ s a Hr) as [j Hj].
    { rewrite Ha. eapply inside_need; [apply (sound_RSub a)|done].
      rewrite <- Ha. apply Hv. }
    assert (Hc : exists t, a = Caller t).
    { specialize (Hv a). rewrite Ha in Hv. apply agent_instr_ok in Hv.
      destruct a as [t| |]; [eauto|done..]. }
    destruct Hc as [t ->].
    assert (Hret : list.last k = Some (IReturn RkHandle)).
    { pose proof (send_then_handle _ _ (Hv (Caller t))) as Hs. rewrite Ha in Hs.
      destruct (list.last k) as [[| | | | | | | | | | | | | | | | | | | | | | | | | |[]]|]; done. }
    exists j. unfold code_of, item_of in *. split; [done|]. split; [|split; [|split]];
      [| | |done].
    + intros Hfull. simpl. rewrite Ha. simpl. case_decide; [lia|done].
    + intros Hroom. simpl. rewrite Ha. simpl. rewrite decide_True by done.
      eexists. split; [done|]. simpl. rewrite !fn_lookup_insert. simpl.
      rewrite Hj. done.
    + intros e s' He Hex.
      destruct (exec_cases _ _ _ _ Hex) as
        [(t' & op & -> & E & ->)|[(kd' & -> & E & ->)|[(b & i & k' & f & -> & E & Hi & ->)
         |(t' & i & cb & -> & Hlt & ->)]]]; simpl.
      * unfold code_of in E. destruct (decide (t' = t)) as [->|Hne]; [congruence|].
        rewrite fn_lookup_insert_ne by congruence. done.
      * rewrite fn_lookup_insert_ne by congruence. done.
      * rewrite fn_lookup_insert_ne by congruence.
        destruct (exec_instr_spawn _ _ _ _ _ _ Hi) as [->|(kd' & tx & -> & ->)]; [done|].
        rewrite fn_lookup_insert_ne by congruence. done.
      * done.
  - intros k Hw Hq. unfold code_of in Hw. simpl. rewrite Hw. simpl.
    destruct (queues (sh s) kd) as [|n q] eqn:Eq; [done|].
    eexists. split; [done|]. simpl. by rewrite fn_lookup_insert.
  - intros j. destruct (reachable_order _ _ kd _ Hr) as (O1 & _). rewrite O1.
    rewrite !elem_of_app. tauto.
Qed.

Lemma backpressure_witness :
  exists s,
    run toy_app full_queue_schedule (init 0%nat) = Next s /\
    length (queues (sh s) Deliver) = queue_cap Deliver /\
    exec toy_app (Step (Caller 0)) s = Blocked.
Proof.
  exists (final toy_app 0%nat full_queue_schedule).
  assert (Hrun : run toy_app full_queue_schedule (init 0%nat) =
                 Next (final toy_app 0%nat full_queue_schedule))
    by (vm_compute; reflexivity).
  assert (Hfull : length (queues (sh (final toy_app 0%nat full_queue_schedule)) Deliver) =
                  queue_cap Deliver)
    by (vm_compute; reflexivity).
  split; [exact Hrun|]. split; [exact Hfull|].
  assert (Hcode : code_of (final toy_app 0%nat full_queue_schedule) (Caller 0) =
            ISend Deliver :: [IAdd; ISchedule Deliver []; IReturn RkHandle])
    by (vm_compute; reflexivity).
  destruct (proj1 (proj2 (backpressure toy_app 0%nat full_queue_schedule _ Deliver Hrun))
              (Caller 0) _ Hcode) as (j & _ & Hb & _).
  exact (Hb Hfull).
Defined.

(** * Further properties of the client *)

(** ** Invariants *)

Section More.
Context {A : Type} (app : ApplicationCC A) (a0 : A).
Abbreviation reachable := (reachable app a0).

Lemma sound_WHold a k : valid_code a k -> sound_at WHold never k = true.
Proof. revert a k. static_check. Qed.

(** Only a worker that has just locked the gate of its item is inside
    [WHold]; it is then before the counter decrement and past the gate. *)
Lemma WHold_shape a k :
  valid_code a k -> inside WHold k = true ->
  inside WDone k = true /\ inside WPass k = true /\ inside WGcb k = true /\
  match k with IGateUnlock :: _ => True | _ => False end /\
  exists kd, a = Worker kd.
Proof.
  intros Hv Hin.
  pose proof (static_fact
    (fun k => implb (inside WHold k)
                (inside WDone k && inside WPass k && inside WGcb k &&
                 match k with IGateUnlock :: _ => true | _ => false end))
    ltac:(intros []; reflexivity) ltac:(intros []; reflexivity)
    ltac:(intros [] ?; reflexivity) a k Hv) as Hs.
  cbv beta in Hs. rewrite Hin in Hs. simpl in Hs.
  rewrite !andb_true_iff in Hs. destruct Hs as [[[? ?] ?] Hh].
  repeat split; try done.
  - by destruct k as [|[] ?].
  - destruct k as [|i k]; [done|]. apply agent_instr_ok in Hv.
    destruct i; try done. destruct a; try done. eauto.
Qed.

Lemma workers_distinct s kd1 kd2 j :
  reachable s -> kd1 <> kd2 ->
  inside WDone (code_of s (Worker kd1)) = true ->
  inside WDone (code_of s (Worker kd2)) = true ->
  item_of s (Worker kd1) = Some j -> item_of s (Worker kd2) = Some j -> False.
Proof.
  intros Hr Hne H1 H2 I1 I2.
  destruct (reachable_counter _ _ _ Hr) as (Q1 & _).
  unfold pending, pending_of, cur_of in Q1.
  assert (Hc : forall kd, kd = kd1 \/ kd = kd2 ->
            (if inside WDone (code_of s (Worker kd))
             then option_list (item_of s (Worker kd)) else []) = [j]).
  { intros kd [->| ->]; by rewrite ?H1, ?H2, ?I1, ?I2. }
  rewrite (Hc Check), (Hc Deliver) in Q1 by (destruct kd1, kd2; auto; congruence).
  simpl in Q1. apply list.NoDup_cons in Q1 as [Hn _]. apply Hn.
  apply elem_of_app. right. apply list_elem_of_here.
Qed.

Lemma reachable_gate s : reachable s -> gate_inv s.
Proof.
  induction 1 as [|s e s' Hr IH Hex]; [done|].
  pose proof (reachable_valid _ _ _ Hr) as Hv.
  pose proof (reachable_task _ _ _ Hr) as HT.
  destruct (reachable_task_fresh _ _ _ Hr) as (_ & F2 & _).
  destruct (reachable_chain _ _ _ Hr) as (_ & _ & _ & _ & K5 & _).
  unfold gate_inv, task_inv, code_of, item_of in *.
  destruct (exec_cases _ _ _ _ Hex) as
    [(t & op & -> & E & ->)|[(kd & -> & E & ->)|[(a & i & k & f & -> & E & Hi & ->)
     |(t & i & cb & -> & Hlt & ->)]]]; simpl.
  - intros b j. look; [by destruct op|apply IH].
  - intros b j. look; [done|apply IH].
  - pose proof (Hv a) as Hva. unfold code_of in *. rewrite E in Hva.
    pose proof (inside_next WHold never i k (sound_WHold _ _ Hva)) as Hn.
    intros b j Hin Hit.
    destruct (mtx (items (e_shared f) j)) eqn:Hm; [done|exfalso].
    assert (Hb : b = a \/ (b <> a /\ inside WHold (code (agents s b)) = true /\
                           item (agents s b) = Some j)).
    { destruct (decide (b = a)) as [->|Hne]; [by left|right]. split; [done|].
      revert Hin Hit. look.
      destruct (exec_instr_spawn _ _ _ _ _ _ Hi) as [->|(kd & tx & -> & ->)]; [done|].
      look; [by destruct kd|done]. }
    destruct Hb as [->|(Hne & Hin0 & Hit0)].
    + revert Hin Hit. look. rewrite Hn. intros Hin Hit.
      destruct (rel WHold i) eqn:Hrl; [done|]. destruct (acq WHold i) eqn:Hac.
      * destruct i; try done. simpl in Hi. case_match; [done|]. simplify_eq.
        simpl in Hit, Hm. rewrite Hit in Hm. simpl in Hm. by rewrite fn_lookup_insert in Hm.
      * destruct (WHold_shape _ _ Hva Hin) as (_ & _ & _ & Hh & _). by destruct i.
    + destruct (WHold_shape _ _ (Hv b) Hin0) as (D1 & P1 & _ & _ & [kdb ->]).
      destruct (exec_instr_mtx _ _ _ _ _ _ j Hi Hm) as [[Hold _]|[Hj [->| ->]]].
      * by rewrite (IH _ _ Hin0 Hit0) in Hold.
      * pose proof (agent_instr_ok _ _ _ Hva) as Hk.
        destruct a as [t|kda|j']; [done| |done].
        destruct (reachable_WGcb_item _ _ s (Worker kda) Hr) as [w Hw].
        { unfold code_of. rewrite E.
          eapply inside_need; [by apply (sound_WGcb (Worker kda))|done]. }
        unfold item_of in Hw. rewrite Hw in Hj. simpl in Hj. subst w.
        apply (workers_distinct s kdb kda j Hr); unfold code_of, item_of; try done.
        -- congruence.
        -- rewrite E. by destruct (WHold_shape _ _ Hva eq_refl) as (? & _).
      * destruct (task_only _ _ _ Hva eq_refl) as [j' ->].
        destruct (HT j') as [Hj' _]; [by rewrite E|].
        rewrite Hj' in Hj. simpl in Hj. subst j'.
        apply (F2 j).
        -- unfold code_of. by rewrite E.
        -- by apply (K5 (Worker kdb)).
  - intros b j Hin Hit. specialize (IH b j Hin Hit).
    unfold insert, fn_insert. by case_decide; subst.
Qed.

(** *** The wait group of a handle *)

Lemma WRRD_shape a k :
  valid_code a k -> inside WRRD k = true ->
  inside WDone k = true /\ inside WGcb k = true /\ exists kd, a = Worker kd.
Proof.
  intros Hv Hin.
  pose proof (static_fact
    (fun k => implb (inside WRRD k) (inside WDone k && inside WGcb k))
    ltac:(intros []; reflexivity) ltac:(intros []; reflexivity)
    ltac:(intros [] ?; reflexivity) a k Hv) as Hs.
  cbv beta in Hs. rewrite Hin in Hs. simpl in Hs.
  rewrite !andb_true_iff in Hs. destruct Hs as [? ?]. split; [done|]. split; [done|].
  destruct a as [t|kd|j]; [|eauto|].
  - pose proof (static_caller (fun k => negb (inside WRRD k))
                  ltac:(intros []; reflexivity) t k Hv) as Hc.
    cbv beta in Hc. by rewrite Hin in Hc.
  - pose proof (static_task (fun k => negb (inside WRRD k))
                  ltac:(intros [] ?; reflexivity) j k Hv) as Hc.
    cbv beta in Hc. by rewrite Hin in Hc.
Qed.

Lemma marked_shape a k :
  valid_code a k ->
  match k with
  | IReqResDone :: k' => inside WDone k' = true /\ inside WRRD k' = false /\
                         inside WRRD k = true
  | i :: _ => inside WDone k = true -> inside WRRD k = false -> i = IWgDone
  | [] => True
  end.
Proof.
  intros Hv.
  pose proof (static_fact
    (fun k => match k with
              | IReqResDone :: k' => inside WDone k' && negb (inside WRRD k') && inside WRRD k
              | IWgDone :: _ => true
              | _ :: _ => negb (inside WDone k && negb (inside WRRD k))
              | [] => true
              end)
    ltac:(intros []; reflexivity) ltac:(intros []; reflexivity)
    ltac:(intros [] ?; reflexivity) a k Hv) as Hs.
  cbv beta in Hs. destruct k as [|i k]; [done|].
  destruct i; try done;
    try (intros H1 H2; rewrite H1, H2 in Hs; done).
  rewrite !andb_true_iff, negb_true_iff in Hs. by destruct Hs as [[? ?] ?].
Qed.

Lemma reachable_marking s : reachable s -> marking_inv s.
Proof.
  induction 1 as [|s e s' Hr IH Hex].
  - intros j Hj. by apply elem_of_nil in Hj.
  - pose proof (reachable_valid _ _ _ Hr) as Hv.
    unfold marking_inv, code_of, item_of in *.
    destruct (exec_cases _ _ _ _ Hex) as
      [(t & op & -> & E & ->)|[(kd & -> & E & ->)|[(a & i & k & f & -> & E & Hi & ->)
       |(t & i & cb & -> & Hlt & ->)]]]; simpl.
    + intros j. rewrite !ids_snoc, !app_nil_r. intros Hj.
      destruct (IH j Hj) as [?|(kd & ? & ? & ?)]; [by left|right].
      exists kd. by look.
    + intros j. rewrite !ids_snoc, !app_nil_r. intros Hj.
      destruct (IH j Hj) as [?|(kd' & H1 & ? & ?)]; [by left|right].
      exists kd'. look; [|done]. unfold code_of in E. by rewrite E in H1.
    + pose proof (Hv a) as Hva. unfold code_of in *. rewrite E in Hva.
      pose proof (marked_shape _ _ Hva) as Hsh.
      destruct (exec_instr_act _ _ _ _ _ _ (e_item f) Hi) as
        (_ & Ed & _ & _ & _ & _ & _ & Er & _).
      assert (Hit : is_new i = false -> is_recv_i i = false ->
                e_item f = item (agents s a)).
      { intros H1 H2. destruct (exec_instr_item _ _ _ _ _ _ Hi) as
          [(_ & _ & -> & _)|[(? & _)|(? & ? & ? & -> & _)]]; [done|congruence|done]. }
      intros j. rewrite !ids_snoc_elem, Ed, Er. cbn [work]. intros [Hj|[Hrd Hj]].
      * destruct (IH j Hj) as [Hg|(kd & H1 & H2 & H3)]; [by left; left|].
        destruct (decide (a = Worker kd)) as [->|Hne].
        -- rewrite E in H1, H2.
           assert (i = IWgDone) as -> by (destruct i; try done; by apply Hsh).
           left. right. split; [done|]. by rewrite Hit.
        -- right. exists kd. look.
           destruct (exec_instr_spawn _ _ _ _ _ _ Hi) as [->|(kd' & tx & -> & ->)]; [done|].
           by look.
      * destruct i; try done. destruct Hsh as (S1 & S2 & S3).
        destruct (WRRD_shape _ _ Hva S3) as (_ & _ & [kd ->]).
        right. exists kd. look. rewrite Hit in Hj by done. by rewrite Hit.
    + intros j. rewrite !ids_snoc, !app_nil_r. apply IH.
Qed.

(** A worker that has not marked its item done finds it unmarked. *)
Lemma rrdone_fresh s a j :
  reachable s -> inside WRRD (code_of s a) = true -> item_of s a = Some j ->
  j ∉ ids is_rrdone (trace s).
Proof.
  intros Hr Hin Hit Hj.
  pose proof (reachable_valid _ _ _ Hr) as Hv.
  destruct (WRRD_shape _ _ (Hv a) Hin) as (Hd & _ & [kd ->]).
  destruct (reachable_counter _ _ _ Hr) as (_ & Q2 & _).
  destruct (reachable_marking _ Hr j Hj) as [Hdn|(kd' & H1 & H2 & H3)].
  - revert Hdn. apply Q2. unfold pending, pending_of, cur_of.
    destruct kd; rewrite Hd, Hit; simpl; [apply list_elem_of_here|].
    apply elem_of_app. right. apply list_elem_of_here.
  - destruct (decide (kd' = kd)) as [->|Hne]; [congruence|].
    by apply (workers_distinct s kd' kd j Hr).
Qed.

Lemma exec_instr_rr_wg a l i (s : Shared) f j :
  exec_instr app a l i s = Next f ->
  rr_wg (reqRes (items (e_shared f) j)) =
    match i with
    | INewItem _ _ => if decide (j = next s) then 1 else rr_wg (reqRes (items s j))
    | IReqResDone =>
        if decide (j = default 0%nat (item l)) then rr_wg (reqRes (items s j)) - 1
        else rr_wg (reqRes (items s j))
    | _ => rr_wg (reqRes (items s j))
    end.
Proof.
  destruct i; simpl; intros H;
    repeat match type of H with
           | context [match ?x with _ => _ end] => destruct x eqn:?
           end;
    simplify_eq; cbn; try done.
  all: repeat case_match; cbn.
  all: unfold insert, fn_insert; repeat case_decide; subst; simpl; try done.
Qed.

Lemma reachable_wg s : reachable s -> wg_inv s.
Proof.
  induction 1 as [|s e s' Hr IH Hex].
  - intros j Hj. simpl in Hj. lia.
  - pose proof (reachable_valid _ _ _ Hr) as Hv.
    pose proof (reachable_bound _ _ _ Hr) as HB.
    destruct HB as (B1 & _ & B3).
    unfold wg_inv, code_of, item_of in *.
    destruct (exec_cases _ _ _ _ Hex) as
      [(t & op & -> & E & ->)|[(kd & -> & E & ->)|[(a & i & k & f & -> & E & Hi & ->)
       |(t & i & cb & -> & Hlt & ->)]]]; simpl.
    + intros j. rewrite ids_snoc, app_nil_r. apply IH.
    + intros j. rewrite ids_snoc, app_nil_r. apply IH.
    + pose proof (Hv a) as Hva. unfold code_of in *. rewrite E in Hva.
      destruct (exec_instr_act _ _ _ _ _ _ (e_item f) Hi) as
        (_ & _ & _ & _ & _ & _ & _ & Er & _).
      pose proof (exec_instr_next _ _ _ _ _ _ Hi) as Hnx.
      intros j Hj. rewrite (exec_instr_rr_wg _ _ _ _ _ j Hi).
      assert (Hmem : is_rrdone_i i = false ->
                (j ∈ ids is_rrdone (trace s ++ [{| actor := a; work := e_item f;
                                                   act := e_act f |}]) <->
                 j ∈ ids is_rrdone (trace s))).
      { intros Hf. rewrite ids_snoc_elem, Er, Hf. naive_solver. }
      destruct i; try (rewrite Hnx in Hj; simpl in Hj;
                       rewrite IH by done; repeat case_decide; try done;
                       rewrite Hmem in * by done; done).
      * (* a new item *)
        rewrite Hnx in Hj. simpl in Hj.
        destruct (decide (j = next (sh s))) as [Hn|Hn].
        -- rewrite decide_False; [done|]. rewrite Hmem, Hn by done.
           apply fresh_below; [by apply (reachable_bound app a0)|lia].
        -- rewrite IH by lia. repeat case_decide; try done; rewrite Hmem in * by done; done.
      * (* the done-marking *)
        destruct (marked_shape _ _ Hva) as (_ & _ & S3).
        destruct (reachable_WGcb_item _ _ s a Hr) as [w Hw].
        { unfold code_of. rewrite E. by destruct (WRRD_shape _ _ Hva S3) as (_ & ? & _). }
        unfold item_of in Hw.
        assert (Hit : e_item f = Some w).
        { destruct (exec_instr_item _ _ _ _ _ _ Hi) as
            [(_ & _ & -> & _)|[(? & _)|(? & ? & ? & ? & _)]]; done. }
        pose proof (rrdone_fresh s a w Hr) as Hfr. unfold code_of, item_of in Hfr.
        rewrite E in Hfr. specialize (Hfr S3 Hw).
        rewrite Hnx in Hj. simpl in Hj. rewrite Hw. simpl. rewrite IH by done.
        destruct (decide (j = w)) as [Hjw|Hjw].
        -- subst j. rewrite decide_False by done. rewrite decide_True; [done|].
           apply ids_snoc_elem. right. rewrite Er. by rewrite Hit.
        -- repeat case_decide; try done;
             match goal with H : _ ∈ ids _ (_ ++ _) |- _ =>
               apply ids_snoc_elem in H as [?|[_ Hx]]; [done|simpl in Hx; congruence]
             | H : ¬ _ ∈ ids _ (_ ++ _) |- _ => destruct H; by apply ids_mono end.
    + intros j Hj. rewrite ids_snoc, app_nil_r. rewrite <- IH by done.
      simpl. unfold insert, fn_insert. by case_decide; subst.
Qed.

Lemma marked_after_real a k :
  valid_code a k ->
  match k with
  | IReqResDone :: _ => inside WGcb k = true /\ inside WReal k = false
  | _ => True
  end.
Proof.
  intros Hv.
  pose proof (static_fact
    (fun k => match k with
              | IReqResDone :: _ => inside WGcb k && negb (inside WReal k)
              | _ => true
              end)
    ltac:(intros []; reflexivity) ltac:(intros []; reflexivity)
    ltac:(intros [] ?; reflexivity) a k Hv) as Hs.
  cbv beta in Hs. destruct k as [|[] k]; try done.
  rewrite andb_true_iff, negb_true_iff in Hs. done.
Qed.

(** An item is marked done once, after the real-call step. *)
Lemma reachable_marked_once s :
  reachable s ->
  NoDup (ids is_rrdone (trace s)) /\
  (forall j, j ∈ ids is_rrdone (trace s) -> j ∈ ids is_attempt (trace s)).
Proof.
  induction 1 as [|s e s' Hr IH Hex].
  - split; [apply NoDup_nil_2|]. intros j Hj. by apply elem_of_nil in Hj.
  - pose proof (reachable_valid _ _ _ Hr) as Hv. destruct IH as [N1 N2].
    unfold code_of, item_of in *.
    destruct (exec_cases _ _ _ _ Hex) as
      [(t & op & -> & E & ->)|[(kd & -> & E & ->)|[(a & i & k & f & -> & E & Hi & ->)
       |(t & i & cb & -> & Hlt & ->)]]]; simpl.
    1, 2, 4: rewrite !ids_snoc; cbn; rewrite !app_nil_r; done.
    pose proof (Hv a) as Hva. unfold code_of in *. rewrite E in Hva.
    destruct (exec_instr_act _ _ _ _ _ _ (e_item f) Hi) as
      (_ & _ & _ & _ & _ & _ & Ea & Er & _).
    destruct (is_rrdone_i i) eqn:Hrd.
    + destruct i; try done. destruct (marked_after_real _ _ Hva) as [G1 G2].
      destruct (marked_shape _ _ Hva) as (_ & _ & S3).
      destruct (reachable_WGcb_item _ _ s a Hr) as [w Hw]; [unfold code_of; by rewrite E|].
      unfold item_of in Hw.
      assert (Hit : e_item f = Some w).
      { destruct (exec_instr_item _ _ _ _ _ _ Hi) as
          [(_ & _ & -> & _)|[(? & _)|(? & ? & ? & ? & _)]]; done. }
      pose proof (rrdone_fresh s a w Hr) as Hfr. unfold code_of, item_of in Hfr.
      rewrite E in Hfr. specialize (Hfr S3 Hw).
      destruct (reachable_attempted _ _ _ Hr) as [P1 _].
      specialize (P1 a w). unfold code_of, item_of in P1. rewrite E in P1.
      specialize (P1 G1 G2 Hw).
      split.
      * rewrite ids_snoc, Er. cbn [work]. rewrite Hit. simpl.
        apply list.NoDup_app. split; [done|]. split; [|apply NoDup_singleton].
        by intros x Hx ->%list_elem_of_singleton.
      * intros j. rewrite !ids_snoc_elem, Er, Ea. cbn [work]. rewrite Hit.
        intros [Hj|[_ [= <-]]]; left; [by apply N2|done].
    + split.
      * rewrite ids_snoc, Er. by rewrite app_nil_r.
      * intros j. rewrite !ids_snoc_elem, Er. intros [Hj|[? _]]; [|done].
        left. by apply N2.
Qed.

(** *** Run-time failures *)

Lemma step_panic s a :
  reachable s -> exec app (Step a) s = Panic ->
  Callback (sh s) = None /\ at_instr is_callback_i s a = true.
Proof.
  intros Hr. pose proof (reachable_valid _ _ _ Hr a) as Hva.
  unfold exec, at_instr, code_of in *.
  destruct (code (agents s a)) as [|i k] eqn:E; [by destruct a|].
  destruct (exec_instr app a (agents s a) i (sh s)) as [f| |] eqn:Hi; try done.
  intros _.
  destruct (reachable_bound _ _ _ Hr) as (B1 & _).
  unfold exec_instr in Hi.
  remember (default 0%nat (item (agents s a))) as wi eqn:Hwi.
  destruct i; simpl in Hi; repeat case_match; try done; exfalso.
  - (* Unlock *)
    destruct (reachable_RM _ _ m _ Hr) as [M1 _].
    specialize (M1 a). unfold code_of in M1. rewrite E in M1. simpl in M1.
    rewrite bool_decide_eq_true_2 in M1 by done. by rewrite M1 in *.
  - (* RUnlock *)
    destruct (reachable_readers _ _ _ Hr) as (R1 & _).
    specialize (R1 a). unfold code_of in R1. rewrite E in R1. simpl in R1.
    destruct R1 as [R1 _]. specialize (R1 eq_refl).
    match goal with H : rw_readers _ = [] |- _ => rewrite H in R1 end.
    by apply elem_of_nil in R1.
  - (* rwLock.Unlock *)
    destruct (reachable_RW _ _ _ Hr) as [W1 _].
    specialize (W1 a). unfold code_of in W1. rewrite E in W1. simpl in W1.
    by rewrite W1 in *.
  - (* wgCommit.Done *)
    pose proof (done_counter_pos _ _ s a Hr) as Hp. unfold at_instr, code_of in Hp.
    rewrite E in Hp. specialize (Hp eq_refl). lia.
  - (* the worker's gate unlock *)
    destruct (WHold_shape _ _ Hva eq_refl) as (_ & _ & G & _).
    destruct (reachable_WGcb_item _ _ s a Hr) as [w Hw]; [unfold code_of; by rewrite E|].
    pose proof (reachable_gate _ Hr a w) as Hg. unfold code_of, item_of in *.
    rewrite E in Hg. specialize (Hg eq_refl Hw).
    rewrite Hw in Hwi. simpl in Hwi. subst wi. congruence.
  - (* reqRes.Done *)
    destruct (marked_shape _ _ Hva) as (_ & _ & S3).
    destruct (WRRD_shape _ _ Hva S3) as (_ & G & _).
    destruct (reachable_WGcb_item _ _ s a Hr) as [w Hw]; [unfold code_of; by rewrite E|].
    pose proof (rrdone_fresh s a w Hr) as Hfr. unfold code_of, item_of in *.
    rewrite E in Hfr. specialize (Hfr S3 Hw).
    pose proof (reachable_wg _ Hr w (B1 _ _ Hw)) as Hwg.
    rewrite decide_False in Hwg by done.
    rewrite Hw in Hwi. simpl in Hwi. subst wi. lia.
  - (* the closure's deferred unlock *)
    destruct (task_only _ _ _ Hva eq_refl) as [j ->].
    destruct (reachable_task _ _ _ Hr j) as [Hj _]; [unfold code_of; by rewrite E|].
    destruct (reachable_task_fresh _ _ _ Hr) as (_ & F2 & _).
    destruct (reachable_chain _ _ _ Hr) as (_ & _ & _ & K4 & _).
    unfold item_of in *. rewrite Hj in Hwi. simpl in Hwi. subst wi.
    apply (F2 j); [unfold code_of; by rewrite E|]. apply K4; [by eapply B1|done].
Qed.

(** *** The commit barrier *)

Lemma barrier_shape a k :
  valid_code a k ->
  (barrier_code k = true -> inside (RM commitLock) k = true) /\
  match k with
  | i :: k' =>
      (barrier_code k' = true -> i = IWait \/ (barrier_code k = true /\ i = IWLock)) /\
      (i = IWait -> inside (RM commitLock) k = true) /\
      (i = ISend Check ->
       check_sent_code k' = true /\ inside (RM commitLock) k = true)
  | [] => True
  end.
Proof.
  intros Hv.
  pose proof (static_fact
    (fun k => implb (barrier_code k) (inside (RM commitLock) k) &&
      match k with
      | i :: k' =>
          implb (barrier_code k')
            (is_wait_i i || (barrier_code k && match i with IWLock => true | _ => false end))
          && implb (is_wait_i i) (inside (RM commitLock) k)
          && implb (is_send_to_i Check i)
               (check_sent_code k' && inside (RM commitLock) k)
      | [] => true
      end)
    ltac:(intros []; reflexivity) ltac:(intros []; reflexivity)
    ltac:(intros [] ?; reflexivity) a k Hv) as Hs.
  cbv beta in Hs. apply andb_true_iff in Hs as [H1 H2].
  split; [intros Hb; by rewrite Hb in H1|].
  destruct k as [|i k']; [done|].
  rewrite !andb_true_iff in H2. destruct H2 as [[H2 H3] H4].
  split; [|split].
  - intros Hb. rewrite Hb in H2. simpl in H2.
    destruct i; simpl in H2; rewrite ?andb_true_r, ?andb_false_r in H2;
      try done; try (by left).
    by right.
  - intros ->. done.
  - intros ->. simpl in H4. by apply andb_true_iff in H4.
Qed.

Lemma check_sent_locked k :
  check_sent_code k = true -> inside (RM commitLock) k = true.
Proof.
  destruct k as [|i k]; [done|]. destruct i; try done.
  destruct k as [|i k]; [done|]. destruct i; try done. by destruct m.
Qed.

Lemma reachable_sent_added s : reachable s -> sent_added_inv s.
Proof.
  induction 1 as [|s e s' Hr IH Hex].
  - intros j Hj. by apply elem_of_nil in Hj.
  - pose proof (reachable_valid _ _ _ Hr) as Hv.
    unfold sent_added_inv, code_of, item_of in *.
    destruct (exec_cases _ _ _ _ Hex) as
      [(t & op & -> & E & ->)|[(kd & -> & E & ->)|[(a & i & k & f & -> & E & Hi & ->)
       |(t & i & cb & -> & Hlt & ->)]]]; simpl.
    + intros j. rewrite !ids_snoc, !app_nil_r. intros Hj.
      destruct (IH j Hj) as [?|(b & H1 & H2)]; [by left|right].
      exists b. look; [|done]. unfold code_of in E. by rewrite E in H1.
    + intros j. rewrite !ids_snoc, !app_nil_r. intros Hj.
      destruct (IH j Hj) as [?|(b & H1 & H2)]; [by left|right].
      exists b. look; [|done]. unfold code_of in E. by rewrite E in H1.
    + pose proof (Hv a) as Hva. unfold code_of in *. rewrite E in Hva.
      destruct (barrier_shape _ _ Hva) as (_ & _ & _ & Hsend).
      destruct (exec_instr_order _ _ _ _ _ _ _ (e_item f) Check Hi Hva) as (Es & _).
      destruct (exec_instr_act _ _ _ _ _ _ (e_item f) Hi) as (Ea & _).
      assert (Hit : is_new i = false -> is_recv_i i = false ->
                e_item f = item (agents s a)).
      { intros H1 H2. destruct (exec_instr_item _ _ _ _ _ _ Hi) as
          [(_ & _ & -> & _)|[(? & _)|(? & ? & ? & -> & _)]]; [done|congruence|done]. }
      intros j. rewrite !ids_snoc_elem, Es, Ea. cbn [work]. intros [Hj|[Hsd Hj]].
      * destruct (IH j Hj) as [?|(b & H1 & H2)]; [by left; left|].
        destruct (decide (b = a)) as [->|Hne].
        -- rewrite E in H1. left. right. destruct i; try done. by rewrite Hit.
        -- assert (Hcal : exists t, b = Caller t).
           { specialize (Hv b). destruct (code (agents s b)) as [|[] ?]; try done.
             apply agent_instr_ok in Hv. destruct b; try done. eauto. }
           destruct Hcal as [t ->]. right. exists (Caller t). look.
           destruct (exec_instr_spawn _ _ _ _ _ _ Hi) as [->|(kd' & tx & -> & ->)]; [done|].
           by look.
      * right. exists a. look. destruct i; try done.
        apply bool_decide_eq_true in Hsd. subst. by destruct Hsend.
    + intros j. rewrite !ids_snoc, !app_nil_r. apply IH.
Qed.

Lemma counter_zero_all_done s j :
  reachable s -> wgCommit (sh s) = 0 -> j ∈ ids is_add (trace s) ->
  j ∈ ids is_done (trace s).
Proof.
  intros Hr Hz Hj.
  destruct (reachable_counter _ _ _ Hr) as (_ & _ & Q3 & Q4 & Q5).
  destruct (reachable_chain _ _ _ Hr) as (_ & _ & _ & _ & _ & K6 & _).
  assert (Hperm : ids is_done (trace s) ≡ₚ ids is_add (trace s)).
  { apply submseteq_length_Permutation; [by apply NoDup_submseteq|]. lia. }
  by rewrite Hperm.
Qed.

Lemma reachable_barrier s : reachable s -> barrier_inv s.
Proof.
  induction 1 as [|s e s' Hr IH Hex].
  - intros a. done.
  - pose proof (reachable_valid _ _ _ Hr) as Hv.
    destruct (reachable_RM _ _ commitLock _ Hr) as [_ M2].
    pose proof (reachable_sent_added _ Hr) as SA.
    unfold barrier_inv, sent_added_inv, code_of, item_of in *.
    destruct (exec_cases _ _ _ _ Hex) as
      [(t & op & -> & E & ->)|[(kd & -> & E & ->)|[(a & i & k & f & -> & E & Hi & ->)
       |(t & i & cb & -> & Hlt & ->)]]]; simpl.
    + intros b. rewrite !ids_snoc, !app_nil_r. look; [by destruct op|apply IH].
    + intros b. rewrite !ids_snoc, !app_nil_r. look; [done|apply IH].
    + pose proof (Hv a) as Hva. unfold code_of in *. rewrite E in Hva.
      destruct (barrier_shape _ _ Hva) as (_ & Hent & Hwt & Hsend).
      destruct (exec_instr_order _ _ _ _ _ _ _ (e_item f) Check Hi Hva) as (Es & _).
      intros b Hb j. rewrite !ids_snoc_elem, Es. cbn [work].
      destruct (decide (b = a)) as [->|Hne].
      * revert Hb. look. intros Hb. destruct (Hent Hb) as [->|[Hb' ->]].
        -- intros [Hj|[? _]]; [|done]. left.
           simpl in Hi. case_decide as Hz; [|done].
           destruct (SA j Hj) as [Hadd|(c & H1 & H2)].
           ++ by apply (counter_zero_all_done s j Hr).
           ++ exfalso. assert (a = c) as <-.
              { apply M2; unfold code_of.
                - rewrite E. by apply Hwt.
                - by apply check_sent_locked. }
              by rewrite E in H1.
        -- intros [Hj|[? _]]; [|done]. left. apply (IH a); [by rewrite E|done].
      * assert (Hb0 : barrier_code (code (agents s b)) = true).
        { revert Hb. look.
          destruct (exec_instr_spawn _ _ _ _ _ _ Hi) as [->|(kd' & tx & -> & ->)]; [done|].
          look; [by destruct kd'|done]. }
        intros [Hj|[Hsd Hj]]; [left; by apply (IH b)|]. exfalso.
        destruct i; try done. apply bool_decide_eq_true in Hsd. subst.
        destruct Hsend as [_ Hin]; [done|]. apply Hne. apply M2; unfold code_of.
        -- by apply (barrier_shape _ _ (Hv b)).
        -- by rewrite E.
    + intros b. rewrite !ids_snoc, !app_nil_r. apply IH.
Qed.

(** *** The global callback *)

Lemma exec_instr_callback a l i (s : Shared) f :
  exec_instr app a l i s = Next f ->
  Callback (e_shared f) = match e_act f with ASetCallback cb => cb | _ => Callback s end /\
  (forall g req r, e_act f = AGcb g req r -> Callback s = Some g).
Proof.
  destruct i; simpl; intros H;
    repeat match type of H with
           | context [match ?x with _ => _ end] => destruct x eqn:?
           end;
    simplify_eq; cbn; split; try done; intros; by simplify_eq.
Qed.

(** *** Results of the pass-through methods *)

Lemma exec_instr_res a l i (s : Shared) f w :
  exec_instr app a l i s = Next f ->
  let ev := {| actor := a; work := w; act := e_act f |} in
  step_res (res l) i ev /\ e_res f = next_res (res l) i ev.
Proof.
  destruct i; try match goal with rk : retkind |- _ => destruct rk end; simpl; intros H;
    repeat match type of H with
           | context [match ?x with _ => _ end] => destruct x eqn:?
           end;
    simplify_eq; cbn; eauto.
Qed.

Lemma follows_res_snoc r ran evs i e :
  follows_res r ran evs -> step_res (last_res r ran evs) i e ->
  follows_res r (ran ++ [i]) (evs ++ [e]).
Proof.
  revert r evs. induction ran as [|i' ran IH]; intros r [|e' evs]; simpl; try done.
  intros [H1 H2] H3. split; [done|]. by apply IH.
Qed.

Lemma last_res_snoc r ran evs i e :
  follows_res r ran evs ->
  last_res r (ran ++ [i]) (evs ++ [e]) = next_res (last_res r ran evs) i e.
Proof.
  revert r evs. induction ran as [|i' ran IH]; intros r [|e' evs]; simpl; try done.
  intros [_ H]. by apply IH.
Qed.

Lemma reachable_call_res s : reachable s -> call_res_inv s.
Proof.
  induction 1 as [|s e s' Hr IH Hex]; [done|].
  unfold call_res_inv, code_of, item_of in *.
  destruct (exec_cases _ _ _ _ Hex) as
    [(t & op & -> & E & ->)|[(kd & -> & E & ->)|[(a & i & k & f & -> & E & Hi & ->)
     |(t & i & cb & -> & Hlt & ->)]]]; simpl; intros t'; rewrite cur_call_snoc;
    specialize (IH t').
  - unfold call_upd. cbn [actor act]. case_decide as Ht.
    + injection Ht as <-. look. exists op, []. done.
    + look. done.
  - unfold call_upd. cbn [actor act]. rewrite decide_False by done. by look.
  - rewrite (call_upd_step _ _ _ _ _ _ _ _ _ Hi). unfold code_of in E.
    case_decide as Ha.
    + subst a. look. rewrite E in IH.
      pose proof (reachable_call _ _ _ Hr t') as Hc.
      destruct (cur_call t' (trace s)) as [|e0 evs].
      { unfold code_of in Hc. congruence. }
      destruct IH as (op & ran & Hop & Hb & Hfr & Hl). simpl.
      destruct (exec_instr_res _ _ _ _ _ (e_item f) Hi) as [R1 R2].
      exists op, (ran ++ [i]). split; [done|]. split; [by rewrite <- app_assoc|].
      split.
      * apply follows_res_snoc; [done|]. by rewrite Hl.
      * rewrite last_res_snoc by done. by rewrite Hl.
    + look. destruct (exec_instr_spawn _ _ _ _ _ _ Hi) as [->|(kd & tx & -> & ->)]; [done|].
      by look.
  - unfold call_upd. cbn [actor act]. by case_decide.
Qed.

Lemma call_course s t e0 evs op :
  reachable s -> cur_call t (trace s) = e0 :: evs -> act e0 = ACall op ->
  exists ran, body op = ran ++ code_of s (Caller t) /\
    follows None ran evs /\ follows_res None ran evs.
Proof.
  intros Hr Hcur Hact.
  pose proof (reachable_call _ _ _ Hr t) as H1.
  pose proof (reachable_call_res _ Hr t) as H2. rewrite Hcur in H1, H2.
  destruct H1 as (op1 & ran1 & Hop1 & Hb1 & Hf & _).
  destruct H2 as (op2 & ran2 & Hop2 & Hb2 & Hfr & _).
  rewrite Hact in Hop1, Hop2. simplify_eq.
  rewrite Hb1 in Hb2. apply app_inv_tail in Hb2 as ->. eauto.
Qed.

(** *** Holding the exclusivity lock *)

Lemma write_section_shape a k :
  valid_code a k -> inside RW k = true ->
  (to_release k <= 6)%nat /\
  match k with
  | i :: k' =>
      may_block i = false /\
      (match i with ISetCallback _ => cb_ahead k' = false | _ => True end) /\
      (match i with IWUnlock => True | _ => inside RW k' = true end)
  | [] => False
  end.
Proof.
  intros Hv Hin.
  pose proof (static_fact
    (fun k => implb (inside RW k)
      ((to_release k <=? 6)%nat &&
       match k with
       | i :: k' =>
           negb (may_block i) &&
           match i with ISetCallback _ => negb (cb_ahead k') | _ => true end &&
           match i with IWUnlock => true | _ => inside RW k' end
       | [] => false
       end))
    ltac:(intros []; reflexivity) ltac:(intros []; reflexivity)
    ltac:(intros [] ?; reflexivity) a k Hv) as Hs.
  cbv beta in Hs. rewrite Hin in Hs. simpl in Hs.
  apply andb_true_iff in Hs as [H1 H2]. apply Nat.leb_le in H1. split; [done|].
  destruct k as [|i k']; [done|].
  rewrite !andb_true_iff, negb_true_iff in H2. destruct H2 as [[H2 H3] H4].
  split; [done|]. split.
  - destruct i; try done. by apply negb_true_iff.
  - by destruct i.
Qed.

Lemma read_section_shape a k :
  valid_code a k -> inside RR k = true ->
  match k with i :: _ => may_block i = false | [] => False end.
Proof.
  intros Hv Hin.
  pose proof (static_fact
    (fun k => implb (inside RR k)
       match k with i :: _ => negb (may_block i) | [] => false end)
    ltac:(intros []; reflexivity) ltac:(intros []; reflexivity)
    ltac:(intros [] ?; reflexivity) a k Hv) as Hs.
  cbv beta in Hs. rewrite Hin in Hs. simpl in Hs.
  destruct k as [|i k']; [done|]. by apply negb_true_iff.
Qed.

Lemma exec_instr_blocked a l i (s : Shared) :
  exec_instr app a l i s = Blocked -> may_block i = true.
Proof. destruct i; simpl; intros H; repeat case_match; done. Qed.

Lemma holder_steps s a :
  reachable s -> inside RW (code_of s a) = true \/ inside RR (code_of s a) = true ->
  exec app (Step a) s <> Blocked.
Proof.
  intros Hr Hin Hex. pose proof (reachable_valid _ _ _ Hr a) as Hv.
  unfold exec, code_of in *.
  assert (Hnb : match code (agents s a) with
                | i :: _ => may_block i = false | [] => False end).
  { destruct Hin as [Hin|Hin].
    - destruct (write_section_shape _ _ Hv Hin) as [_ Hs].
      destruct (code (agents s a)); [done|]. by destruct Hs.
    - by apply (read_section_shape a). }
  destruct (code (agents s a)) as [|i k]; [done|].
  destruct (exec_instr app a (agents s a) i (sh s)) eqn:Hi; try done.
  apply exec_instr_blocked in Hi. congruence.
Qed.

Lemma write_lock_released n : forall s a,
  reachable s -> inside RW (code_of s a) = true ->
  (cb_ahead (code_of s a) = true -> Callback (sh s) <> None) ->
  to_release (code_of s a) = n ->
  exists s', run app (steps a n) s = Next s' /\
    rw_writer (sh s') = false /\ inside RW (code_of s' a) = false.
Proof.
  induction n as [|n IH]; intros s a Hr Hin Hcb Hn.
  - pose proof (reachable_valid _ _ _ Hr a) as Hv.
    destruct (write_section_shape _ _ Hv Hin) as [_ Hs].
    destruct (code_of s a) as [|[] ?]; done.
  - pose proof (reachable_valid _ _ _ Hr a) as Hv.
    destruct (write_section_shape _ _ Hv Hin) as [_ Hs].
    pose proof (holder_steps s a Hr (or_introl Hin)) as Hnb.
    destruct (exec app (Step a) s) as [s1| |] eqn:Hex; [|done|].
    2: { destruct (step_panic s a Hr Hex) as [Hc Hat]. exfalso. apply Hcb; [|done].
         unfold at_instr in Hat. destruct (code_of s a) as [|i k]; [done|].
         destruct i; try done. }
    assert (Hr1 : reachable s1) by (by eapply reach_step).
    cbn [steps repeat run]. rewrite Hex. fold (steps a n).
    destruct (exec_cases _ _ _ _ Hex) as
      [(t & op & ? & _)|[(kd & [= ->] & E & _)|[(b & i & k & f & [= <-] & E & Hi & ->)
       |(? & ? & ? & ? & _)]]]; try done.
    { by rewrite E in Hin. }
    rewrite E in Hs, Hin, Hcb, Hn. destruct Hs as (_ & Hset & Hnext).
    assert (Hcase : i = IWUnlock \/
              (to_release k = n /\ inside RW k = true /\
               (cb_ahead k = true -> cb_ahead (i :: k) = true) /\
               (forall cb, i = ISetCallback cb -> cb_ahead k = false))).
    { destruct i; try (by left); right; simpl in Hn, Hnext, Hset |- *;
        (split; [congruence|]); (split; [done|]); split;
        try (intros ->; by rewrite ?orb_true_r); try done. }
    destruct Hcase as [->|(Hn' & Hin' & Hk & Hsc)].
    + simpl in Hn. injection Hn as <-. simpl. eexists. split; [done|].
      simpl in Hi. case_match; [|done]. simplify_eq. simpl. split; [done|].
      unfold code_of. simpl. rewrite fn_lookup_insert. simpl.
      unfold code_of in Hv, E. rewrite E in Hv.
      pose proof (inside_next RW _ _ _ (sound_RW _ _ Hv)) as Hx. by simpl in Hx.
    + apply (IH _ a Hr1).
      * unfold code_of. simpl. by rewrite fn_lookup_insert.
      * unfold code_of. simpl. rewrite fn_lookup_insert. simpl. intros Hka.
        destruct (exec_instr_callback _ _ _ _ _ Hi) as [Hc _]. rewrite Hc.
        assert (Hact : (exists cb, i = ISetCallback cb) \/
                  match e_act f with ASetCallback _ => False | _ => True end).
        { clear -Hi. destruct i; simpl in Hi;
            repeat match type of Hi with
                   | context [match ?x with _ => _ end] => destruct x eqn:?
                   end; simplify_eq; simpl; eauto. }
        destruct Hact as [[cb ->]|Hact].
        -- by rewrite (Hsc cb eq_refl) in Hka.
        -- destruct (e_act f); try done; by apply Hcb, Hk.
      * unfold code_of. simpl. by rewrite fn_lookup_insert.
Qed.

(** Locks are taken in one order. *)
Lemma lock_order_static a i k L L' :
  valid_code a (i :: k) -> acquires i = Some L -> holds L' (i :: k) = true ->
  (rank L' < rank L)%nat.
Proof.
  intros Hv Ha Hh.
  pose proof (static_fact
    (fun k => match k with
              | i :: _ =>
                  match acquires i with
                  | Some L =>
                      forallb (fun L' => implb (holds L' k) (rank L' <? rank L)%nat)
                        [Mx checkTxLowLock; Mx checkTxMidLock; Mx commitLock; Rw]
                  | None => true
                  end
              | [] => true
              end)
    ltac:(intros []; reflexivity) ltac:(intros []; reflexivity)
    ltac:(intros [] ?; reflexivity) a _ Hv) as Hs.
  cbv beta iota in Hs. rewrite Ha in Hs. rewrite forallb_forall in Hs.
  specialize (Hs L'). rewrite Hh in Hs. simpl in Hs. apply Nat.ltb_lt, Hs.
  destruct L' as [[]|]; simpl; auto 10.
Qed.

(** *** Pre-validation comes first *)

Lemma task_code_shape j k :
  valid_code (Task j) k ->
  match k with
  | IDeferUnlock :: _ => inside TPre k = false
  | _ => True
  end.
Proof.
  intros Hv.
  pose proof (static_task
    (fun k => match k with IDeferUnlock :: _ => negb (inside TPre k) | _ => true end)
    ltac:(intros [] ?; reflexivity) j k Hv) as Hs.
  cbv beta in Hs. destruct k as [|[] ?]; try done. by apply negb_true_iff.
Qed.

Lemma reachable_pre_done s : reachable s -> pre_done_inv s.
Proof.
  induction 1 as [|s e s' Hr IH Hex].
  - split; [done|]. intros j Hj. by apply elem_of_nil in Hj.
  - pose proof (reachable_valid _ _ _ Hr) as Hv.
    pose proof (reachable_task _ _ _ Hr) as HT.
    destruct IH as [P1 P2].
    unfold pre_done_inv, task_inv, code_of, item_of in *.
    destruct (exec_cases _ _ _ _ Hex) as
      [(t & op & -> & E & ->)|[(kd & -> & E & ->)|[(a & i & k & f & -> & E & Hi & ->)
       |(t & i & cb & -> & Hlt & ->)]]]; simpl.
    + rewrite !ids_snoc. cbn. rewrite !app_nil_r. split; [|done]. intros j. look. exact (P1 j).
    + rewrite !ids_snoc. cbn. rewrite !app_nil_r. split; [|done]. intros j. look. exact (P1 j).
    + pose proof (Hv a) as Hva. unfold code_of in *. rewrite E in Hva.
      destruct (exec_instr_act _ _ _ _ _ _ (e_item f) Hi) as
        (_ & _ & _ & _ & Eo & Ep & _).
      assert (Htask : task_instr i = true ->
                exists j', a = Task j' /\ e_item f = Some j').
      { intros Hti. destruct (task_only _ _ _ Hva Hti) as [j' ->]. exists j'.
        destruct (HT j') as [Hit _]; [by rewrite E|]. split; [done|].
        destruct (exec_instr_item _ _ _ _ _ _ Hi) as
          [(_ & _ & -> & _)|[(Hnw & _)|(kd & ? & ? & -> & _)]]; [done|by destruct i|done]. }
      split.
      * intros j. rewrite ids_snoc_elem, Ep. cbn [work]. look.
        -- pose proof (inside_next TPre never i k (sound_TPre _ _ Hva)) as Hn.
           cbn [acq rel TPre never] in Hn. fold (is_pre_i i) in Hn. rewrite Hn.
           intros Hk. destruct (is_pre_i i) eqn:Hp.
           ++ intros _. right. split; [done|].
              destruct Htask as (j' & [= <-] & ->); [by destruct i|done].
           ++ intros Hin. left. apply P1; by rewrite E.
        -- destruct (exec_instr_spawn _ _ _ _ _ _ Hi) as [->|(kd & tx & -> & ->)].
           ++ intros H1 H2. left. by apply P1.
           ++ look; [done|]. intros H1 H2. left. by apply P1.
      * intros j. rewrite !ids_snoc_elem, Eo, Ep. cbn [work]. intros [Hj|[Hop Hj]].
        -- left. by apply P2.
        -- left. destruct i; try done.
           destruct Htask as (j' & -> & Hit); [done|]. rewrite Hit in Hj. simplify_eq.
           apply P1; rewrite E; [done|]. exact (task_code_shape j _ Hva).
    + rewrite !ids_snoc. cbn. rewrite !app_nil_r. done.
Qed.

(** Order of the events of an item, from what holds in every state. *)
Lemma precedes_of P Q s :
  reachable s ->
  (forall s1, reachable s1 -> forall j, j ∈ ids Q (trace s1) -> j ∈ ids P (trace s1)) ->
  (forall e, Q e = true -> P e = false) ->
  precedes P Q (trace s).
Proof.
  intros Hr HPQ Hex tr1 e tr2 j Htr HQ Hw.
  destruct (reachable_prefix _ _ _ _ _ _ Hr Htr) as (s1 & Hr1 & Ht1).
  specialize (HPQ s1 Hr1 j). rewrite Ht1 in HPQ.
  rewrite !ids_snoc_elem in HPQ. destruct HPQ as [?|[HP _]]; [by right|done|].
  by rewrite Hex in HP.
Qed.

End More.

(** ** The properties *)

(** X1: every release finds what it releases.  A goroutine about to
    unlock a mutex finds it locked, about to [RUnlock] is among the
    readers of [rwLock], about to unlock [rwLock] finds it write-locked,
    about to count the in-flight counter or the wait group of a handle
    down finds it positive, and about to unlock the gate of an item,
    the worker as well as the closure with its deferred unlock, finds
    the gate locked. *)
Theorem releases_find_their_lock {A} (app : ApplicationCC A) (a0 : A)
    sched (s : @State A) a i k :
  run app sched (init a0) = Next s ->
  code_of s a = i :: k ->
  release_ok s a i.
Proof.
  intros Hrun E. pose proof (run_init_reachable _ _ _ _ Hrun) as Hr.
  pose proof (reachable_valid _ _ _ Hr a) as Hva. rewrite E in Hva.
  assert (Hnp : is_callback_i i = false -> exec app (Step a) s <> Panic).
  { intros Hn Hp. destruct (step_panic app a0 s a Hr Hp) as [_ Hat].
    unfold at_instr in Hat. rewrite E in Hat. congruence. }
  destruct (reachable_bound _ _ _ Hr) as (B1 & _).
  unfold exec in *. unfold code_of in E. rewrite E in *.
  destruct i; try exact I; specialize (Hnp eq_refl); simpl in *.
  - by destruct (mutexes (sh s) m).
  - destruct (reachable_readers _ _ _ Hr) as (R1 & _).
    specialize (R1 a). unfold code_of in R1. rewrite E in R1. simpl in R1.
    destruct R1 as [R1 _]. by apply R1.
  - by destruct (rw_writer (sh s)).
  - case_decide; [done|]. lia.
  - destruct (reachable_WGcb_item _ _ s a Hr) as [w Hw].
    { unfold code_of. rewrite E. eapply inside_need; [by apply (sound_WGcb a)|done]. }
    unfold item_of in *. rewrite Hw in *. simpl in *.
    destruct (mtx (items (sh s) w)) eqn:Hm; [|done]. by exists w.
  - destruct (reachable_WGcb_item _ _ s a Hr) as [w Hw].
    { unfold code_of. rewrite E. eapply inside_need; [by apply (sound_WGcb a)|done]. }
    unfold item_of in *. rewrite Hw in *. simpl in *.
    pose proof (reachable_wg app a0 _ Hr w (B1 _ _ Hw)) as Hwg.
    destruct (decide (rr_wg (reqRes (items (sh s) w)) <= 0)) as [Hle|Hgt]; [done|].
    exists w. split; [done|].
    destruct (decide (w ∈ ids is_rrdone (trace s))); lia.
  - destruct (task_only _ _ _ Hva eq_refl) as [j ->].
    destruct (reachable_task _ _ _ Hr j) as [Hj _]; [unfold code_of; by rewrite E|].
    unfold item_of in *. rewrite Hj in *. simpl in *.
    destruct (mtx (items (sh s) j)) eqn:Hm; [|done]. by exists j.
Qed.

Lemma releases_find_their_lock_witness :
  exists s,
    run toy_app release_schedule (init 0%nat) = Next s /\
    mutexes (sh s) checkTxMidLock = true.
Proof.
  exists (final toy_app 0%nat release_schedule).
  assert (Hrun : run toy_app release_schedule (init 0%nat) =
                 Next (final toy_app 0%nat release_schedule))
    by (vm_compute; reflexivity).
  split; [exact Hrun|].
  assert (Hcode : code_of (final toy_app 0%nat release_schedule) (Caller 0) =
                  IUnlock checkTxMidLock
                  :: tail (code_of (final toy_app 0%nat release_schedule) (Caller 0)))
    by (vm_compute; reflexivity).
  exact (releases_find_their_lock toy_app 0%nat release_schedule _ (Caller 0)
           (IUnlock checkTxMidLock) _ Hrun Hcode).
Defined.

(** X2: the wait group of a work item's [ReqRes] is 1 from its creation
    until the worker marks the item done and 0 from then on; an item is
    marked done at most once, and only once its response slot is
    filled, so whoever waits on the handle finds a response. *)
Theorem handle_released_once {A} (app : ApplicationCC A) (a0 : A)
    sched (s : @State A) :
  run app sched (init a0) = Next s ->
  NoDup (ids is_rrdone (trace s)) /\
  forall j, (j < next (sh s))%nat ->
    (rr_wg (reqRes (items (sh s) j)) = 1 /\ j ∉ ids is_rrdone (trace s)) \/
    (rr_wg (reqRes (items (sh s) j)) = 0 /\ j ∈ ids is_rrdone (trace s) /\
     Response (reqRes (items (sh s) j)) <> None).
Proof.
  intros Hrun. pose proof (run_init_reachable _ _ _ _ Hrun) as Hr.
  destruct (reachable_marked_once app a0 _ Hr) as [N1 N2]. split; [done|].
  intros j Hj. rewrite (reachable_wg app a0 _ Hr j Hj). case_decide; [right|by left].
  split; [done|]. split; [done|]. apply (reachable_response _ _ _ Hr). by apply N2.
Qed.

Lemma handle_released_once_witness :
  exists s,
    run toy_app fifo_schedule (init 0%nat) = Next s /\
    ids is_rrdone (trace s) = [0; 1; 2]%nat /\
    NoDup (ids is_rrdone (trace s)).
Proof.
  exists (final toy_app 0%nat fifo_schedule).
  assert (Hrun : run toy_app fifo_schedule (init 0%nat) =
                 Next (final toy_app 0%nat fifo_schedule))
    by (vm_compute; reflexivity).
  split; [exact Hrun|]. split; [vm_compute; reflexivity|].
  exact (proj1 (handle_released_once toy_app 0%nat fifo_schedule _ Hrun)).
Defined.

(** X3: when a method that waits for the in-flight counter
    ([CommitAsync], [EndBlockAsync], [EndBlockSync]) makes its
    application call, every validate-class item enqueued so far has been
    counted, has a response, has been counted down and has had its
    global callback, and no [CheckTxAsync] is at its enqueueing. *)
Theorem waiting_commit_sees_validated_items {A} (app : ApplicationCC A) (a0 : A)
    sched (s : @State A) t op e0 evs :
  run app sched (init a0) = Next s ->
  cur_call t (trace s) = e0 :: evs -> act e0 = ACall op -> waits op = true ->
  at_instr is_commit_call s (Caller t) = true ->
  (forall j, j ∈ ids (is_send_to Check) (trace s) ->
     j ∈ ids is_add (trace s) /\ j ∈ ids is_done (trace s) /\
     Response (reqRes (items (sh s) j)) <> None /\ j ∈ ids is_gcb (trace s)) /\
  (forall b, at_instr (is_send_to_i Check) s b = false).
Proof.
  intros Hrun Hcur Hact Hw Hat. pose proof (run_init_reachable _ _ _ _ Hrun) as Hr.
  pose proof (reachable_valid _ _ _ Hr) as Hv.
  pose proof (reachable_call _ _ _ Hr t) as Hc. rewrite Hcur in Hc.
  destruct Hc as (op' & ran & Hop & Hb & _).
  rewrite Hact in Hop. injection Hop as <-.
  assert (Htail : code_of s (Caller t) ∈ tails (body op)).
  { rewrite Hb. apply tails_app. }
  assert (Hbar : barrier_code (code_of s (Caller t)) = true).
  { unfold at_instr in Hat. clear Hb.
    destruct op; try done; simpl in Htail; rewrite !elem_of_cons, elem_of_nil in Htail;
      destruct_or!; try done; rewrite Htail in Hat |- *; done. }
  destruct (barrier_shape _ _ (Hv (Caller t))) as (Hlock & _).
  specialize (Hlock Hbar).
  destruct (reachable_RM _ _ commitLock _ Hr) as [_ M2].
  destruct (reachable_RW _ _ _ Hr) as [_ W2].
  split.
  - intros j Hj. pose proof (reachable_barrier app a0 _ Hr _ Hbar j Hj) as Hd.
    destruct (reachable_chain _ _ _ Hr) as (_ & _ & _ & _ & _ & K6 & _).
    assert (Hg : j ∈ ids is_gcb (trace s)).
    { destruct (reachable_settling _ _ _ Hr j Hd) as [?|(kd & H1 & H2 & H3)]; [done|].
      exfalso.
      assert (Hwk : inside RW (code_of s (Worker kd)) = true).
      { eapply settling_in_RW; [apply Hv|done..]. }
      assert (Hcl : inside RW (code_of s (Caller t)) = true).
      { apply (at_write_inside app a0); [done|]. unfold at_instr in *.
        destruct (code_of s (Caller t)) as [|[] ?]; try done. by destruct c. }
      by specialize (W2 _ _ Hwk Hcl). }
    destruct (reachable_attempted _ _ _ Hr) as [_ P1].
    repeat split; auto. apply (reachable_response _ _ _ Hr). auto.
  - intros b. destruct (at_instr (is_send_to_i Check) s b) eqn:Hsb; [exfalso|done].
    unfold at_instr in Hsb. specialize (Hv b).
    destruct (code_of s b) as [|i k] eqn:E; [done|]. destruct i; try done.
    apply bool_decide_eq_true in Hsb. subst.
    destruct (barrier_shape _ _ Hv) as (_ & _ & _ & Hs). destruct Hs as [_ Hin]; [done|].
    assert (b = Caller t) as -> by (apply M2; [by rewrite E|done]).
    by rewrite E in Hbar.
Qed.

Lemma waiting_commit_sees_validated_items_witness :
  exists s,
    run toy_app commit_schedule (init 0%nat) = Next s /\
    ids (is_send_to Check) (trace s) = [0%nat] /\
    0%nat ∈ ids is_gcb (trace s).
Proof.
  exists (final toy_app 0%nat commit_schedule).
  assert (Hrun : run toy_app commit_schedule (init 0%nat) =
                 Next (final toy_app 0%nat commit_schedule))
    by (vm_compute; reflexivity).
  assert (Hsend : ids (is_send_to Check) (trace (final toy_app 0%nat commit_schedule)) =
                  [0%nat]) by (vm_compute; reflexivity).
  split; [exact Hrun|]. split; [exact Hsend|].
  assert (Hcur : cur_call 1 (trace (final toy_app 0%nat commit_schedule)) =
            [ {| actor := Caller 1; work := None; act := ACall CommitAsync |};
              {| actor := Caller 1; work := None; act := ALock checkTxMidLock |};
              {| actor := Caller 1; work := None; act := ALock commitLock |};
              {| actor := Caller 1; work := None; act := AUnlock checkTxMidLock |};
              {| actor := Caller 1; work := None; act := AWait |};
              {| actor := Caller 1; work := None; act := AWLock |} ])
    by (vm_compute; reflexivity).
  assert (Hat : at_instr is_commit_call (final toy_app 0%nat commit_schedule) (Caller 1)
                = true) by (vm_compute; reflexivity).
  refine (proj2 (proj2 (proj2 (proj1
            (waiting_commit_sees_validated_items toy_app 0%nat commit_schedule _ 1%nat
               CommitAsync _ _ Hrun Hcur eq_refl eq_refl Hat) 0%nat _)))).
  rewrite Hsend. apply list_elem_of_here.
Defined.

(** X4: which calls of the global callback are protected against
    [SetResponseCallback].  A goroutine about to call the global
    callback inside a write section of [rwLock] (the workers,
    [SetOptionAsync], [ReCheckTxAsync], [CommitAsync], [InitChainAsync],
    [BeginBlockAsync], [EndBlockAsync]) holds the write lock, and no
    goroutine is at the assignment of the callback.  A goroutine about
    to call it outside a write section is a caller in [EchoAsync],
    [InfoAsync] or [QueryAsync]; such a call can meet the assignment:
    there is a run on which one caller is at the assignment and another
    at the call. *)
Theorem callback_reads_and_the_lock {A} (app : ApplicationCC A) (a0 : A)
    sched (s : @State A) b :
  run app sched (init a0) = Next s ->
  at_instr is_callback_i s b = true ->
  (inside RW (code_of s b) = true ->
     rw_writer (sh s) = true /\ forall a, at_instr is_setcb_i s a = false) /\
  (inside RW (code_of s b) = false ->
     exists t e0 evs op,
       b = Caller t /\ cur_call t (trace s) = e0 :: evs /\ act e0 = ACall op /\
       reads_unlocked op = true) /\
  (exists sched' s',
     run app sched' (init a0) = Next s' /\
     at_instr is_setcb_i s' (Caller 0) = true /\
     at_instr is_callback_i s' (Caller 1) = true).
Proof.
  intros Hrun Hat. pose proof (run_init_reachable _ _ _ _ Hrun) as Hr.
  pose proof (reachable_valid _ _ _ Hr b) as Hv.
  destruct (reachable_RW _ _ _ Hr) as [W1 W2].
  split; [|split].
  - intros Hin. split; [by apply (W1 b)|]. intros a.
    destruct (at_instr is_setcb_i s a) eqn:Ha; [|done]. exfalso.
    assert (Hina : inside RW (code_of s a) = true).
    { apply (at_write_inside app a0 _ _ Hr). unfold at_instr in *.
      destruct (code_of s a) as [|[] ?]; done. }
    pose proof (W2 a b Hina Hin) as ->. unfold at_instr in *.
    destruct (code_of s b) as [|[] ?]; done.
  - intros Hin. unfold at_instr in Hat.
    destruct (code_of s b) as [|i k] eqn:E; [done|].
    pose proof (callback_agent _ _ _ Hv Hat) as Hb.
    destruct b as [t|kd|j]; [|congruence|done].
    pose proof (reachable_call _ _ _ Hr t) as Hc.
    destruct (cur_call t (trace s)) as [|e0 evs] eqn:Hcur; [congruence|].
    destruct Hc as (op & ran & Hact & Hbody & _). rewrite E in Hbody.
    exists t, e0, evs, op. repeat (split; [done|]).
    by eapply unlocked_read_op.
  - exists race_schedule. unfold race_schedule. eexists. split; [reflexivity|]. split; reflexivity.
Qed.

Lemma callback_reads_and_the_lock_witness :
  exists s,
    run toy_app race_schedule (init 0%nat) = Next s /\
    at_instr is_setcb_i s (Caller 0) = true /\
    exists t e0 evs op,
      Caller 1 = Caller t /\ cur_call t (trace s) = e0 :: evs /\ act e0 = ACall op /\
      reads_unlocked op = true.
Proof.
  exists (final toy_app 0%nat race_schedule).
  assert (Hrun : run toy_app race_schedule (init 0%nat) =
                 Next (final toy_app 0%nat race_schedule))
    by (vm_compute; reflexivity).
  split; [exact Hrun|]. split; [vm_compute; reflexivity|].
  assert (Hat : at_instr is_callback_i (final toy_app 0%nat race_schedule) (Caller 1) = true)
    by (vm_compute; reflexivity).
  assert (Hin : inside RW (code_of (final toy_app 0%nat race_schedule) (Caller 1)) = false)
    by (vm_compute; reflexivity).
  exact (proj1 (proj2 (callback_reads_and_the_lock toy_app 0%nat race_schedule _ (Caller 1)
                         Hrun Hat)) Hin).
Defined.

(** Going through the events of a call that has returned. *)
Ltac call_events :=
  repeat match goal with
         | Hf : match ?evs with [] => False | _ :: _ => _ end,
           Hfr : match ?evs with [] => False | _ :: _ => _ end |- _ =>
             destruct evs as [|[? ? ?] ?]; [done|];
             let Ha := fresh "Ha" in let Hs := fresh "Hs" in
             destruct Hf as [(Ha & _ & _) Hf]; destruct Hfr as [Hs Hfr]
         end;
  match goal with
  | Hf : match ?evs with [] => True | _ :: _ => False end |- _ => destruct evs; [|done]
  end;
  simpl in *;
  repeat match goal with H : exists _, _ |- _ => destruct H end;
  subst.

(** X5: an asynchronous pass-through method that has returned has, apart
    from its lock operations, made one application call, handed the
    request and the response of that call to the global callback once,
    and returned a finished [ReqRes] holding that same response.  The
    call was made by a step of the caller, in the current invocation of
    the method, and it is the call of the application method of the same
    name on the request: the response is what that method returns in the
    application state of that moment, and the application is left in the
    state the method leaves it in. *)
Theorem async_passes_result_on {A} (app : ApplicationCC A) (a0 : A)
    sched (s : @State A) t op c req e0 evs :
  run app sched (init a0) = Next s ->
  cur_call t (trace s) = e0 :: evs -> act e0 = ACall op ->
  async_call op = Some (c, req) -> code_of s (Caller t) = [] ->
  exists g r tr1 e tr2 s0 s1,
    visible evs =
      [AApp c r; AGcb g req (Some r);
       ARet (RetLocalReqRes (newLocalReqRes req (Some r)))] /\
    trace s = tr1 ++ e :: tr2 /\ actor e = Caller t /\ act e = AApp c r /\
    no_call_by t tr2 /\
    made_by app a0 sched s tr1 e s0 s1 /\
    passes_to app op (app_state (sh s0)) = Some (app_state (sh s1), r).
Proof.
  intros Hrun Hcur Hact Has Hcode. pose proof (run_init_reachable _ _ _ _ Hrun) as Hr.
  destruct (call_course app a0 s t e0 evs op Hr Hcur Hact) as (ran & Hb & Hf & Hfr).
  rewrite Hcode, app_nil_r in Hb. subst ran.
  assert (Hvis : exists g r, visible evs =
            [AApp c r; AGcb g req (Some r);
             ARet (RetLocalReqRes (newLocalReqRes req (Some r)))]).
  { clear Hcur Hrun Hr. unfold visible.
    destruct op; try discriminate Has; injection Has as <- <-;
      simpl in Hf, Hfr; call_events; simpl; eauto. }
  destruct Hvis as (g & r & Hvis).
  destruct (app_event_of_call app a0 sched s t e0 evs c r Hrun Hcur
              (visible_app _ _ _ _ Hvis))
    as (tr1 & e & tr2 & s0 & s1 & Htr & Hactor & Hae & Hn & Hm & Hcall).
  exists g, r, tr1, e, tr2, s0, s1. repeat (split; [done|]).
  by rewrite (passes_to_async app op c req _ Has), Hcall.
Qed.

Lemma async_passes_result_on_witness :
  exists s,
    run toy_app (call_schedule (InfoAsync []) 5) (init 0%nat) = Next s /\
    visible (tail (cur_call 0 (trace s))) =
      [AApp (CInfo []) (RspInfo []); AGcb 7 (ReqInfo []) (Some (RspInfo []));
       ARet (RetLocalReqRes (newLocalReqRes (ReqInfo []) (Some (RspInfo []))))].
Proof.
  exists (final toy_app 0%nat (call_schedule (InfoAsync []) 5)).
  assert (Hrun : run toy_app (call_schedule (InfoAsync []) 5) (init 0%nat) =
                 Next (final toy_app 0%nat (call_schedule (InfoAsync []) 5)))
    by (vm_compute; reflexivity).
  split; [exact Hrun|].
  assert (Hcur : cur_call 0 (trace (final toy_app 0%nat (call_schedule (InfoAsync []) 5))) =
            {| actor := Caller 0; work := None; act := ACall (InfoAsync []) |}
            :: tail (cur_call 0 (trace (final toy_app 0%nat
                                          (call_schedule (InfoAsync []) 5)))))
    by (vm_compute; reflexivity).
  assert (Hcode : code_of (final toy_app 0%nat (call_schedule (InfoAsync []) 5)) (Caller 0)
                  = []) by (vm_compute; reflexivity).
  destruct (async_passes_result_on toy_app 0%nat _ _ 0%nat (InfoAsync []) _ _ _ _
              Hrun Hcur eq_refl eq_refl Hcode) as (g & r & _ & _ & _ & _ & _ & Hv & _).
  rewrite Hv. vm_compute in Hv. by injection Hv as <- <-.
Defined.

(** X6: a synchronous pass-through method that has returned has, apart
    from its lock operations, made one application call and returned the
    response of that call; it has invoked no callback.  The call was
    made by a step of the caller, in the current invocation of the
    method, and it is the call of the application method of the same
    name on the request: the response is what that method returns in the
    application state of that moment, and the application is left in the
    state the method leaves it in. *)
Theorem sync_returns_result {A} (app : ApplicationCC A) (a0 : A)
    sched (s : @State A) t op c e0 evs :
  run app sched (init a0) = Next s ->
  cur_call t (trace s) = e0 :: evs -> act e0 = ACall op ->
  sync_call op = Some c -> code_of s (Caller t) = [] ->
  exists r tr1 e tr2 s0 s1,
    visible evs = [AApp c r; ARet (RetResponse (Some r))] /\
    trace s = tr1 ++ e :: tr2 /\ actor e = Caller t /\ act e = AApp c r /\
    no_call_by t tr2 /\
    made_by app a0 sched s tr1 e s0 s1 /\
    passes_to app op (app_state (sh s0)) = Some (app_state (sh s1), r).
Proof.
  intros Hrun Hcur Hact Has Hcode. pose proof (run_init_reachable _ _ _ _ Hrun) as Hr.
  destruct (call_course app a0 s t e0 evs op Hr Hcur Hact) as (ran & Hb & Hf & Hfr).
  rewrite Hcode, app_nil_r in Hb. subst ran.
  assert (Hvis : exists r, visible evs = [AApp c r; ARet (RetResponse (Some r))]).
  { clear Hcur Hrun Hr. unfold visible.
    destruct op; try discriminate Has; injection Has as <-;
      simpl in Hf, Hfr; call_events; simpl; eauto. }
  destruct Hvis as (r & Hvis).
  destruct (app_event_of_call app a0 sched s t e0 evs c r Hrun Hcur
              (visible_app _ _ _ _ Hvis))
    as (tr1 & e & tr2 & s0 & s1 & Htr & Hactor & Hae & Hn & Hm & Hcall).
  exists r, tr1, e, tr2, s0, s1. repeat (split; [done|]).
  by rewrite (passes_to_sync app op c _ Has), Hcall.
Qed.

Lemma sync_returns_result_witness :
  exists s,
    run toy_app (call_schedule (CheckTxSync []) 4) (init 0%nat) = Next s /\
    visible (tail (cur_call 0 (trace s))) =
      [AApp (CCheckTx []) (RspCheckTx toy_ok); ARet (RetResponse (Some (RspCheckTx toy_ok)))].
Proof.
  exists (final toy_app 0%nat (call_schedule (CheckTxSync []) 4)).
  assert (Hrun : run toy_app (call_schedule (CheckTxSync []) 4) (init 0%nat) =
                 Next (final toy_app 0%nat (call_schedule (CheckTxSync []) 4)))
    by (vm_compute; reflexivity).
  split; [exact Hrun|].
  assert (Hcur : cur_call 0 (trace (final toy_app 0%nat (call_schedule (CheckTxSync []) 4))) =
            {| actor := Caller 0; work := None; act := ACall (CheckTxSync []) |}
            :: tail (cur_call 0 (trace (final toy_app 0%nat
                                          (call_schedule (CheckTxSync []) 4)))))
    by (vm_compute; reflexivity).
  assert (Hcode : code_of (final toy_app 0%nat (call_schedule (CheckTxSync []) 4)) (Caller 0)
                  = []) by (vm_compute; reflexivity).
  destruct (sync_returns_result toy_app 0%nat _ _ 0%nat (CheckTxSync []) _ _ _
              Hrun Hcur eq_refl eq_refl Hcode) as (r & _ & _ & _ & _ & _ & Hv & _).
  rewrite Hv. vm_compute in Hv. by injection Hv as <-.
Defined.

(** X7: [Error], [FlushSync], [FlushAsync], [EchoSync] and [EchoAsync]
    take no lock, do not call the application and never wait, and each
    of their steps leaves the shared state as it is.  [EchoAsync] hands
    the echoed message to the global callback and returns it in a
    finished [ReqRes]; [FlushAsync] returns a finished [ReqRes] without
    a response and invokes no callback. *)
Theorem local_methods_touch_nothing {A} (app : ApplicationCC A) (a0 : A)
    sched (s : @State A) t op e0 evs :
  run app sched (init a0) = Next s ->
  cur_call t (trace s) = e0 :: evs -> act e0 = ACall op ->
  local_acts op 0 <> None ->
  (code_of s (Caller t) = [] -> exists g, local_acts op g = Some (map act evs)) /\
  (forall s', exec app (Step (Caller t)) s = Next s' -> sh s' = sh s) /\
  (exec app (Step (Caller t)) s = Blocked -> code_of s (Caller t) = []).
Proof.
  intros Hrun Hcur Hact Hloc. pose proof (run_init_reachable _ _ _ _ Hrun) as Hr.
  destruct (call_course app a0 s t e0 evs op Hr Hcur Hact) as (ran & Hb & Hf & Hfr).
  split.
  - intros Hcode. rewrite Hcode, app_nil_r in Hb. subst ran. clear Hcur Hrun Hr.
    destruct op; try done; simpl in Hf, Hfr; call_events; simpl; eauto.
    all: by exists 0%nat.
  - assert (Htail : code_of s (Caller t) ∈ tails (body op)).
    { rewrite Hb. apply tails_app. }
    clear Hb Hf Hfr. unfold code_of in *. unfold exec.
    destruct op; try done; simpl in Htail; rewrite !elem_of_cons, elem_of_nil in Htail;
      destruct_or!; try done; rewrite Htail; simpl;
      repeat case_match; split; try done; intros; by simplify_eq.
Qed.

Lemma local_methods_touch_nothing_witness :
  exists s,
    run toy_app (call_schedule (EchoAsync "ping") 3) (init 0%nat) = Next s /\
    map act (tail (cur_call 0 (trace s))) =
      [AEval; AGcb 7 (ReqEcho "ping") (Some (RspEcho "ping"));
       ARet (RetLocalReqRes (newLocalReqRes (ReqEcho "ping") (Some (RspEcho "ping"))))].
Proof.
  exists (final toy_app 0%nat (call_schedule (EchoAsync "ping") 3)).
  assert (Hrun : run toy_app (call_schedule (EchoAsync "ping") 3) (init 0%nat) =
                 Next (final toy_app 0%nat (call_schedule (EchoAsync "ping") 3)))
    by (vm_compute; reflexivity).
  split; [exact Hrun|].
  assert (Hcur : cur_call 0 (trace (final toy_app 0%nat (call_schedule (EchoAsync "ping") 3))) =
            {| actor := Caller 0; work := None; act := ACall (EchoAsync "ping") |}
            :: tail (cur_call 0 (trace (final toy_app 0%nat
                                          (call_schedule (EchoAsync "ping") 3)))))
    by (vm_compute; reflexivity).
  assert (Hcode : code_of (final toy_app 0%nat (call_schedule (EchoAsync "ping") 3)) (Caller 0)
                  = []) by (vm_compute; reflexivity).
  assert (Hloc : local_acts (EchoAsync "ping") 0 <> None) by done.
  destruct (proj1 (local_methods_touch_nothing toy_app 0%nat _ _ 0%nat (EchoAsync "ping") _ _
                     Hrun Hcur eq_refl Hloc) Hcode) as (g & Hv).
  vm_compute. reflexivity.
Defined.

(** X8: a goroutine inside a write or read section of [rwLock] never
    waits: none of its statements there can block.  A goroutine inside a
    write section, if the global callback it is going to call is
    installed, runs on its own to the release of the lock, in at most
    six steps. *)
Theorem rwLock_holder_runs_to_release {A} (app : ApplicationCC A) (a0 : A)
    sched (s : @State A) a :
  run app sched (init a0) = Next s ->
  (inside RW (code_of s a) = true \/ inside RR (code_of s a) = true ->
   exec app (Step a) s <> Blocked) /\
  (inside RW (code_of s a) = true ->
   (cb_ahead (code_of s a) = true -> Callback (sh s) <> None) ->
   (to_release (code_of s a) <= 6)%nat /\
   exists s', run app (steps a (to_release (code_of s a))) s = Next s' /\
     rw_writer (sh s') = false /\ inside RW (code_of s' a) = false).
Proof.
  intros Hrun. pose proof (run_init_reachable _ _ _ _ Hrun) as Hr. split.
  - by apply (holder_steps app a0).
  - intros Hin Hcb. split.
    + by destruct (write_section_shape _ _ (reachable_valid _ _ _ Hr a) Hin).
    + by apply (write_lock_released app a0 _ s a).
Qed.

Lemma rwLock_holder_runs_to_release_witness :
  exists s,
    run toy_app commit_schedule (init 0%nat) = Next s /\
    rw_writer (sh s) = true /\
    exists s', run toy_app (steps (Caller 1) 3) s = Next s' /\ rw_writer (sh s') = false.
Proof.
  exists (final toy_app 0%nat commit_schedule).
  assert (Hrun : run toy_app commit_schedule (init 0%nat) =
                 Next (final toy_app 0%nat commit_schedule))
    by (vm_compute; reflexivity).
  split; [exact Hrun|]. split; [vm_compute; reflexivity|].
  assert (Hin : inside RW (code_of (final toy_app 0%nat commit_schedule) (Caller 1)) = true)
    by (vm_compute; reflexivity).
  assert (Hcb : cb_ahead (code_of (final toy_app 0%nat commit_schedule) (Caller 1)) = true ->
                Callback (sh (final toy_app 0%nat commit_schedule)) <> None)
    by (intros _; vm_compute; discriminate).
  assert (Hn : to_release (code_of (final toy_app 0%nat commit_schedule) (Caller 1)) = 3%nat)
    by (vm_compute; reflexivity).
  destruct (proj2 (rwLock_holder_runs_to_release toy_app 0%nat commit_schedule _ (Caller 1)
                     Hrun) Hin Hcb) as (_ & s' & Hs' & Hw & _).
  rewrite Hn in Hs'. exists s'. split; [exact Hs'|exact Hw].
Defined.

(** X9: the locks are taken in one order, admission mutex, arbitration
    mutex, commit mutex, [rwLock]: a goroutine about to acquire a lock
    holds only locks that come before it in that order, and the locks
    it holds are held in the state. *)
Theorem locks_taken_in_order {A} (app : ApplicationCC A) (a0 : A)
    sched (s : @State A) a i k L L' :
  run app sched (init a0) = Next s ->
  code_of s a = i :: k -> acquires i = Some L -> holds L' (code_of s a) = true ->
  (rank L' < rank L)%nat /\
  match L' with
  | Mx m => mutexes (sh s) m = true
  | Rw => rw_writer (sh s) = true \/ a ∈ rw_readers (sh s)
  end.
Proof.
  intros Hrun Hc Ha Hh. pose proof (run_init_reachable _ _ _ _ Hrun) as Hr.
  pose proof (reachable_valid _ _ _ Hr a) as Hv. split.
  - rewrite Hc in Hv, Hh. by eapply (lock_order_static a i k).
  - destruct L' as [m|]; simpl in Hh.
    + by apply (reachable_RM _ _ m _ Hr) in Hh.
    + apply orb_true_iff in Hh as [Hh|Hh].
      * left. by apply (reachable_RW _ _ _ Hr) in Hh.
      * right. by apply (reachable_readers _ _ _ Hr).
Qed.

Lemma locks_taken_in_order_witness :
  exists s,
    run toy_app admission_schedule (init 0%nat) = Next s /\
    mutexes (sh s) checkTxMidLock = true.
Proof.
  exists (final toy_app 0%nat admission_schedule).
  assert (Hrun : run toy_app admission_schedule (init 0%nat) =
                 Next (final toy_app 0%nat admission_schedule))
    by (vm_compute; reflexivity).
  split; [exact Hrun|].
  assert (Hc : code_of (final toy_app 0%nat admission_schedule) (Caller 0) =
               ILock commitLock ::
               [IUnlock checkTxMidLock; ISend Check; IAdd; IUnlock commitLock;
                IUnlock checkTxLowLock; ISchedule Check []; IReturn RkHandle])
    by (vm_compute; reflexivity).
  assert (Hh : holds (Mx checkTxMidLock)
                 (code_of (final toy_app 0%nat admission_schedule) (Caller 0)) = true)
    by (vm_compute; reflexivity).
  exact (proj2 (locks_taken_in_order toy_app 0%nat admission_schedule _ (Caller 0) _ _
                  (Mx commitLock) (Mx checkTxMidLock) Hrun Hc eq_refl Hh)).
Defined.

(** X10: for every item the pre-validation is run once, after its
    closure has been scheduled and before the closure opens the gate,
    hence before the worker's real-call step: the worker never handles
    an item whose pre-validation has not finished. *)
Theorem pre_validation_comes_first {A} (app : ApplicationCC A) (a0 : A)
    sched (s : @State A) :
  run app sched (init a0) = Next s ->
  NoDup (ids is_pre (trace s)) /\
  precedes is_sched is_pre (trace s) /\
  precedes is_pre is_open (trace s) /\
  precedes is_pre is_attempt (trace s).
Proof.
  intros Hrun. pose proof (run_init_reachable _ _ _ _ Hrun) as Hr.
  split; [by apply (reachable_pre_nodup app a0)|]. split; [|split].
  - apply (precedes_of app a0); [done| |by intros [? ? []]]. intros s1 Hr1.
    by destruct (reachable_task_fresh _ _ _ Hr1) as (_ & _ & F3).
  - apply (precedes_of app a0); [done| |by intros [? ? []]]. intros s1 Hr1.
    by destruct (reachable_pre_done app a0 _ Hr1) as [_ P2].
  - apply (precedes_of app a0); [done| |by intros [? ? []]]. intros s1 Hr1 j Hj.
    destruct (reachable_pre_done app a0 _ Hr1) as [_ P2].
    by apply P2, (reachable_attempt_open app a0).
Qed.

Lemma pre_validation_comes_first_witness :
  exists s,
    run toy_app fifo_schedule (init 0%nat) = Next s /\
    ids is_pre (trace s) = [2; 1; 0]%nat /\
    precedes is_pre is_attempt (trace s).
Proof.
  exists (final toy_app 0%nat fifo_schedule).
  assert (Hrun : run toy_app fifo_schedule (init 0%nat) =
                 Next (final toy_app 0%nat fifo_schedule))
    by (vm_compute; reflexivity).
  split; [exact Hrun|]. split; [vm_compute; reflexivity|].
  exact (proj2 (proj2 (proj2
           (pre_validation_comes_first toy_app 0%nat fifo_schedule _ Hrun)))).
Defined.

(** X11: a work item carries the transaction it was submitted with.  The
    request of the item a [DeliverTxAsync] / [CheckTxAsync] has created
    is the deliver resp. check request of the submitted transaction; the
    closure pre-validates the transaction of that request; the worker of
    a pipeline makes the real call of its own pipeline, on an item whose
    request is of that pipeline, so that the transaction it reads from
    the request is the one submitted; and no step changes the request of
    an existing item. *)
Theorem same_transaction {A} (app : ApplicationCC A) (a0 : A) sched (s : @State A) :
  run app sched (init a0) = Next s ->
  (forall t op kd tx e0 evs j,
     cur_call t (trace s) = e0 :: evs -> act e0 = ACall op -> sub_of op = Some (kd, tx) ->
     inside RSub (code_of s (Caller t)) = true -> item_of s (Caller t) = Some j ->
     request_of s j = ToRequestTx kd tx) /\
  (forall j kd tx k, code_of s (Task j) = IPre kd tx :: k ->
     request_of s j = ToRequestTx kd tx) /\
  (forall kd kd' j k,
     code_of s (Worker kd) = IReal kd' :: k -> item_of s (Worker kd) = Some j ->
     kd' = kd /\ ToRequestTx kd (GetTx kd (request_of s j)) = request_of s j) /\
  (forall e s' j, exec app e s = Next s' -> (j < next (sh s))%nat ->
     request_of s' j = request_of s j).
Proof.
  intros Hrun. pose proof (run_init_reachable _ _ _ _ Hrun) as Hr.
  destruct (reachable_request app a0 _ Hr) as (Q1 & Q2 & Q3 & Q4).
  split; [|split; [|split]].
  - intros t op kd tx e0 evs j Hcur Hact Hsub Hin Hit.
    pose proof (reachable_call _ _ _ Hr t) as Hc. rewrite Hcur in Hc.
    destruct Hc as (op' & ran & Hact' & Hb & _). rewrite Hact in Hact'. simplify_eq.
    apply (Q1 (Caller t)); [done|done|]. by eapply sub_of_code.
  - exact Q4.
  - intros kd kd' j k Hc Hit.
    pose proof (reachable_valid _ _ _ Hr (Worker kd)) as Hv. rewrite Hc in Hv.
    destruct (worker_real _ _ _ Hv) as [-> Hin]. split; [done|].
    destruct (Q3 kd j) as [tx Htx]; [by rewrite Hc|done|].
    by rewrite Htx, GetTx_ToRequestTx.
  - intros e s' j. apply (exec_request app).
Qed.

Lemma same_transaction_witness :
  exists s,
    run toy_app submission_schedule (init 0%nat) = Next s /\
    item_of s (Caller 0) = Some 0%nat /\
    request_of s 0%nat = ReqDeliverTx [Byte.x2a].
Proof.
  exists (final toy_app 0%nat submission_schedule).
  assert (Hrun : run toy_app submission_schedule (init 0%nat) =
                 Next (final toy_app 0%nat submission_schedule))
    by (vm_compute; reflexivity).
  assert (Hit : item_of (final toy_app 0%nat submission_schedule) (Caller 0) = Some 0%nat)
    by (vm_compute; reflexivity).
  split; [exact Hrun|]. split; [exact Hit|].
  assert (Hcur : cur_call 0 (trace (final toy_app 0%nat submission_schedule)) =
            [ {| actor := Caller 0; work := None; act := ACall (DeliverTxAsync [Byte.x2a]) |};
              {| actor := Caller 0; work := Some 0%nat; act := ANew Deliver |} ])
    by (vm_compute; reflexivity).
  assert (Hin : inside RSub (code_of (final toy_app 0%nat submission_schedule) (Caller 0))
                = true) by (vm_compute; reflexivity).
  exact (proj1 (same_transaction toy_app 0%nat submission_schedule _ Hrun)
           0%nat (DeliverTxAsync [Byte.x2a]) Deliver [Byte.x2a] _ _ 0%nat
           Hcur eq_refl eq_refl Hin Hit).
Defined.
